(** * para-convolution: barrier-synchronised image effects and a work-stealing deque

    A shallow embedding of the Go sources under [proj3/] (the phase barrier and
    the effect kernels of [png/effects.go], the image type of [png/png.go], the
    lock-free deque of [deque/deque.go] and the scheduler of
    [scheduler/bsp.go]) together with the properties the design document
    states about them, and further properties of the same code, of the
    schedulers, the task queue and the sliced effects of [proj1/].

    Conventions.
    - Go's [int] is the 64-bit two's-complement integer of the platforms the
      benchmarks run on; it is a [Z] and every arithmetic operation wraps
      explicitly ([Go.wrap]).
    - [float64] is the kernel's binary64 float ([PrimFloat.float]).
    - A goroutine's critical section (the code it runs while it holds the
      barrier's mutex) is one atomic step of a transition system.
    - A loop with no bound in the source carries fuel; the fuel that suffices
      is proved. *)

From Stdlib Require Import ZArith Floats Uint63 String Lia.

From stdpp Require Import base option list gmap strings.

#[local] Open Scope Z_scope.

(** * Part I: the program *)

(** ** Go's [int], and how a call ends *)

Module Go.

Definition int_min : Z := -9223372036854775808.

Definition int_max : Z := 9223372036854775807.

Definition in_int (z : Z) : Prop := int_min <= z <= int_max.

(** Two's-complement wrap-around of a mathematical integer to 64 bits. *)
Definition wrap (z : Z) : Z := (z + 9223372036854775808) mod 18446744073709551616 - 9223372036854775808.

Definition int_add (a b : Z) : Z := wrap (a + b).

Definition int_sub (a b : Z) : Z := wrap (a - b).

Definition int_mul (a b : Z) : Z := wrap (a * b).

(** [a / b] on [int]: truncated division; a zero divisor is a run-time panic
    ([None]). *)
Definition int_quot (a b : Z) : option Z :=
  if b =? 0 then None else Some (wrap (a ÷ b)).

(** A call returns a value, panics, or never returns. *)
Inductive panic : Type :=
  | DivideByZero      (* integer divide by zero *)
  | IndexOutOfRange   (* index out of range *)
  | MakeSliceLen      (* makeslice: len out of range *)
  | NilDereference    (* nil pointer dereference *)
  | UnknownEffect.    (* panic("unknown effect") *)

Inductive outcome (T : Type) : Type :=
  | Done (v : T)
  | Panic (p : panic)
  | Hang.

Arguments Done {T} v.

Arguments Panic {T} p.

Arguments Hang {T}.

Definition bind {T U : Type} (o : outcome T) (k : T -> outcome U) : outcome U :=
  match o with
  | Done v => k v
  | Panic p => Panic p
  | Hang => Hang
  end.

Definition aborts {T : Type} (o : outcome T) : Prop := exists p, o = Panic p.

End Go.

(** ** The phase barrier ([png/effects.go], lines 11-41) *)

Module Barrier.

Import Go.

Record Barrier : Type := mkBarrier {
  count : Z;       (* number of waiting goroutines *)
  threshold : Z;   (* participants required to release the barrier *)
  generation : Z   (* phase counter *)
}.

Definition NewBarrier (threshold : Z) : Barrier :=
  {| count := 0; threshold := threshold; generation := 0 |}.

(** Where a goroutine that called [Wait] is: asleep in [b.cond.Wait()] with
    the generation it captured, or back from [Wait]. *)
Inductive status : Type :=
  | Parked (localGen : Z)
  | Returned.

#[global] Instance status_eq_dec : EqDecision status.
Proof. solve_decision. Defined.

(** The loop test [for localGen == b.generation { b.cond.Wait() }], run by a
    goroutine that holds the mutex: park again, or leave [Wait]. *)
Definition Wait_recheck (b : Barrier) (localGen : Z) : status :=
  if localGen =? generation b then Parked localGen else Returned.

(** The first critical section of [Wait]: from [b.Lock()] to the return of
    the releasing goroutine, or to the first [b.cond.Wait()] of any other. *)
Definition Wait_enter (b : Barrier) : Barrier * status :=
  let localGen := generation b in
  let b1 := {| count := int_add (count b) 1;
               threshold := threshold b;
               generation := generation b |} in
  if count b1 =? threshold b1 then
    ({| count := 0;
        threshold := threshold b1;
        generation := int_add (generation b1) 1 |}, Returned)
  else
    (b1, Wait_recheck b1 localGen).

(** The goroutines that share one barrier. [Arrive t]: goroutine [t] calls
    [Wait] and runs its first critical section. [Wake t]: the parked goroutine
    [t] comes back from [b.cond.Wait()], whatever woke it, and tests the loop
    condition again. A [Broadcast] makes every parked goroutine runnable; the
    system lets a parked goroutine wake at any time, which covers the
    [Broadcast] of its own phase, a late one of an earlier phase, and a
    wake-up without cause. *)
Inductive event : Type :=
  | Arrive (t : nat)
  | Wake (t : nat).

Record System : Type := mkSystem {
  bar : Barrier;
  thr : gmap nat status
}.

Definition init (threshold : Z) : System :=
  {| bar := NewBarrier threshold; thr := ∅ |}.

Definition step (s : System) (e : event) : option System :=
  match e with
  | Arrive t =>
      match thr s !! t with
      | Some (Parked _) => None (* blocked inside Wait: it cannot call Wait *)
      | _ =>
          let '(b', st) := Wait_enter (bar s) in
          Some {| bar := b'; thr := <[t := st]> (thr s) |}
      end
  | Wake t =>
      match thr s !! t with
      | Some (Parked g) =>
          Some {| bar := bar s; thr := <[t := Wait_recheck (bar s) g]> (thr s) |}
      | _ => None
      end
  end.

Fixpoint run (s : System) (evs : list event) : option System :=
  match evs with
  | [] => Some s
  | e :: evs' =>
      match step s e with
      | Some s' => run s' evs'
      | None => None
      end
  end.

Definition is_arrive (e : event) : Z :=
  match e with Arrive _ => 1 | Wake _ => 0 end.

(** Number of calls to [Wait] in a trace. *)
Fixpoint arrivals (evs : list event) : Z :=
  match evs with
  | [] => 0
  | e :: evs' => is_arrive e + arrivals evs'
  end.

Definition is_wake (e : event) : bool :=
  match e with Wake _ => true | Arrive _ => false end.

(** The state invariant after [a] arrivals at a barrier of [N] participants. *)
Record Inv (N a : Z) (s : System) : Prop := mkInv {
  inv_threshold : threshold (bar s) = N;
  inv_count : count (bar s) = a mod N;
  inv_generation : generation (bar s) = a / N;
  inv_parked : forall t g, thr s !! t = Some (Parked g) -> 0 <= g <= generation (bar s);
  inv_quiet : count (bar s) = 0 ->
              forall t g, thr s !! t = Some (Parked g) -> g < generation (bar s)
}.

(** One phase as the sliced effects run it: goroutines [1..n] (one per band)
    and then goroutine 0 (the launching one) each call [Wait] once. The
    launching goroutine gets past the barrier when its call returns at once,
    or when it parked and passes the loop test once woken. *)
Definition phase_events (n : nat) : list event :=
  (Arrive <$> seq 1 n) ++ [Arrive 0%nat].

Definition phase_returns (threshold : Z) (n : nat) : bool :=
  match run (init threshold) (phase_events n) with
  | Some s =>
      match thr s !! 0%nat with
      | Some Returned => true
      | Some (Parked g) => bool_decide (Wait_recheck (bar s) g = Returned)
      | None => false
      end
  | None => false
  end.

End Barrier.

(** ** Images and effect kernels ([png/png.go], [png/effects.go]) *)

Module Png.

Import Go.

(** [color.RGBA64]: four [uint16] channels. *)
Record RGBA64 : Type := mkRGBA64 { R : Z; G : Z; B : Z; A : Z }.

#[global] Instance RGBA64_eq_dec : EqDecision RGBA64.
Proof. solve_decision. Defined.

Definition is_uint16 (z : Z) : Prop := 0 <= z <= 65535.

Definition valid_color (c : RGBA64) : Prop :=
  is_uint16 (R c) /\ is_uint16 (G c) /\ is_uint16 (B c) /\ is_uint16 (A c).

(** [image.Point], [image.Rectangle]. *)
Record Point : Type := mkPoint { X : Z; Y : Z }.

Record Rectangle : Type := mkRectangle { Min : Point; Max : Point }.

(** [image.RGBA64], seen through [At] and [Set]: the pixels stored so far and
    the rectangle. A buffer made by [image.NewRGBA64] is all zero. *)
Record RGBA64Image : Type := mkRGBA64Image {
  Pix : gmap (Z * Z) RGBA64;
  Rect : Rectangle
}.

Definition NewRGBA64 (r : Rectangle) : RGBA64Image :=
  {| Pix := ∅; Rect := r |}.

(** [(Point{x, y}).In(r)] *)
Definition Point_In (x y : Z) (r : Rectangle) : bool :=
  (X (Min r) <=? x) && (x <? X (Max r)) && (Y (Min r) <=? y) && (y <? Y (Max r)).

Definition At (p : RGBA64Image) (x y : Z) : RGBA64 :=
  if Point_In x y (Rect p)
  then default (mkRGBA64 0 0 0 0) (Pix p !! (x, y))
  else mkRGBA64 0 0 0 0.

Definition Set_ (p : RGBA64Image) (x y : Z) (c : RGBA64) : RGBA64Image :=
  if Point_In x y (Rect p)
  then {| Pix := <[(x, y) := c]> (Pix p); Rect := Rect p |}
  else p.

(** [c.RGBA()] on a [color.RGBA64]: the channels as [uint32]. *)
Definition RGBA (c : RGBA64) : Z * Z * Z * Z := (R c, G c, B c, A c).

Definition uint16 (z : Z) : Z := z mod 65536.

Definition uint32 (z : Z) : Z := z mod 4294967296.

(** The [Image] of [png.go]. [In] and [Out] point to two distinct buffers
    ([Load] allocates both, [SwapBuffers] exchanges them), so a write to
    [Out] never changes what [In] shows. The field [Chunks] is used by no
    function. *)
Record Image : Type := mkImage {
  In : RGBA64Image;
  Out : RGBA64Image;
  Bounds : Rectangle;
  EffectsApplied : bool
}.

(** [img.Out.Set(x, y, c)] *)
Definition Out_Set (img : Image) (x y : Z) (c : RGBA64) : Image :=
  {| In := In img; Out := Set_ (Out img) x y c;
     Bounds := Bounds img; EffectsApplied := EffectsApplied img |}.

Definition SwapBuffers (img : Image) : Image :=
  {| In := Out img; Out := In img;
     Bounds := Bounds img; EffectsApplied := EffectsApplied img |}.

(** *** [float64] *)

Definition float64_of_uint32 (z : Z) : float := of_uint63 (Uint63.of_Z z).

(** Truncation of a float toward zero; 0 for a NaN or an infinity, where Go
    leaves the conversion to the implementation. *)
Definition trunc_float (f : float) : Z :=
  match Prim2SF f with
  | S754_finite s m e =>
      let mag := if 0 <=? e then Z.shiftl (Z.pos m) e else Z.shiftr (Z.pos m) (- e) in
      if s then - mag else mag
  | _ => 0
  end.

Definition uint16_of_float64 (f : float) : Z := uint16 (trunc_float f).

Definition is_pos_inf (x : float) : bool := is_infinity x && negb (get_sign x).

Definition is_neg_inf (x : float) : bool := is_infinity x && get_sign x.

(** [math.Max], [math.Min] *)
Definition math_Max (x y : float) : float :=
  if is_pos_inf x || is_pos_inf y then infinity
  else if is_nan x || is_nan y then nan
  else if (x =? 0)%float && (x =? y)%float then (if get_sign x then y else x)
  else if (y <? x)%float then x else y.

Definition math_Min (x y : float) : float :=
  if is_neg_inf x || is_neg_inf y then neg_infinity
  else if is_nan x || is_nan y then nan
  else if (x =? 0)%float && (x =? y)%float then (if get_sign x then x else y)
  else if (x <? y)%float then x else y.

Definition clamp (comp : float) : Z :=
  uint16_of_float64 (math_Min 65535 (math_Max 0 comp)).

(** *** Kernels *)

(** [kernel[index]] of a [[9]float64]. *)
Definition kernel_at (kernel : list float) (index : Z) : float :=
  nth (Z.to_nat index) kernel 0%float.

Definition Sharpen_kernel : list float :=
  [0; -1; 0; -1; 5; -1; 0; -1; 0]%float.

Definition EdgeDetection_kernel : list float :=
  [-1; -1; -1; -1; 8; -1; -1; -1; -1]%float.

Definition Blur_kernel : list float :=
  [1 / 9; 1 / 9; 1 / 9; 1 / 9; 1 / 9; 1 / 9; 1 / 9; 1 / 9; 1 / 9]%float.

(** [for v := lo; v < hi; v++] *)
Definition range (lo hi : Z) : list Z := seqZ lo (hi - lo).

(** [convolve]: the two loops over [dy] and [dx] accumulate in source order;
    a neighbour outside [img.Bounds] is skipped. Each product is rounded
    before it is added to the sum, as the compiler for amd64 has it (no fused
    multiply-add). [dy] and [dx] range over -1, 0, 1, so [index] does not
    wrap. *)
Definition convolve (img : Image) (x y : Z) (kernel : list float) : Z * Z * Z :=
  let bounds := Bounds img in
  let '(sumR, sumG, sumB) :=
    foldl (fun acc dy =>
      foldl (fun '(sumR, sumG, sumB) dx =>
        let neighborX := int_add x dx in
        let neighborY := int_add y dy in
        if (neighborX <? X (Min bounds)) || (X (Max bounds) <=? neighborX)
           || (neighborY <? Y (Min bounds)) || (Y (Max bounds) <=? neighborY)
        then (sumR, sumG, sumB)
        else
          let '(r, g, b, _) := RGBA (At (In img) neighborX neighborY) in
          let index := (dy + 1) * 3 + (dx + 1) in
          ((sumR + float64_of_uint32 r * kernel_at kernel index)%float,
           (sumG + float64_of_uint32 g * kernel_at kernel index)%float,
           (sumB + float64_of_uint32 b * kernel_at kernel index)%float))
        acc (range (-1) 2))
      (0%float, 0%float, 0%float) (range (-1) 2) in
  (clamp sumR, clamp sumG, clamp sumB).

(** The colour one iteration of the pixel loop stores at [(x, y)]. *)
Definition convolution_color (kernel : list float) (img : Image) (x y : Z) : RGBA64 :=
  let '(r, g, b) := convolve img x y kernel in
  let '(_, _, _, a) := RGBA (At (In img) x y) in
  mkRGBA64 r g b (uint16 a).

Definition Grayscale_color (img : Image) (x y : Z) : RGBA64 :=
  let '(r, g, b, a) := RGBA (At (In img) x y) in
  let greyC := clamp (float64_of_uint32 (uint32 (r + g + b)) / 3)%float in
  mkRGBA64 greyC greyC greyC (uint16 a).

(** *** Pixel loops *)

(** The pixels the loops
    [for y := startY; y < endY; y++ { for x := Min.X; x < Max.X; x++ {..} }]
    visit, in order. *)
Definition band_pixels (bounds : Rectangle) (startY endY : Z) : list (Z * Z) :=
  y ← range startY endY;
  x ← range (X (Min bounds)) (X (Max bounds));
  [(x, y)].

(** One iteration of a loop body that stores [color img x y] in [img.Out]. *)
Definition write_pixel (color : Image -> Z -> Z -> RGBA64)
    (img : Image) (p : Z * Z) : Image :=
  Out_Set img p.1 p.2 (color img p.1 p.2).

Definition run_pixels (color : Image -> Z -> Z -> RGBA64)
    (ps : list (Z * Z)) (img : Image) : Image :=
  foldl (write_pixel color) img ps.

(** *** The sequential effects *)

Definition convolution (img : Image) (kernel : list float) : Image :=
  let bounds := Bounds img in
  run_pixels (convolution_color kernel)
    (band_pixels bounds (Y (Min bounds)) (Y (Max bounds))) img.

Definition Sharpen (img : Image) : Image := convolution img Sharpen_kernel.

Definition EdgeDetection (img : Image) : Image := convolution img EdgeDetection_kernel.

Definition Blur (img : Image) : Image := convolution img Blur_kernel.

Definition Grayscale (img : Image) : Image :=
  let bounds := Rect (Out img) in
  run_pixels Grayscale_color
    (band_pixels bounds (Y (Min bounds)) (Y (Max bounds))) img.

(** *** The sliced (BSP) effects *)

(** Rows [start, end) of the band of goroutine [i]. *)
Definition slice (bounds : Rectangle) (numThreads sliceHeight i : Z) : Z * Z :=
  let start := int_add (Y (Min bounds)) (int_mul i sliceHeight) in
  let end_ := int_add start sliceHeight in
  (start, if i =? int_sub numThreads 1 then Y (Max bounds) else end_).

(** The bands of the loop [for i := 0; i < numThreads; i++]. *)
Definition slices (bounds : Rectangle) (numThreads sliceHeight : Z) : list (Z * Z) :=
  slice bounds numThreads sliceHeight <$> range 0 numThreads.

(** [sliceHeight := height / numThreads]; [None] is the divide-by-zero panic. *)
Definition sliceHeight_of (bounds : Rectangle) (numThreads : Z) : option Z :=
  let height := int_sub (Y (Max bounds)) (Y (Min bounds)) in
  int_quot height numThreads.

(** The slice height when nothing wraps. *)
Definition even_slice (bounds : Rectangle) (numThreads : Z) : Z :=
  (Y (Max bounds) - Y (Min bounds)) / numThreads.

(** The pixel writes of each launched goroutine, in its program order. *)
Definition goroutines (bounds : Rectangle) (numThreads sliceHeight : Z) : list (list (Z * Z)) :=
  (fun b => band_pixels bounds b.1 b.2) <$> slices bounds numThreads sliceHeight.

(** [interleaving ls l]: [l] runs every step of every list of [ls], each list
    in its own order. *)
Inductive interleaving {T : Type} : list (list T) -> list T -> Prop :=
  | interleaving_done ls :
      Forall (fun l => l = []) ls -> interleaving ls []
  | interleaving_step ls i x xs l :
      ls !! i = Some (x :: xs) ->
      interleaving (<[i := xs]> ls) l ->
      interleaving ls (x :: l).

(** A schedule of the band goroutines of one sliced effect. *)
Definition schedule_of (bounds : Rectangle) (numThreads : Z) (sched : list (Z * Z)) : Prop :=
  match sliceHeight_of bounds numThreads with
  | Some sliceHeight => interleaving (goroutines bounds numThreads sliceHeight) sched
  | None => True
  end.

(** The schedule that runs the bands one after the other. *)
Definition in_order (bounds : Rectangle) (numThreads : Z) : list (Z * Z) :=
  match sliceHeight_of bounds numThreads with
  | Some sliceHeight => concat (goroutines bounds numThreads sliceHeight)
  | None => []
  end.

(** The body shared by [BSPConvolution] and [BSPGrayscale], under a schedule
    of the band goroutines: slice, launch one goroutine per band, and wait at
    a barrier built for [numThreads + 1] participants. *)
Definition BSP (color : Image -> Z -> Z -> RGBA64)
    (img : Image) (numThreads : Z) (sched : list (Z * Z)) : outcome Image :=
  match sliceHeight_of (Bounds img) numThreads with
  | None => Panic DivideByZero
  | Some sliceHeight =>
      let launched := length (goroutines (Bounds img) numThreads sliceHeight) in
      if Barrier.phase_returns (int_add numThreads 1) launched
      then Done (run_pixels color sched img)
      else Hang
  end.

Definition BSPConvolution (img : Image) (kernel : list float) (numThreads : Z) : outcome Image :=
  BSP (convolution_color kernel) img numThreads (in_order (Bounds img) numThreads).

Definition BSPSharpen (img : Image) (numThreads : Z) : outcome Image :=
  BSPConvolution img Sharpen_kernel numThreads.

Definition BSPEdgeDetection (img : Image) (numThreads : Z) : outcome Image :=
  BSPConvolution img EdgeDetection_kernel numThreads.

Definition BSPBlur (img : Image) (numThreads : Z) : outcome Image :=
  BSPConvolution img Blur_kernel numThreads.

Definition BSPGrayscale (img : Image) (numThreads : Z) : outcome Image :=
  BSP Grayscale_color img numThreads (in_order (Bounds img) numThreads).

(** *** Loading and saving *)

(** A decoded PNG file: its bounds and what [At(x, y).RGBA()] returns. *)
Record Decoded : Type := mkDecoded {
  d_Bounds : Rectangle;
  d_RGBA : Z -> Z -> Z * Z * Z * Z
}.

(** [Load], from the decoded file on. *)
Definition Load_color (inOrig : Decoded) (x y : Z) : RGBA64 :=
  let '(r, g, b, a) := d_RGBA inOrig x y in
  mkRGBA64 (uint16 r) (uint16 g) (uint16 b) (uint16 a).

Definition Load (inOrig : Decoded) : Image :=
  let bounds := d_Bounds inOrig in
  let outImg := NewRGBA64 bounds in
  let inImg :=
    foldl (fun inImg p => Set_ inImg p.1 p.2 (Load_color inOrig p.1 p.2))
          (NewRGBA64 bounds)
          (band_pixels bounds (Y (Min bounds)) (Y (Max bounds))) in
  {| In := inImg; Out := outImg; Bounds := bounds; EffectsApplied := false |}.

(** [Save]: the buffer handed to the encoder. *)
Definition Save (img : Image) : RGBA64Image :=
  if EffectsApplied img then Out img else In img.

(** Row bounds that fit [int], with a height that fits as well. *)
Definition rows_fit (bounds : Rectangle) : Prop :=
  in_int (Y (Min bounds)) /\ in_int (Y (Max bounds)) /\
  0 <= Y (Max bounds) - Y (Min bounds) <= int_max.

(** What [Load] establishes and [SwapBuffers] keeps: both buffers have the
    rectangle [Bounds]. *)
Definition same_rect (img : Image) : Prop :=
  Rect (In img) = Bounds img /\ Rect (Out img) = Bounds img.

(** An image for the concrete instances: two columns, three rows. *)
Definition example_file : Decoded :=
  {| d_Bounds := {| Min := {| X := 0; Y := 0 |}; Max := {| X := 2; Y := 3 |} |};
     d_RGBA := fun x y => (25 + 1000 * x, 75 + 2000 * y, 250 + 7 * x * y, 65535 - y) |}.

Definition example_image : Image := Load example_file.

(** A colour function that reads [In] and [Bounds] only. *)
Definition reads_In_only (color : Image -> Z -> Z -> RGBA64) : Prop :=
  forall img o x y,
    color {| In := In img; Out := o; Bounds := Bounds img;
             EffectsApplied := EffectsApplied img |} x y = color img x y.

(** [clamp(float64(s) / 3)] for a channel sum [s]. *)
Definition gray_level (s : Z) : Z :=
  clamp (float64_of_uint32 s / 3)%float.

(** [check_range k lo P]: [P] holds on the [2^k] integers from [lo] on. *)
Fixpoint check_range (k : nat) (lo : Z) (P : Z -> bool) : bool :=
  match k with
  | O => P lo
  | S k' => check_range k' lo P && check_range k' (lo + 2 ^ Z.of_nat k') P
  end.

(** The colour [Grayscale] stores for an input colour [c]. *)
Definition gray_of (c : RGBA64) : RGBA64 :=
  let avg := (R c + G c + B c) ÷ 3 in
  mkRGBA64 avg avg avg (A c).

End Png.

(** ** The work-stealing deque ([deque/deque.go])

    The nodes live in a store indexed by their address and are never freed.
    A call is the sequence of its accesses to the shared memory (the atomic
    loads and compare-and-swaps of the source, the allocation of a node, the
    read of a task), in source order; the retry loops carry fuel. The same
    call runs alone ([exec]) or interleaved with the calls of other
    goroutines, one access at a time ([run_schedule]). *)

Module Deque.

Section deque.

Context {T : Type}.   (* what [*png.ImageTask] points to *)

(** A pointer to a node: [None] is [nil], [Some a] the node at address [a]
    of the store. *)
Definition ptr : Type := option nat.

Record node : Type := mkNode {
  task : option T;      (* nil in the dummy node *)
  next : ptr
}.

Record Deque : Type := mkDeque {
  nodes : list node;    (* the store: nodes are never freed *)
  head : ptr;
  tail : ptr
}.

Definition NewDeque : Deque :=
  {| nodes := [ {| task := None; next := None |} ];
     head := Some 0%nat; tail := Some 0%nat |}.

(** What a call returns: nothing ([Push]), or a task and a flag. *)
Inductive ret : Type :=
  | RetUnit
  | RetTask (t : option T) (ok : bool).

(** A call as the sequence of its accesses to the shared memory, each with
    the rest of the call as a function of what the access read. *)
Inductive prog : Type :=
  | Return (r : ret)
  | OutOfFuel
  | NewNode (t : T) (k : ptr -> prog)                  (* &node{task: t} *)
  | LoadHead (k : ptr -> prog)                         (* atomic.LoadPointer(&d.head) *)
  | LoadTail (k : ptr -> prog)                         (* atomic.LoadPointer(&d.tail) *)
  | LoadNext (p : ptr) (k : ptr -> prog)               (* atomic.LoadPointer(&p.next) *)
  | ReadTask (p : ptr) (k : option T -> prog)          (* p.task *)
  | CASNext (p old new : ptr) (k : bool -> prog)       (* CompareAndSwapPointer(&p.next, old, new) *)
  | CASTail (old new : ptr) (k : bool -> prog)         (* CompareAndSwapPointer(&d.tail, old, new) *)
  | CASHead (old new : ptr) (k : bool -> prog).        (* CompareAndSwapPointer(&d.head, old, new) *)

(** The loop of [Push]. *)
Fixpoint Push_loop (fuel : nat) (newNode : ptr) : prog :=
  match fuel with
  | O => OutOfFuel
  | S fuel' =>
      LoadTail (fun tail_ =>
      LoadNext tail_ (fun next_ =>
      LoadTail (fun tail_again =>
      if decide (tail_ = tail_again) then
        if decide (next_ = None) then
          CASNext tail_ None newNode (fun ok =>
          if ok then CASTail tail_ newNode (fun _ => Return RetUnit)
          else Push_loop fuel' newNode)
        else
          CASTail tail_ next_ (fun _ => Push_loop fuel' newNode)
      else Push_loop fuel' newNode)))
  end.

Definition Push (fuel : nat) (t : T) : prog :=
  NewNode t (fun newNode => Push_loop fuel newNode).

(** The loop of [findPrevious], then the rest [k] of the caller. *)
Fixpoint findPrevious_loop (fuel : nat) (current target : ptr) (k : ptr -> prog) : prog :=
  match fuel with
  | O => OutOfFuel
  | S fuel' =>
      LoadNext current (fun next_ =>
      if decide (next_ = target) then k current
      else if decide (next_ = None) then k None
      else findPrevious_loop fuel' next_ target k)
  end.

Definition findPrevious (fuel : nat) (target : ptr) (k : ptr -> prog) : prog :=
  LoadHead (fun current => findPrevious_loop fuel current target k).

Fixpoint Pop (fuel : nat) : prog :=
  match fuel with
  | O => OutOfFuel
  | S fuel' =>
      LoadTail (fun tail_ =>
      LoadHead (fun head_ =>
      if decide (tail_ = head_) then Return (RetTask None false)
      else
        findPrevious fuel tail_ (fun prev =>
        if decide (prev = None) then Pop fuel'
        else
          CASTail tail_ prev (fun ok =>
          if ok then ReadTask tail_ (fun t => Return (RetTask t true))
          else Pop fuel'))))
  end.

Fixpoint Steal (fuel : nat) : prog :=
  match fuel with
  | O => OutOfFuel
  | S fuel' =>
      LoadHead (fun head_ =>
      LoadTail (fun tail_ =>
      LoadNext head_ (fun next_ =>
      LoadHead (fun head_again =>
      if decide (head_ ≠ head_again) then Steal fuel'
      else if decide (head_ = tail_) then Return (RetTask None false)
      else
        CASHead head_ next_ (fun ok =>
        if ok then ReadTask next_ (fun t => Return (RetTask t true))
        else Steal fuel')))))
  end.

Definition IsEmpty : prog :=
  LoadHead (fun head_ => LoadTail (fun tail_ =>
    Return (RetTask None (bool_decide (head_ = tail_))))).

(** One access to the shared memory: the state after it and the rest of the
    call, or [None] when the access dereferences [nil]. *)
Definition access (p : prog) (d : Deque) : option (Deque * prog) :=
  match p with
  | Return _ | OutOfFuel => Some (d, p)
  | NewNode t k =>
      Some ({| nodes := nodes d ++ [ {| task := Some t; next := None |} ];
               head := head d; tail := tail d |},
            k (Some (length (nodes d))))
  | LoadHead k => Some (d, k (head d))
  | LoadTail k => Some (d, k (tail d))
  | LoadNext p k =>
      a ← p; n ← nodes d !! a; Some (d, k (next n))
  | ReadTask p k =>
      a ← p; n ← nodes d !! a; Some (d, k (task n))
  | CASNext p old new k =>
      a ← p; n ← nodes d !! a;
      if decide (next n = old)
      then Some ({| nodes := <[a := {| task := task n; next := new |}]> (nodes d);
                    head := head d; tail := tail d |}, k true)
      else Some (d, k false)
  | CASTail old new k =>
      if decide (tail d = old)
      then Some ({| nodes := nodes d; head := head d; tail := new |}, k true)
      else Some (d, k false)
  | CASHead old new k =>
      if decide (head d = old)
      then Some ({| nodes := nodes d; head := new; tail := tail d |}, k true)
      else Some (d, k false)
  end.

(** How a call ends. *)
Inductive result : Type :=
  | Finished (d : Deque) (r : ret)
  | NilPanic                 (* nil pointer dereference *)
  | Unfinished.              (* the fuel of a retry loop ran out *)

(** A call run with no other goroutine taking a step meanwhile. *)
Fixpoint exec (p : prog) (d : Deque) : result :=
  match p with
  | Return r => Finished d r
  | OutOfFuel => Unfinished
  | NewNode t k =>
      exec (k (Some (length (nodes d))))
        {| nodes := nodes d ++ [ {| task := Some t; next := None |} ];
           head := head d; tail := tail d |}
  | LoadHead k => exec (k (head d)) d
  | LoadTail k => exec (k (tail d)) d
  | LoadNext p k =>
      match p ≫= fun a => nodes d !! a with
      | Some n => exec (k (next n)) d
      | None => NilPanic
      end
  | ReadTask p k =>
      match p ≫= fun a => nodes d !! a with
      | Some n => exec (k (task n)) d
      | None => NilPanic
      end
  | CASNext p old new k =>
      match p, p ≫= fun a => nodes d !! a with
      | Some a, Some n =>
          if decide (next n = old)
          then exec (k true)
                 {| nodes := <[a := {| task := task n; next := new |}]> (nodes d);
                    head := head d; tail := tail d |}
          else exec (k false) d
      | _, _ => NilPanic
      end
  | CASTail old new k =>
      if decide (tail d = old)
      then exec (k true) {| nodes := nodes d; head := head d; tail := new |}
      else exec (k false) d
  | CASHead old new k =>
      if decide (head d = old)
      then exec (k true) {| nodes := nodes d; head := new; tail := tail d |}
      else exec (k false) d
  end.

(** Fuel for the retry loops of one call: more than there are nodes. *)
Definition fuel_of (d : Deque) : nat := S (S (length (nodes d))).

Inductive call : Type :=
  | CallPush (t : T)
  | CallPop
  | CallSteal.

Definition call_prog (fuel : nat) (c : call) : prog :=
  match c with
  | CallPush t => Push fuel t
  | CallPop => Pop fuel
  | CallSteal => Steal fuel
  end.

(** The task a call delivered, if it delivered one. *)
Definition delivered (r : ret) : list T :=
  match r with
  | RetTask (Some t) true => [t]
  | _ => []
  end.

(** Calls made one after the other: the deque they leave and the tasks the
    successful [Pop] and [Steal] calls returned, in order. *)
Fixpoint run_calls (d : Deque) (cs : list call) : option (Deque * list T) :=
  match cs with
  | [] => Some (d, [])
  | c :: cs' =>
      match exec (call_prog (fuel_of d) c) d with
      | Finished d' r =>
          '(d'', ts) ← run_calls d' cs'; Some (d'', delivered r ++ ts)
      | _ => None
      end
  end.

Definition pushed (cs : list call) : list T :=
  omap (fun c => match c with CallPush t => Some t | _ => None end) cs.

(** Goroutines, each in the middle of one call on the same deque. *)
Record config : Type := mkConfig {
  mem : Deque;
  calls : list prog
}.

(** Goroutine [i] makes its next access. [None]: its call is over, or the
    access dereferences [nil]. *)
Definition sched_step (c : config) (i : nat) : option config :=
  p ← calls c !! i;
  match p with
  | Return _ | OutOfFuel => None
  | _ =>
      '(d', p') ← access p (mem c);
      Some {| mem := d'; calls := <[i := p']> (calls c) |}
  end.

Fixpoint run_schedule (c : config) (sched : list nat) : option config :=
  match sched with
  | [] => Some c
  | i :: sched' => c' ← sched_step c i; run_schedule c' sched'
  end.

(** What the calls that are over returned, by goroutine. *)
Definition returns (c : config) : list (option ret) :=
  (fun p => match p with Return r => Some r | _ => None end) <$> calls c.

End deque.

Arguments node T : clear implicits.

Arguments Deque T : clear implicits.

Arguments call T : clear implicits.

Arguments prog T : clear implicits.

Arguments ret T : clear implicits.

Arguments config T : clear implicits.

Arguments result T : clear implicits.

Section linear.
Context {T : Type}.

(** The store after the pushes of [ts] on a new deque: the dummy node at
    address 0, the node of push [j] at address [j + 1], each linked to the
    next. *)
Definition linear_node (ts : list T) (i : nat) : node T :=
  {| task := match i with O => None | S j => ts !! j end;
     next := if decide (i < length ts)%nat then Some (S i) else None |}.

Definition linear_nodes (ts : list T) : list (node T) :=
  linear_node ts <$> seq 0 (S (length ts)).

Definition linear (ts : list T) (h t : nat) : Deque T :=
  {| nodes := linear_nodes ts; head := Some h; tail := Some t |}.

Definition is_take (c : call T) : Prop :=
  match c with CallPush _ => False | _ => True end.

(** Which pushes a sequence of [Pop] and [Steal] calls delivers when the
    pushes [h], ..., [t - 1] are in the deque: [Pop] the last, [Steal] the
    first. *)
Fixpoint take_indices (h t : nat) (cs : list (call T)) : list nat :=
  match cs with
  | [] => []
  | CallPop :: cs' =>
      if decide (h = t) then take_indices h t cs'
      else (t - 1)%nat :: take_indices h (t - 1) cs'
  | CallSteal :: cs' =>
      if decide (h = t) then take_indices h t cs'
      else h :: take_indices (S h) t cs'
  | CallPush _ :: cs' => take_indices h t cs'
  end.

End linear.

End Deque.

(** ** The scheduler ([scheduler/bsp.go]) *)

Module Scheduler.

Import Go.

Record ImageTask : Type := mkImageTask {
  InPath : string;
  OutPath : string;
  Effects : list string;
  DataDir : string
}.

(** The [switch effect] of [applyEffectsSliced]. *)
Definition apply_effect (img : Png.Image) (effect : string) (threads : Z)
    : outcome Png.Image :=
  if decide (effect = "S"%string) then Png.BSPSharpen img threads
  else if decide (effect = "E"%string) then Png.BSPEdgeDetection img threads
  else if decide (effect = "B"%string) then Png.BSPBlur img threads
  else if decide (effect = "G"%string) then Png.BSPGrayscale img threads
  else Panic UnknownEffect.

(** [applyEffectsSliced]: the loop over [effects]; [i < len(effects)-1]
    holds exactly when effects remain after the current one. *)
Fixpoint applyEffectsSliced (img : Png.Image) (effects : list string) (threads : Z)
    : outcome Png.Image :=
  match effects with
  | [] => Done img
  | effect :: rest =>
      bind (apply_effect img effect threads) (fun img =>
        let img := match rest with
                   | [] => img
                   | _ :: _ => Png.SwapBuffers img
                   end in
        applyEffectsSliced img rest threads)
  end.

Definition set_EffectsApplied (img : Png.Image) (b : bool) : Png.Image :=
  {| Png.In := Png.In img; Png.Out := Png.Out img;
     Png.Bounds := Png.Bounds img; Png.EffectsApplied := b |}.

(** [processImageBSP], from the decoded input file to the buffer handed to
    the encoder. Opening, decoding and writing files are outside the model. *)
Definition processImageBSP (inOrig : Png.Decoded) (task : ImageTask) (numThreads : Z)
    : outcome Png.RGBA64Image :=
  let img := Png.Load inOrig in
  bind (if (0 <? length (Effects task))%nat
        then applyEffectsSliced (set_EffectsApplied img true) (Effects task) numThreads
        else Done img)
       (fun img => Done (Png.Save img)).

(** [RunBSP]: the tasks decoded from the effects file, processed one after
    the other by the calling goroutine; [inOrig task] is the decoded input
    file of [task]. The result lists the buffers handed to the encoder, in
    the order of the tasks. *)
Fixpoint RunBSP (inOrig : ImageTask -> Png.Decoded) (tasks : list ImageTask)
    (numThreads : Z) : outcome (list Png.RGBA64Image) :=
  match tasks with
  | [] => Done []
  | task :: rest =>
      bind (processImageBSP (inOrig task) task numThreads) (fun out =>
        bind (RunBSP inOrig rest numThreads) (fun outs => Done (out :: outs)))
  end.

(** The closed set of effect identifiers. *)
Definition known_effect (effect : string) : Prop :=
  effect ∈ ["S"; "E"; "B"; "G"]%string.

(** A task whose first effect is one of the set. *)
Definition starts_with_known_effect (task : ImageTask) : Prop :=
  exists effect effects, Effects task = effect :: effects /\ known_effect effect.

Record Worker : Type := mkWorker {
  id : Z;
  deque : Deque.Deque ImageTask
}.

Definition NewWorker (id : Z) : Worker :=
  {| id := id; deque := Deque.NewDeque |}.

(** [workers[workerIndex].deque.Push(&task)] and the advance of
    [workerIndex], for each task in turn. *)
Fixpoint seed (numWorkers : Z) (workers : list Worker) (workerIndex : Z)
    (tasks : list ImageTask) : outcome (list Worker) :=
  match tasks with
  | [] => Done workers
  | task :: tasks' =>
      if (workerIndex <? 0) || (Z.of_nat (length workers) <=? workerIndex)
      then Panic IndexOutOfRange
      else
        match workers !! Z.to_nat workerIndex with
        | None => Panic IndexOutOfRange
        | Some w =>
            match Deque.exec (Deque.Push (Deque.fuel_of (deque w)) task) (deque w) with
            | Deque.Finished d _ =>
                let workers' :=
                  <[Z.to_nat workerIndex := {| id := id w; deque := d |}]> workers in
                if numWorkers =? 0 then Panic DivideByZero
                else seed numWorkers workers'
                       (wrap (Z.rem (int_add workerIndex 1) numWorkers)) tasks'
            | Deque.NilPanic => Panic NilDereference
            | Deque.Unfinished => Hang
            end
        end
  end.

(** [RunBSPSteal] up to the launch of the worker goroutines: [tasks] are the
    tasks decoded from the effects file for the data directories, in order.
    [make([]*Worker, numWorkers)] panics on a negative length. With no worker
    the function returns before it launches anything. *)
Definition RunBSPSteal_seed (numWorkers : Z) (tasks : list ImageTask)
    : outcome (list Worker) :=
  if numWorkers <? 0 then Panic MakeSliceLen
  else
    let workers := NewWorker <$> Png.range 0 numWorkers in
    seed numWorkers workers 0 tasks.

(** Two tasks on the example file: one that blurs, one without effects. *)
Definition example_task : ImageTask :=
  {| InPath := "in.png"; OutPath := "out.png";
     Effects := ["B"%string]; DataDir := "small" |}.

Definition example_copy_task : ImageTask :=
  {| InPath := "in.png"; OutPath := "copy.png";
     Effects := []; DataDir := "small" |}.

Definition example_inOrig (task : ImageTask) : Png.Decoded := Png.example_file.

(** A worker whose deque holds pushes only. *)
Definition seeded (w : Worker) : Prop :=
  exists ts, deque w = Deque.linear ts 0 (length ts).

End Scheduler.

(** ** The first phase of a barrier *)

Module BarrierPhase.
Import Go Barrier.

(** The first phase in progress: [a] goroutines called [Wait], all of them
    are parked, none has returned. *)
Record waiting (N a : Z) (s : System) : Prop := mkWaiting {
  waiting_threshold : threshold (bar s) = N;
  waiting_count : count (bar s) = a;
  waiting_generation : generation (bar s) = 0;
  waiting_parked : forall t st, thr s !! t = Some st -> st = Parked 0;
  waiting_size : Z.of_nat (size (thr s)) = a
}.

End BarrierPhase.

(** ** The neighbourhood of a pixel *)

Module Neighbourhood.
Import Go Png.

(** The points [convolve] looks at for the pixel [(x, y)], in the order of
    its loops. *)
Definition neighbourhood (x y : Z) : list (Z * Z) :=
  dy ← range (-1) 2; dx ← range (-1) 2; [(int_add x dx, int_add y dy)].

(** Every point of the neighbourhood is inside the bounds and shows the
    colour [c]. *)
Definition flat_at (img : Image) (x y : Z) (c : RGBA64) : Prop :=
  Forall (fun p => Point_In p.1 p.2 (Bounds img) = true /\ At (In img) p.1 p.2 = c)
         (neighbourhood x y).

(** What [convolve] computes for one channel when the nine points show the
    same value [v]: the nine products added in the order of the kernel. *)
Definition flat_level (kernel : list float) (v : Z) : Z :=
  clamp (foldl (fun sum index => (sum + float64_of_uint32 v * kernel_at kernel index)%float)
               0%float (range 0 9)).

(** An image of three columns and three rows that shows one colour, and one
    that differs from the example image at the point (1, 2) only. *)
Definition flat_file : Decoded :=
  {| d_Bounds := {| Min := {| X := 0; Y := 0 |}; Max := {| X := 3; Y := 3 |} |};
     d_RGBA := fun _ _ => (5, 1000, 65535, 40000) |}.

Definition example_file' : Decoded :=
  {| d_Bounds := d_Bounds example_file;
     d_RGBA := fun x y => if (x =? 1) && (y =? 2) then (1, 2, 3, 4)
                          else d_RGBA example_file x y |}.

End Neighbourhood.

(** ** The deque in the hands of one goroutine *)

Module DequeModel.

Import Deque.

(** What the calls of one goroutine do to a deque, told by positions in the
    list of the tasks pushed so far: [count] pushes were made, the pushes
    [first], ..., [last - 1] are between head and tail. *)
Record cursor : Type := mkCursor {
  count : nat;
  first : nat;
  last : nat
}.

Definition start : cursor := {| count := 0; first := 0; last := 0 |}.

(** Head before tail, tail within the pushes. *)
Definition well_formed (s : cursor) : Prop :=
  (first s <= last s)%nat /\ (last s <= count s)%nat.

Section model.
Context {T : Type}.

(** One call: the positions after it and the position of the push it
    delivers, if any. [Push] puts the tail on the new last node, whatever was
    popped before; [Pop] delivers the push before the tail and [Steal] the
    push after the head, unless head and tail coincide. *)
Definition index_step (s : cursor) (c : call T) : cursor * list nat :=
  match c with
  | CallPush _ =>
      ({| count := S (count s); first := first s; last := S (count s) |}, [])
  | CallPop =>
      if decide (first s = last s) then (s, [])
      else ({| count := count s; first := first s; last := (last s - 1)%nat |},
            [(last s - 1)%nat])
  | CallSteal =>
      if decide (first s = last s) then (s, [])
      else ({| count := count s; first := S (first s); last := last s |},
            [first s])
  end.

Fixpoint index_run (s : cursor) (cs : list (call T)) : cursor * list nat :=
  match cs with
  | [] => (s, [])
  | c :: cs' =>
      let '(s', ixs) := index_step s c in
      let '(s'', ixs') := index_run s' cs' in
      (s'', ixs ++ ixs')
  end.

(** No [Push] after a [Pop]. *)
Fixpoint no_push_after_pop (popped : bool) (cs : list (call T)) : bool :=
  match cs with
  | [] => true
  | CallPush _ :: cs' => negb popped && no_push_after_pop popped cs'
  | CallPop :: cs' => no_push_after_pop true cs'
  | CallSteal :: cs' => no_push_after_pop popped cs'
  end.

End model.

End DequeModel.

(** ** Thieves on one deque *)

Module Thieves.

Import Deque.

Section thieves.
Context {T : Type}.

(** The body of [Steal] after each of its loads. *)
Definition Steal_cas (fuel : nat) (head_ next_ : ptr) : prog T :=
  CASHead head_ next_ (fun ok =>
    if ok then ReadTask next_ (fun t => Return (RetTask t true))
    else Steal fuel).

Definition Steal_recheck (fuel : nat) (head_ tail_ next_ : ptr) : prog T :=
  LoadHead (fun head_again =>
    if decide (head_ ≠ head_again) then Steal fuel
    else if decide (head_ = tail_) then Return (RetTask None false)
    else Steal_cas fuel head_ next_).

Definition Steal_next (fuel : nat) (head_ tail_ : ptr) : prog T :=
  LoadNext head_ (fun next_ => Steal_recheck fuel head_ tail_ next_).

Definition Steal_tail (fuel : nat) (head_ : ptr) : prog T :=
  LoadTail (fun tail_ => Steal_next fuel head_ tail_).

(** Where a thief is in its call. [AtRead i] and [Took i]: its
    compare-and-swap moved the head from node [i] to node [i + 1], the node
    of push [i]. *)
Inductive thief : Type :=
  | AtLoop (fuel : nat)
  | GotHead (fuel : nat) (head_ : nat)
  | GotTail (fuel : nat) (head_ tail_ : nat)
  | GotNext (fuel : nat) (head_ tail_ : nat) (next_ : ptr)
  | AtCAS (fuel : nat) (head_ : nat) (next_ : ptr)
  | AtRead (i : nat)
  | Took (i : nat)
  | FoundEmpty.

Definition prog_of (ts : list T) (st : thief) : prog T :=
  match st with
  | AtLoop fuel => Steal fuel
  | GotHead fuel h1 => Steal_tail fuel (Some h1)
  | GotTail fuel h1 t1 => Steal_next fuel (Some h1) (Some t1)
  | GotNext fuel h1 t1 n1 => Steal_recheck fuel (Some h1) (Some t1) n1
  | AtCAS fuel h1 n1 => Steal_cas fuel (Some h1) n1
  | AtRead i => ReadTask (Some (S i)) (fun t => Return (RetTask t true))
  | Took i => Return (RetTask (ts !! i) true)
  | FoundEmpty => Return (RetTask None false)
  end.

(** What a thief knows is still true of a deque with head [h] and tail [t]. *)
Definition thief_ok (h t : nat) (st : thief) : Prop :=
  match st with
  | AtLoop _ | FoundEmpty => True
  | GotHead _ h1 => (h1 <= h)%nat
  | GotTail _ h1 t1 => (h1 <= h)%nat /\ t1 = t
  | GotNext _ h1 t1 n1 => (h1 <= h)%nat /\ t1 = t /\ ((h1 < t)%nat -> n1 = Some (S h1))
  | AtCAS _ h1 n1 => (h1 <= h)%nat /\ (h1 < t)%nat /\ n1 = Some (S h1)
  | AtRead i | Took i => (i < h)%nat
  end.

(** The push a thief has taken out of the deque. *)
Definition claim (st : thief) : option nat :=
  match st with AtRead i | Took i => Some i | _ => None end.

(** The push a thief has returned. *)
Definition took (st : thief) : option nat :=
  match st with Took i => Some i | _ => None end.

(** Thieves on a deque that holds the pushes [ts], whose head was at [h0]
    when they started and whose tail stays at [t]. *)
Record steal_inv (ts : list T) (h0 t : nat) (c : config T) (sts : list thief) (h : nat)
    : Prop := mkStealInv {
  inv_mem : mem c = linear ts h t;
  inv_head : (h0 <= h <= t)%nat;
  inv_tail : (t <= length ts)%nat;
  inv_calls : calls c = prog_of ts <$> sts;
  inv_thieves : Forall (thief_ok h t) sts;
  inv_claims : omap claim sts ≡ₚ seq h0 (h - h0)
}.

(** The tasks the calls that are over returned, by goroutine. *)
Definition taken (c : config T) : list T :=
  o ← returns c; r ← option_list o; delivered r.

Definition over (p : prog T) : Prop :=
  match p with Return _ => True | _ => False end.

End thieves.

(** Two thieves on a deque that holds three pushes. Thief 0 loads the head,
    the tail and the head's successor; thief 1 then runs its whole call;
    thief 0 finds the head moved, starts over and completes. *)
Definition example_thieves : config nat :=
  {| mem := linear [7; 8; 9]%nat 0 3; calls := Steal <$> [2; 2]%nat |}.

Definition example_schedule : list nat :=
  [0; 0; 0; 1; 1; 1; 1; 1; 1; 0; 0; 0; 0; 0; 0; 0]%nat.

Definition example_thieves_end : config nat :=
  default example_thieves (run_schedule example_thieves example_schedule).

End Thieves.

(** ** The effects without slices (the sequential scheduler) *)

Module Sequential.

Import Go Scheduler.

(** The sequential scheduler of proj1 ([applyEffects], [processImageTask]).
    It calls [Sharpen], [EdgeDetection], [Blur] and [Grayscale], which
    [proj3/png/effects.go] repeats from proj1 with the names of the two
    buffers capitalised and nothing else changed. *)

(** The [switch effect] of [applyEffects]: the effects without slices;
    [inr] is the message of [panic("Unknown effect: " + effect)]. *)
Definition apply_effect (img : Png.Image) (effect : string) : Png.Image + string :=
  if decide (effect = "S"%string) then inl (Png.Sharpen img)
  else if decide (effect = "E"%string) then inl (Png.EdgeDetection img)
  else if decide (effect = "B"%string) then inl (Png.Blur img)
  else if decide (effect = "G"%string) then inl (Png.Grayscale img)
  else inr ("Unknown effect: " +:+ effect).

(** [applyEffects]: the buffers are swapped between two effects, not after
    the last. *)
Fixpoint applyEffects (img : Png.Image) (effects : list string) : Png.Image + string :=
  match effects with
  | [] => inl img
  | effect :: rest =>
      match apply_effect img effect with
      | inl img =>
          let img := match rest with
                     | [] => img
                     | _ :: _ => Png.SwapBuffers img
                     end in
          applyEffects img rest
      | inr msg => inr msg
      end
  end.

(** [processImageTask], from the decoded input file to the buffer handed to
    the encoder. *)
Definition processImageTask (inOrig : Png.Decoded) (task : ImageTask)
    : Png.RGBA64Image + string :=
  let img := Png.Load inOrig in
  match (if (0 <? length (Effects task))%nat
         then applyEffects (set_EffectsApplied img true) (Effects task)
         else inl img) with
  | inl img => inl (Png.Save img)
  | inr msg => inr msg
  end.

(** [RunSequential]: each task decoded from the effects file is processed
    before the next is decoded; [tasks] are the tasks the decoder yields, in
    order, and [inOrig task] is the decoded input file of [task]. The result
    lists the buffers handed to the encoder. *)
Fixpoint RunSequential (inOrig : ImageTask -> Png.Decoded) (tasks : list ImageTask)
    : list Png.RGBA64Image + string :=
  match tasks with
  | [] => inl []
  | task :: rest =>
      match processImageTask (inOrig task) task with
      | inl out =>
          match RunSequential inOrig rest with
          | inl outs => inl (out :: outs)
          | inr msg => inr msg
          end
      | inr msg => inr msg
      end
  end.

(** How a call of the sliced code ends when the code without slices ends
    with [r]. *)
Definition sliced {T : Type} (r : T + string) : outcome T :=
  match r with
  | inl v => Done v
  | inr _ => Panic UnknownEffect
  end.

End Sequential.

(** ** The workers of [RunBSPSteal] ([scheduler/bsp.go]) *)

Module Workers.
Import Go Scheduler.

(** The tasks [seed] gives worker [i] when the next task goes to worker
    [workerIndex]. *)
Fixpoint deal (numWorkers workerIndex : Z) (tasks : list ImageTask) (i : Z)
    : list ImageTask :=
  match tasks with
  | [] => []
  | task :: tasks' =>
      (if decide (workerIndex = i) then [task] else [])
        ++ deal numWorkers ((workerIndex + 1) mod numWorkers) tasks' i
  end.

(** A worker whose deque holds the pushes [ts] with head and tail at the
    positions [h] and [t]. *)
Record lane : Type := mkLane {
  pushes : list ImageTask;
  first : nat;
  last : nat
}.

Definition worker_of (i : nat) (l : lane) : Worker :=
  {| id := Z.of_nat i; deque := Deque.linear (pushes l) (first l) (last l) |}.

Definition pool (lanes : list lane) : list Worker := imap worker_of lanes.

Definition lane_ok (l : lane) : Prop :=
  (first l <= last l)%nat /\ (last l <= length (pushes l))%nat.

(** The pushes between head and tail, first pushed first. *)
Definition pending (l : lane) : list ImageTask :=
  take (last l - first l) (drop (first l) (pushes l)).

(** What a call on the deque returned, as the pair [(task, ok)] of the
    source. *)
Definition task_ok (r : Deque.ret ImageTask) : option ImageTask * bool :=
  match r with
  | Deque.RetTask t ok => (t, ok)
  | Deque.RetUnit => (None, false)
  end.

(** [stealWork], run with no other goroutine taking a step meanwhile: the
    loop over the victims [idx], ..., [idx + n - 1] of the slice. *)
Fixpoint stealWork_range (thief : Worker) (workers : list Worker) (idx n : nat)
    : outcome (list Worker * option ImageTask) :=
  match n with
  | O => Done (workers, None)
  | S n' =>
      match workers !! idx with
      | None => Done (workers, None)
      | Some victim =>
          if decide (id victim <> id thief) then
            match Deque.exec (Deque.Steal (Deque.fuel_of (deque victim))) (deque victim) with
            | Deque.Finished d r =>
                let workers' := <[idx := {| id := id victim; deque := d |}]> workers in
                if (task_ok r).2 then Done (workers', (task_ok r).1)
                else stealWork_range thief workers' (S idx) n'
            | Deque.NilPanic => Panic NilDereference
            | Deque.Unfinished => Hang
            end
          else stealWork_range thief workers (S idx) n'
      end
  end.

Definition stealWork (thief : Worker) (victims : list Worker)
    : outcome (list Worker * option ImageTask) :=
  stealWork_range thief victims 0 (length victims).

(** The goroutine of worker [w] in [RunBSPSteal], run with no other worker
    taking a step meanwhile: it pops from its own deque, steals when that is
    empty, and stops when there is nothing to steal. [outs] collects the
    buffers saved. *)
Fixpoint worker_loop (fuel : nat) (inOrig : ImageTask -> Png.Decoded) (numWorkers : Z)
    (w : nat) (workers : list Worker) (outs : list Png.RGBA64Image)
    : outcome (list Worker * list Png.RGBA64Image) :=
  match fuel with
  | O => Hang
  | S fuel' =>
      match workers !! w with
      | None => Panic NilDereference
      | Some me =>
          match Deque.exec (Deque.Pop (Deque.fuel_of (deque me))) (deque me) with
          | Deque.Finished d r =>
              let workers := <[w := {| id := id me; deque := d |}]> workers in
              let process workers task :=
                match task with
                | None => Panic NilDereference       (* *task *)
                | Some task =>
                    bind (processImageBSP (inOrig task) task numWorkers) (fun out =>
                      worker_loop fuel' inOrig numWorkers w workers (outs ++ [out]))
                end in
              if (task_ok r).2 then process workers (task_ok r).1
              else
                bind (stealWork me workers) (fun '(workers, task) =>
                  match task with
                  | None => Done (workers, outs)     (* break *)
                  | Some _ => process workers task
                  end)
          | Deque.NilPanic => Panic NilDereference
          | Deque.Unfinished => Hang
          end
      end
  end.

(** [RunBSPSteal] under the schedule that lets each worker goroutine run to
    its end before the next one starts. With one worker there is no other
    schedule. *)
Definition RunBSPSteal_in_turn (inOrig : ImageTask -> Png.Decoded) (numWorkers : Z)
    (tasks : list ImageTask) : outcome (list Png.RGBA64Image) :=
  bind (RunBSPSteal_seed numWorkers tasks) (fun workers =>
    if (length workers =? 0)%nat then Done []
    else
      bind (foldl (fun acc w =>
                     bind acc (fun '(workers, outs) =>
                       worker_loop (S (length tasks)) inOrig numWorkers w workers outs))
                  (Done (workers, [])) (seq 0 (length workers)))
           (fun '(_, outs) => Done outs)).

(** The first worker from [idx] on, other than [me], whose deque is not
    empty. *)
Fixpoint victim_from (me idx : nat) (rest : list lane) : option nat :=
  match rest with
  | [] => None
  | l :: rest' =>
      if decide (idx <> me /\ first l <> last l) then Some idx
      else victim_from me (S idx) rest'
  end.

(** The pushes in the deques of the workers other than [me], worker by
    worker. *)
Fixpoint others_from (me idx : nat) (rest : list lane) : list ImageTask :=
  match rest with
  | [] => []
  | l :: rest' =>
      (if decide (idx = me) then [] else pending l) ++ others_from me (S idx) rest'
  end.

(** The order in which worker [w] takes the tasks when it runs alone: its
    own, last pushed first, then those of the others. *)
Definition todo (w : nat) (lanes : list lane) : list ImageTask :=
  rev (from_option pending [] (lanes !! w)) ++ others_from w 0 lanes.

(** The deques once worker [w] has taken everything: its own tail is back
    on its head, the heads of the others are on their tails. *)
Definition drained (w : nat) (lanes : list lane) : list lane :=
  imap (fun j l => if decide (j = w) then mkLane (pushes l) (first l) (first l)
                   else mkLane (pushes l) (last l) (last l)) lanes.

(** The order in which the tasks are processed when the workers run in
    turn: worker 0 takes its own tasks, last dealt first, and then the tasks
    of worker 1, of worker 2, ..., each first dealt first. *)
Definition in_turn_order (numWorkers : Z) (tasks : list ImageTask) : list ImageTask :=
  rev (deal numWorkers 0 tasks 0)
    ++ concat (deal numWorkers 0 tasks <$> Png.range 1 numWorkers).

(** Three tasks for the concrete instances. *)
Definition example_tasks : list ImageTask :=
  [ example_task; example_copy_task;
    {| InPath := "in.png"; OutPath := "gray.png";
       Effects := ["G"%string]; DataDir := "small" |} ].

End Workers.

(** ** The queue of [RunParallelFiles] ([proj1/scheduler/parfiles.go]) *)

Module ParFiles.

Section parfiles.
Context {T : Type}.   (* [ImageTask] *)

(** Where a goroutine of [RunParallelFiles] is. *)
Inductive pc : Type :=
  | Spinning                 (* in [tasLock.Lock()], before a compare-and-swap *)
  | Checking                 (* holds the lock, before [len(tasks) == 0] *)
  | Leaving                  (* the queue was empty; before [Unlock] and [return] *)
  | Taking                   (* before [task := tasks[0]; tasks = tasks[1:]] *)
  | Unlocking (task : T)     (* before [tasLock.Unlock()] *)
  | Processing (task : T)    (* before [processImageTask(task)] *)
  | Returned.

Record state : Type := mkState {
  lock : Z;                  (* [TASLock.state]: 0 unlocked, 1 locked *)
  tasks : list T;            (* the queue *)
  goroutines : list pc;
  processed : list T         (* the tasks [processImageTask] was called on *)
}.

Definition set_pc (s : state) (i : nat) (p : pc) : list pc := <[i := p]> (goroutines s).

(** One step of goroutine [i]: a compare-and-swap of [Lock], the store of
    [Unlock], or a statement of the loop body. [None]: the goroutine has
    returned, or [tasks[0]] is out of range. *)
Definition step (s : state) (i : nat) : option state :=
  p ← goroutines s !! i;
  match p with
  | Spinning =>
      if lock s =? 0
      then Some {| lock := 1; tasks := tasks s;
                   goroutines := set_pc s i Checking; processed := processed s |}
      else Some s
  | Checking =>
      Some {| lock := lock s; tasks := tasks s;
              goroutines := set_pc s i (if (length (tasks s) =? 0)%nat then Leaving else Taking);
              processed := processed s |}
  | Leaving =>
      Some {| lock := 0; tasks := tasks s;
              goroutines := set_pc s i Returned; processed := processed s |}
  | Taking =>
      match tasks s with
      | [] => None
      | task :: rest =>
          Some {| lock := lock s; tasks := rest;
                  goroutines := set_pc s i (Unlocking task); processed := processed s |}
      end
  | Unlocking task =>
      Some {| lock := 0; tasks := tasks s;
              goroutines := set_pc s i (Processing task); processed := processed s |}
  | Processing task =>
      Some {| lock := lock s; tasks := tasks s;
              goroutines := set_pc s i Spinning; processed := processed s ++ [task] |}
  | Returned => None
  end.

Fixpoint run (s : state) (sched : list nat) : option state :=
  match sched with
  | [] => Some s
  | i :: sched' => s' ← step s i; run s' sched'
  end.

(** [RunParallelFiles] up to [wg.Wait()]: with no task it returns at once;
    the goroutines are the thread count or the tasks, whichever is fewer;
    [wg.Add] panics on a negative count ([None]). *)
Definition launch (threadCount : Z) (queue : list T) : option state :=
  let numThreads :=
    if Z.of_nat (length queue) <? threadCount then Z.of_nat (length queue)
    else threadCount in
  if (length queue =? 0)%nat
  then Some {| lock := 0; tasks := queue; goroutines := []; processed := [] |}
  else if numThreads <? 0 then None
  else Some {| lock := 0; tasks := queue;
               goroutines := replicate (Z.to_nat numThreads) Spinning;
               processed := [] |}.

(** A goroutine between a successful compare-and-swap and its [Unlock]. *)
Definition holds (p : pc) : option unit :=
  match p with
  | Checking | Leaving | Taking | Unlocking _ => Some ()
  | _ => None
  end.

(** The task a goroutine has taken and not yet processed. *)
Definition held (p : pc) : option T :=
  match p with
  | Unlocking task | Processing task => Some task
  | _ => None
  end.

(** What holds of every state the goroutines can reach from a queue
    [queue]: the lock is taken exactly when one goroutine holds it, and no
    two do; a goroutine about to take a task finds one; once a goroutine has
    seen the queue empty it stays empty; and every task of [queue] is in the
    queue, in the hands of one goroutine, or processed. *)
Record inv (queue : list T) (s : state) : Prop := mkInv {
  inv_lock :
    (lock s = 0 /\ forall j p, goroutines s !! j = Some p -> holds p = None) \/
    (lock s = 1 /\ exists j p, goroutines s !! j = Some p /\ holds p = Some ());
  inv_one : forall j k p q,
    goroutines s !! j = Some p -> goroutines s !! k = Some q ->
    holds p = Some () -> holds q = Some () -> j = k;
  inv_taking : forall j, goroutines s !! j = Some Taking -> tasks s <> [];
  inv_empty : forall j p, goroutines s !! j = Some p ->
    p = Leaving \/ p = Returned -> tasks s = [];
  inv_tasks : processed s ++ omap held (goroutines s) ++ tasks s ≡ₚ queue
}.

(** A goroutine that holds the lock. *)
Definition holder (s : state) (i : nat) : Prop :=
  exists p, goroutines s !! i = Some p /\ holds p = Some ().

End parfiles.

Arguments pc T : clear implicits.

Arguments state T : clear implicits.

(** Three goroutines and four tasks, under a schedule in which goroutine 1
    spins while goroutine 0 holds the lock. *)
Definition example_turns : list nat :=
  [0; 1; 0; 1; 0; 0; 1; 1; 1; 1; 0; 2; 2; 2; 2; 2; 0; 0; 0; 0; 0;
   1; 1; 1; 1; 2; 2; 2; 0; 0; 0]%nat.

Definition example_end : state nat :=
  default {| lock := 0; tasks := []; goroutines := []; processed := [] |}
    (s ← launch 3 [10; 20; 30; 40]%nat; run s example_turns).

End ParFiles.

(** ** The sliced effects of proj1 ([proj1/png/effects.go]) *)

Module Para.
Import Go Png.

(** [sync.WaitGroup]: [wg.Wait()] returns once the counter set by [wg.Add]
    is back to zero; each goroutine that ends has called [wg.Done()] once. *)
Definition wg_Wait_returns (counter : Z) (ended : nat) : bool :=
  counter - Z.of_nat ended =? 0.

(** The body shared by [paraConvolution] and [ParaGrayscale], under a
    schedule of the band goroutines: slice, [wg.Add(numThreads)], launch one
    goroutine per band, [wg.Wait()]. [inr] is the message of the panic. *)
Definition Para (color : Image -> Z -> Z -> RGBA64)
    (img : Image) (numThreads : Z) (sched : list (Z * Z)) : outcome Image + string :=
  match sliceHeight_of (Bounds img) numThreads with
  | None => inr "runtime error: integer divide by zero"%string
  | Some sliceHeight =>
      if numThreads <? 0 then inr "sync: negative WaitGroup counter"%string
      else
        let launched := length (goroutines (Bounds img) numThreads sliceHeight) in
        if wg_Wait_returns numThreads launched
        then inl (Done (run_pixels color sched img))
        else inl Hang
  end.

Definition paraConvolution (img : Image) (kernel : list float) (numThreads : Z)
    : outcome Image + string :=
  Para (convolution_color kernel) img numThreads (in_order (Bounds img) numThreads).

Definition ParaSharpen (img : Image) (numThreads : Z) : outcome Image + string :=
  paraConvolution img Sharpen_kernel numThreads.

Definition ParaEdgeDetection (img : Image) (numThreads : Z) : outcome Image + string :=
  paraConvolution img EdgeDetection_kernel numThreads.

Definition ParaBlur (img : Image) (numThreads : Z) : outcome Image + string :=
  paraConvolution img Blur_kernel numThreads.

Definition ParaGrayscale (img : Image) (numThreads : Z) : outcome Image + string :=
  Para Grayscale_color img numThreads (in_order (Bounds img) numThreads).

End Para.

(** ** The scheduler of proj1 that slices every image *)

Module ParSlices.

Import Go Scheduler.

(** The [switch effect] of the [applyEffectsSliced] of proj1: the effects
    that wait on a [sync.WaitGroup]; [inr] is the message of a panic, here
    that of [panic("unknown effect")]. *)
Definition apply_effect (img : Png.Image) (effect : string) (threads : Z)
    : outcome Png.Image + string :=
  if decide (effect = "S"%string) then Para.ParaSharpen img threads
  else if decide (effect = "E"%string) then Para.ParaEdgeDetection img threads
  else if decide (effect = "B"%string) then Para.ParaBlur img threads
  else if decide (effect = "G"%string) then Para.ParaGrayscale img threads
  else inr "unknown effect"%string.

(** [applyEffectsSliced] of proj1: the buffers are swapped between two
    effects, not after the last. *)
Fixpoint applyEffectsSliced (img : Png.Image) (effects : list string) (threads : Z)
    : outcome Png.Image + string :=
  match effects with
  | [] => inl (Done img)
  | effect :: rest =>
      match apply_effect img effect threads with
      | inl (Done img) =>
          let img := match rest with
                     | [] => img
                     | _ :: _ => Png.SwapBuffers img
                     end in
          applyEffectsSliced img rest threads
      | inl (Panic p) => inl (Panic p)
      | inl Hang => inl Hang
      | inr msg => inr msg
      end
  end.

(** [processImageSlice], from the decoded input file to the buffer handed to
    the encoder. *)
Definition processImageSlice (inOrig : Png.Decoded) (task : ImageTask) (numThreads : Z)
    : outcome Png.RGBA64Image + string :=
  let img := Png.Load inOrig in
  match (if (0 <? length (Effects task))%nat
         then applyEffectsSliced (set_EffectsApplied img true) (Effects task) numThreads
         else inl (Done img)) with
  | inl (Done img) => inl (Done (Png.Save img))
  | inl (Panic p) => inl (Panic p)
  | inl Hang => inl Hang
  | inr msg => inr msg
  end.

(** [RunParallelSlices]: the tasks decoded from the effects file, processed
    one after the other by the calling goroutine with the thread count of
    the command line; with no task it returns at once. *)
Fixpoint RunParallelSlices (inOrig : ImageTask -> Png.Decoded) (tasks : list ImageTask)
    (numThreads : Z) : outcome (list Png.RGBA64Image) + string :=
  match tasks with
  | [] => inl (Done [])
  | task :: rest =>
      match processImageSlice (inOrig task) task numThreads with
      | inl (Done out) =>
          match RunParallelSlices inOrig rest numThreads with
          | inl (Done outs) => inl (Done (out :: outs))
          | r => r
          end
      | inl (Panic p) => inl (Panic p)
      | inl Hang => inl Hang
      | inr msg => inr msg
      end
  end.

(** How the code with slices ends when the code without slices ends with
    [r]: an effect that is not of the set stops both, with two messages. *)
Definition waited {T : Type} (r : T + string) : outcome T + string :=
  match r with
  | inl v => inl (Done v)
  | inr _ => inr "unknown effect"%string
  end.

End ParSlices.

(** * Part II: properties *)

(** ** Go's [int] *)

Module GoFacts.

Import Go.

Lemma wrap_id z : in_int z -> wrap z = z.
Proof.
  unfold in_int, int_min, int_max, wrap. intros H.
  rewrite Z.mod_small; lia.
Qed.

Lemma wrap_in_int z : in_int (wrap z).
Proof.
  unfold in_int, int_min, int_max, wrap.
  pose proof (Z.mod_pos_bound (z + 9223372036854775808) 18446744073709551616).
  lia.
Qed.

Lemma int_add_id a b : in_int (a + b) -> int_add a b = a + b.
Proof. apply wrap_id. Qed.

Lemma int_sub_id a b : in_int (a - b) -> int_sub a b = a - b.
Proof. apply wrap_id. Qed.

Lemma int_mul_id a b : in_int (a * b) -> int_mul a b = a * b.
Proof. apply wrap_id. Qed.

Lemma int_quot_pos a b :
  0 <= a <= int_max -> 0 < b -> int_quot a b = Some (a / b).
Proof.
  intros Ha Hb. unfold int_quot.
  destruct (Z.eqb_spec b 0) as [->|_]; [lia|].
  rewrite Z.quot_div_nonneg by lia.
  rewrite wrap_id; [done|].
  pose proof (Z.div_pos a b). pose proof (Z.div_le_upper_bound a b a).
  unfold in_int, int_min, int_max in *. split; [lia|].
  apply Z.div_le_upper_bound; nia.
Qed.

End GoFacts.

(** ** The phase barrier *)

Module BarrierFacts.

Import Go GoFacts Barrier.

(** *** Properties of the barrier *)

Lemma run_app s evs1 evs2 :
  run s (evs1 ++ evs2) = run s evs1 ≫= λ s', run s' evs2.
Proof.
  revert s. induction evs1 as [|e evs1 IH]; intros s; simpl; [done|].
  destruct (step s e); simpl; auto.
Qed.

Lemma arrivals_app evs1 evs2 :
  arrivals (evs1 ++ evs2) = arrivals evs1 + arrivals evs2.
Proof. induction evs1 as [|e evs1 IH]; simpl; lia. Qed.

Lemma arrivals_bounds evs : 0 <= arrivals evs <= Z.of_nat (length evs).
Proof. induction evs as [|[t|t] evs IH]; simpl; lia. Qed.

Lemma Inv_init N : 1 <= N -> Inv N 0 (init N).
Proof.
  intros HN. split; simpl.
  - done.
  - by rewrite Z.mod_0_l by lia.
  - by rewrite Z.div_0_l by lia.
  - intros t g Ht. by rewrite lookup_empty in Ht.
  - intros _ t g Ht. by rewrite lookup_empty in Ht.
Qed.

Lemma succ_mod_wrap N a : 1 <= N -> 0 <= a -> a mod N + 1 = N ->
  (a + 1) mod N = 0 /\ (a + 1) / N = a / N + 1.
Proof.
  intros HN Ha Hc. pose proof (Z.div_mod a N ltac:(lia)) as Hdm.
  split.
  - symmetry. apply (Z.mod_unique_pos _ _ (a / N + 1)); lia.
  - symmetry. apply (Z.div_unique_pos _ _ _ 0); lia.
Qed.

Lemma succ_mod_step N a : 1 <= N -> 0 <= a -> a mod N + 1 <> N ->
  (a + 1) mod N = a mod N + 1 /\ (a + 1) / N = a / N.
Proof.
  intros HN Ha Hc. pose proof (Z.div_mod a N ltac:(lia)) as Hdm.
  pose proof (Z.mod_pos_bound a N ltac:(lia)) as Hb.
  split.
  - symmetry. apply (Z.mod_unique_pos _ _ (a / N)); lia.
  - symmetry. apply (Z.div_unique_pos _ _ _ (a mod N + 1)); lia.
Qed.

(** What the first critical section does to the counters, when neither
    counter is at the end of [int]. *)
Lemma Wait_enter_spec b :
  in_int (count b + 1) -> in_int (generation b + 1) ->
  Wait_enter b =
    if decide (count b + 1 = threshold b)
    then ({| count := 0; threshold := threshold b;
             generation := generation b + 1 |}, Returned)
    else ({| count := count b + 1; threshold := threshold b;
             generation := generation b |}, Parked (generation b)).
Proof.
  intros Hc Hg. unfold Wait_enter, Wait_recheck; simpl.
  rewrite !int_add_id by done.
  destruct (Z.eqb_spec (count b + 1) (threshold b)); case_decide; try done.
  by rewrite Z.eqb_refl.
Qed.

Lemma Inv_no_overflow N a s :
  1 <= N <= int_max -> 0 <= a < int_max -> Inv N a s ->
  in_int (count (bar s) + 1) /\ in_int (generation (bar s) + 1).
Proof.
  intros HN Ha [_ Hc Hg _ _]. rewrite Hc, Hg.
  pose proof (Z.mod_pos_bound a N ltac:(lia)).
  assert (0 <= a / N <= a).
  { split; [apply Z.div_pos; lia|]. apply Z.div_le_upper_bound; nia. }
  unfold in_int, int_min, int_max in *. lia.
Qed.

Lemma step_Arrive s t s' :
  in_int (count (bar s) + 1) -> in_int (generation (bar s) + 1) ->
  step s (Arrive t) = Some s' ->
  s' = if decide (count (bar s) + 1 = threshold (bar s))
       then {| bar := {| count := 0; threshold := threshold (bar s);
                         generation := generation (bar s) + 1 |};
               thr := <[t := Returned]> (thr s) |}
       else {| bar := {| count := count (bar s) + 1;
                         threshold := threshold (bar s);
                         generation := generation (bar s) |};
               thr := <[t := Parked (generation (bar s))]> (thr s) |}.
Proof.
  intros Hc Hg Hstep. simpl in Hstep.
  rewrite Wait_enter_spec in Hstep by done.
  destruct (thr s !! t) as [[g|]|]; try done;
    case_decide; by injection Hstep as <-.
Qed.

Lemma Inv_step N a s e s' :
  1 <= N <= int_max -> 0 <= a < int_max ->
  Inv N a s -> step s e = Some s' -> Inv N (a + is_arrive e) s'.
Proof.
  intros HN Ha HI Hstep.
  destruct (Inv_no_overflow N a s HN Ha HI) as [Hc Hg].
  pose proof HI as [Hthr Hcnt Hgen Hpark Hquiet].
  destruct e as [t|t].
  - apply step_Arrive in Hstep; [|done..]. subst s'.
    rewrite Hthr, Hcnt. simpl. case_decide as Hfull.
    + destruct (succ_mod_wrap N a) as [Hm Hd]; [lia..|].
      split; simpl; [done|by rewrite Hm|by rewrite Hd, Hgen| |].
      * intros t' g. rewrite lookup_insert. case_decide; [done|].
        intros Ht'. apply Hpark in Ht'. lia.
      * intros _ t' g. rewrite lookup_insert. case_decide; [done|].
        intros Ht'. apply Hpark in Ht'. lia.
    + destruct (succ_mod_step N a) as [Hm Hd]; [lia..|].
      pose proof (Z.mod_pos_bound a N ltac:(lia)) as Hb.
      split; simpl; [done|by rewrite Hm|by rewrite Hd| |lia].
      intros t' g. rewrite lookup_insert. case_decide.
      * intros [= <-]. rewrite Hgen.
        split; [apply Z.div_pos; lia|lia].
      * apply Hpark.
  - simpl in Hstep.
    destruct (thr s !! t) as [[g|]|] eqn:Ht; try done.
    injection Hstep as <-. simpl.
    rewrite Z.add_0_r. split; simpl; try done.
    + intros t' g'. rewrite lookup_insert. case_decide; [|apply Hpark].
      unfold Wait_recheck. destruct (Z.eqb_spec g (generation (bar s))); [|done].
      intros [= <-]. by apply (Hpark t).
    + intros Hzero t' g'. rewrite lookup_insert. case_decide; [|by apply Hquiet].
      pose proof (Hquiet Hzero t g Ht) as Hlt.
      unfold Wait_recheck. destruct (Z.eqb_spec g (generation (bar s))); [lia|done].
Qed.

Lemma Inv_run N evs s :
  1 <= N <= int_max -> Z.of_nat (length evs) < int_max ->
  run (init N) evs = Some s -> Inv N (arrivals evs) s.
Proof.
  intros HN. revert s. induction evs as [|e evs IH] using rev_ind; intros s Hlen Hrun.
  - simpl in Hrun. simplify_eq. apply Inv_init. lia.
  - rewrite run_app in Hrun. rewrite length_app in Hlen. simpl in Hlen.
    destruct (run (init N) evs) as [s0|] eqn:Hrun0; [|done]. simpl in Hrun.
    destruct (step s0 e) as [s1|] eqn:Hstep; [|done]. simplify_eq.
    rewrite arrivals_app. simpl. rewrite Z.add_0_r.
    pose proof (arrivals_bounds evs).
    eapply Inv_step; [done| |apply IH; [lia|done]|done]. lia.
Qed.

Lemma arrivals_Arrive (l : list nat) :
  arrivals (Arrive <$> l) = Z.of_nat (length l).
Proof.
  induction l as [|t l IH]; [done|].
  rewrite fmap_cons. cbn [arrivals is_arrive length].
  rewrite IH, Nat2Z.inj_succ. lia.
Qed.

(** Goroutines that have not called [Wait] yet can all arrive, in any order. *)
Lemma run_arrivals_fresh (l : list nat) (s : System) :
  NoDup l -> (forall t, t ∈ l -> thr s !! t = None) ->
  exists s', run s (Arrive <$> l) = Some s' /\
             forall t, t ∉ l -> thr s' !! t = thr s !! t.
Proof.
  revert s. induction l as [|t l IH]; intros s Hnd Hfresh.
  - exists s. by split.
  - apply NoDup_cons in Hnd as [Hnotin Hnd]. simpl.
    rewrite (Hfresh t) by set_solver.
    destruct (Wait_enter (bar s)) as [b' st] eqn:Hw.
    destruct (IH {| bar := b'; thr := <[t := st]> (thr s) |} Hnd) as (s' & Hrun & Hsame).
    { intros t' Ht'. simpl. rewrite lookup_insert_ne by set_solver.
      apply Hfresh. set_solver. }
    exists s'. split; [done|].
    intros t' Ht'. rewrite Hsame by set_solver. simpl.
    apply lookup_insert_ne. set_solver.
Qed.

(** With [n] band goroutines and a barrier built for [n + 1] participants,
    the launching goroutine gets past the barrier. *)
Lemma phase_returns_complete (n : Z) :
  0 <= n < int_max -> phase_returns (n + 1) (Z.to_nat n) = true.
Proof.
  intros Hn. unfold phase_returns, phase_events.
  rewrite run_app.
  destruct (run_arrivals_fresh (seq 1 (Z.to_nat n)) (init (n + 1)))
    as (s1 & Hrun1 & Hsame); [apply NoDup_seq|done|].
  rewrite Hrun1. simpl.
  rewrite Hsame by (rewrite elem_of_seq; lia). simpl. rewrite lookup_empty.
  assert (1 <= n + 1 <= int_max) as HN by lia.
  pose proof (Inv_run (n + 1) (Arrive <$> seq 1 (Z.to_nat n)) s1 HN) as HI.
  rewrite length_fmap, length_seq, arrivals_Arrive, length_seq in HI.
  specialize (HI ltac:(lia) Hrun1). destruct HI as [Hthr Hcnt Hgen _ _].
  rewrite Z2Nat.id in Hcnt, Hgen by lia.
  rewrite Z.mod_small in Hcnt by lia. rewrite Z.div_small in Hgen by lia.
  rewrite Wait_enter_spec
    by (rewrite ?Hcnt, ?Hgen; unfold in_int, int_min, int_max in *; lia).
  rewrite Hthr, Hcnt. rewrite decide_True by done.
  simpl. by rewrite lookup_insert_eq.
Qed.

(** The first critical section of the only caller of [Wait] on a barrier
    whose threshold is not positive: it parks. *)
Lemma Wait_enter_alone (N : Z) :
  N <= 0 ->
  Wait_enter (NewBarrier N) =
    ({| count := 1; threshold := N; generation := 0 |}, Parked 0).
Proof.
  intros HN. unfold Wait_enter, Wait_recheck, NewBarrier.
  cbn [count threshold generation].
  change (int_add 0 1) with 1.
  destruct (Z.eqb_spec 1 N) as [Heq|Hne]; [lia|done].
Qed.

Lemma phase_returns_alone (N : Z) : N <= 0 -> phase_returns N 0 = false.
Proof.
  intros HN. unfold phase_returns, phase_events. simpl.
  rewrite lookup_empty, Wait_enter_alone by done. simpl.
  by rewrite lookup_insert_eq.
Qed.

(** ... and no wake-up ever releases it: with no other goroutine to call
    [Wait], its call never returns. *)
Lemma alone_never_released (N : Z) (evs : list event) (s' : System) :
  N <= 0 ->
  Forall (fun e => is_wake e = true) evs ->
  run (init N) (Arrive 0%nat :: evs) = Some s' ->
  thr s' !! 0%nat = Some (Parked 0) /\ generation (bar s') = 0.
Proof.
  intros HN Hwake. simpl. rewrite lookup_empty, Wait_enter_alone by done.
  generalize (<[0%nat := Parked 0]> (∅ : gmap nat status)) (lookup_insert_eq (∅ : gmap nat status) 0%nat (Parked 0)).
  induction Hwake as [|e evs He _ IH]; intros m Hm Hrun.
  - simpl in Hrun. by injection Hrun as <-.
  - destruct e as [t|t]; [done|]. simpl in Hrun.
    destruct (m !! t) as [[g|]|] eqn:Ht; try done.
    apply IH in Hrun; [done|].
    destruct (decide (t = 0%nat)) as [->|Hne].
    + rewrite lookup_insert_eq. rewrite Hm in Ht. by injection Ht as <-.
    + by rewrite lookup_insert_ne.
Qed.

(** When a phase is complete (the arrivals so far are a multiple of the
    participants), every goroutine still parked passes the loop test at its
    next wake-up, in whatever order the goroutines arrived. *)
Lemma phase_complete_releases_all (N : Z) (evs : list event) (s : System) :
  1 <= N <= int_max ->
  Z.of_nat (length evs) < int_max ->
  run (init N) evs = Some s ->
  arrivals evs mod N = 0 ->
  forall t g, thr s !! t = Some (Parked g) -> Wait_recheck (bar s) g = Returned.
Proof.
  intros HN Hlen Hrun Hmod t g Ht.
  destruct (Inv_run N evs s HN Hlen Hrun) as [_ Hcnt _ _ Hquiet].
  rewrite Hmod in Hcnt. pose proof (Hquiet Hcnt t g Ht) as Hlt.
  unfold Wait_recheck. destruct (Z.eqb_spec g (generation (bar s))); [lia|done].
Qed.

(** C3. After any trace of [Wait] arrivals and wake-ups at a barrier built
    for [N] participants: [count] is the number of arrivals modulo [N] and
    [generation] the number of completed groups of [N]; an arrival resets
    [count] to 0 and increments [generation] exactly when it brings [count]
    to the threshold (the Nth arriver, which returns at once), and otherwise
    only increments [count] and parks with the generation it captured; a
    wake-up never changes the barrier, and it releases a waiter that captured
    [g] exactly when [generation] exceeds [g], so a waiter of the phase in
    progress stays parked whatever woke it. *)
Theorem barrier_generation_invariant (N : Z) (evs : list event) (s : System) :
  1 <= N <= int_max ->
  Z.of_nat (length evs) < int_max ->
  run (init N) evs = Some s ->
  (threshold (bar s) = N /\
   count (bar s) = arrivals evs mod N /\
   generation (bar s) = arrivals evs / N) /\
  (forall t s', step s (Arrive t) = Some s' ->
     (count (bar s) + 1 = N ->
        count (bar s') = 0 /\
        generation (bar s') = generation (bar s) + 1 /\
        thr s' !! t = Some Returned) /\
     (count (bar s) + 1 <> N ->
        count (bar s') = count (bar s) + 1 /\
        generation (bar s') = generation (bar s) /\
        thr s' !! t = Some (Parked (generation (bar s))))) /\
  (forall t g s', thr s !! t = Some (Parked g) -> step s (Wake t) = Some s' ->
     bar s' = bar s /\
     g <= generation (bar s) /\
     (thr s' !! t = Some Returned <-> g < generation (bar s)) /\
     (g = generation (bar s) -> thr s' !! t = Some (Parked g))).
Proof.
  intros HN Hlen Hrun.
  pose proof (Inv_run N evs s HN Hlen Hrun) as HI.
  pose proof (arrivals_bounds evs) as Ha.
  assert (0 <= arrivals evs < int_max) as Ha' by lia.
  destruct (Inv_no_overflow N _ s HN Ha' HI) as [Hc Hg].
  pose proof HI as [Hthr Hcnt Hgen Hpark _].
  split; [done|]. split.
  - intros t s' Hstep. apply step_Arrive in Hstep; [|done..]. subst s'.
    rewrite Hthr. case_decide; simpl; rewrite lookup_insert_eq; split; done.
  - intros t g s' Ht Hstep. simpl in Hstep. rewrite Ht in Hstep.
    injection Hstep as <-. simpl. rewrite lookup_insert_eq. pose proof (Hpark t g Ht) as Hle.
    unfold Wait_recheck.
    destruct (Z.eqb_spec g (generation (bar s))) as [->|Hne].
    + split; [done|]. split; [lia|]. split; [|done]. split; [done|lia].
    + split; [done|]. split; [lia|]. split; [|done]. split; [lia|done].
Qed.

(** A concrete instance: two participants, one has arrived. *)
Lemma barrier_generation_invariant_witness :
  let s := {| bar := {| count := 1; threshold := 2; generation := 0 |};
              thr := <[0%nat := Parked 0]> ∅ |} in
  (threshold (bar s) = 2 /\
   count (bar s) = arrivals [Arrive 0] mod 2 /\
   generation (bar s) = arrivals [Arrive 0] / 2) /\
  (forall t s', step s (Arrive t) = Some s' ->
     (count (bar s) + 1 = 2 ->
        count (bar s') = 0 /\
        generation (bar s') = generation (bar s) + 1 /\
        thr s' !! t = Some Returned) /\
     (count (bar s) + 1 <> 2 ->
        count (bar s') = count (bar s) + 1 /\
        generation (bar s') = generation (bar s) /\
        thr s' !! t = Some (Parked (generation (bar s))))) /\
  (forall t g s', thr s !! t = Some (Parked g) -> step s (Wake t) = Some s' ->
     bar s' = bar s /\
     g <= generation (bar s) /\
     (thr s' !! t = Some Returned <-> g < generation (bar s)) /\
     (g = generation (bar s) -> thr s' !! t = Some (Parked g))).
Proof.
  apply (barrier_generation_invariant 2 [Arrive 0%nat]).
  - unfold int_max. lia.
  - unfold int_max. simpl. lia.
  - reflexivity.
Defined.

End BarrierFacts.

(** ** Images and effect kernels *)

Module PngFacts.

Import Go GoFacts Png.

(** *** Pixel loops: what a run of writes leaves in [Out] *)

Lemma RGBA64Image_eq (a b : RGBA64Image) :
  Pix a = Pix b -> Rect a = Rect b -> a = b.
Proof. destruct a, b; simpl; by intros -> ->. Qed.

Lemma Image_eq (a b : Image) :
  In a = In b -> Out a = Out b -> Bounds a = Bounds b ->
  EffectsApplied a = EffectsApplied b -> a = b.
Proof. destruct a, b; simpl; by intros -> -> -> ->. Qed.

Lemma elem_of_range (lo hi v : Z) : v ∈ range lo hi <-> lo <= v < hi.
Proof. unfold range. rewrite elem_of_seqZ. lia. Qed.

Lemma elem_of_band_pixels (bounds : Rectangle) (startY endY x y : Z) :
  (x, y) ∈ band_pixels bounds startY endY <->
  startY <= y < endY /\ X (Min bounds) <= x < X (Max bounds).
Proof.
  unfold band_pixels. rewrite list_elem_of_bind. split.
  - intros (y' & Hin & Hy'). apply list_elem_of_bind in Hin as (x' & Hin & Hx').
    apply list_elem_of_singleton in Hin. injection Hin as -> ->.
    by rewrite elem_of_range in Hx', Hy'.
  - intros [Hy Hx]. exists y. rewrite elem_of_range. split; [|done].
    apply list_elem_of_bind. exists x. rewrite elem_of_range.
    split; [|done]. by apply list_elem_of_singleton.
Qed.

Lemma convolution_color_reads_In_only kernel :
  reads_In_only (convolution_color kernel).
Proof. by intros [i o b e] o' x y. Qed.

Lemma Grayscale_color_reads_In_only : reads_In_only Grayscale_color.
Proof. by intros [i o b e] o' x y. Qed.

Lemma Set_Rect p x y c : Rect (Set_ p x y c) = Rect p.
Proof. unfold Set_. by case_match. Qed.

Lemma Set_lookup p x y c k :
  Pix (Set_ p x y c) !! k =
    if decide (k = (x, y) /\ Point_In x y (Rect p) = true)
    then Some c else Pix p !! k.
Proof.
  unfold Set_. destruct (Point_In x y (Rect p)); simpl.
  - destruct (decide (k = (x, y))) as [->|Hne].
    + rewrite lookup_insert_eq. by rewrite decide_True.
    + rewrite lookup_insert_ne by done. rewrite decide_False; [done|tauto].
  - rewrite decide_False; [done|]. by intros [_ ?].
Qed.

Lemma run_pixels_spec color ps img :
  reads_In_only color ->
  In (run_pixels color ps img) = In img /\
  Bounds (run_pixels color ps img) = Bounds img /\
  EffectsApplied (run_pixels color ps img) = EffectsApplied img /\
  Rect (Out (run_pixels color ps img)) = Rect (Out img) /\
  forall k, Pix (Out (run_pixels color ps img)) !! k =
    if decide (k ∈ ps /\ Point_In k.1 k.2 (Rect (Out img)) = true)
    then Some (color img k.1 k.2)
    else Pix (Out img) !! k.
Proof.
  intros Hcol. revert img. induction ps as [|p ps IH]; intros img.
  - split_and!; [done..|]. intros k. rewrite decide_False; [done|].
    intros [?%elem_of_nil _]. done.
  - unfold run_pixels. simpl. fold (run_pixels color ps (write_pixel color img p)).
    destruct (IH (write_pixel color img p)) as (HIn & HB & HE & HR & HP).
    assert (Rect (Out (write_pixel color img p)) = Rect (Out img)) as HRw
      by apply Set_Rect.
    assert (forall x y, color (write_pixel color img p) x y = color img x y) as Hcw.
    { intros x y. apply Hcol. }
    rewrite HIn, HB, HE, HR, HRw. split_and!; [done..|].
    intros k. rewrite HP, HRw, Hcw. clear HP IH.
    unfold write_pixel, Out_Set. cbn [Out]. rewrite Set_lookup.
    destruct p as [px py], k as [kx ky]. cbn [fst snd].
    destruct (decide ((kx, ky) ∈ ps /\ Point_In kx ky (Rect (Out img)) = true))
      as [[Hin Hk]|Hnot].
    + rewrite decide_True; [done|]. split; [by apply elem_of_cons; right|done].
    + destruct (decide ((kx, ky) = (px, py) /\ Point_In px py (Rect (Out img)) = true))
        as [[Heq Hp]|Hnot'].
      * injection Heq as -> ->. rewrite decide_True; [done|].
        split; [by apply elem_of_cons; left|done].
      * rewrite decide_False; [done|].
        intros [[Heq|Hin]%elem_of_cons Hk]; [|tauto].
        injection Heq as -> ->. tauto.
Qed.

(** Two runs that write the same set of pixels leave the same image. *)
Lemma run_pixels_ext color ps1 ps2 img :
  reads_In_only color ->
  (forall k, k ∈ ps1 <-> k ∈ ps2) ->
  run_pixels color ps1 img = run_pixels color ps2 img.
Proof.
  intros Hcol Hsame.
  destruct (run_pixels_spec color ps1 img Hcol) as (HIn1 & HB1 & HE1 & HR1 & HP1).
  destruct (run_pixels_spec color ps2 img Hcol) as (HIn2 & HB2 & HE2 & HR2 & HP2).
  apply Image_eq; [congruence| |congruence..].
  apply RGBA64Image_eq; [|congruence].
  apply map_eq. intros k. rewrite HP1, HP2.
  destruct (decide (k ∈ ps1)) as [H1|H1].
  - pose proof (proj1 (Hsame k) H1).
    destruct (Point_In k.1 k.2 (Rect (Out img)));
      [rewrite !decide_True by done|rewrite !decide_False by (intros [_ ?]; done)]; done.
  - rewrite !decide_False; [done| |tauto]. rewrite <- Hsame. tauto.
Qed.

(** *** Interleavings *)

Lemma interleaving_elem_of {T : Type} (ls : list (list T)) (l : list T) :
  interleaving ls l ->
  forall x, x ∈ l <-> exists l', l' ∈ ls /\ x ∈ l'.
Proof.
  induction 1 as [ls Hnil|ls i x xs l Hi _ IH]; intros y.
  - split; [by intros ?%elem_of_nil|].
    intros (l' & Hl' & Hy). rewrite Forall_forall in Hnil.
    rewrite (Hnil l') in Hy by done. by apply elem_of_nil in Hy.
  - rewrite elem_of_cons, IH. split.
    + intros [->|(l' & Hl' & Hy)].
      * exists (x :: xs). split; [by eapply list_elem_of_lookup_2|left].
      * apply list_elem_of_lookup in Hl' as [j Hj].
        destruct (decide (i = j)) as [->|Hne].
        -- rewrite list_lookup_insert_eq in Hj by (by eapply lookup_lt_Some).
           injection Hj as <-. exists (x :: xs).
           split; [by eapply list_elem_of_lookup_2|by right].
        -- rewrite list_lookup_insert_ne in Hj by done.
           exists l'. split; [by eapply list_elem_of_lookup_2|done].
    + intros (l' & Hl' & Hy).
      apply list_elem_of_lookup in Hl' as [j Hj].
      destruct (decide (i = j)) as [->|Hne].
      * rewrite Hi in Hj. injection Hj as <-.
        apply elem_of_cons in Hy as [->|Hy]; [by left|right].
        exists xs. split; [|done].
        eapply list_elem_of_lookup_2.
        apply list_lookup_insert_eq. by eapply lookup_lt_Some.
      * right. exists l'. split; [|done].
        eapply list_elem_of_lookup_2. by rewrite list_lookup_insert_ne.
Qed.

Lemma interleaving_skip {T : Type} (ls : list (list T)) (l : list T) :
  interleaving ls l -> interleaving ([] :: ls) l.
Proof.
  induction 1 as [ls Hnil|ls i x xs l Hi _ IH].
  - constructor. by constructor.
  - by apply (interleaving_step _ (S i) x xs).
Qed.

(** Running the lists one after the other is an interleaving. *)
Lemma interleaving_concat {T : Type} (ls : list (list T)) :
  interleaving ls (concat ls).
Proof.
  induction ls as [|l1 ls IH]; simpl.
  - by constructor.
  - induction l1 as [|x xs IHx]; simpl.
    + by apply interleaving_skip.
    + by apply (interleaving_step _ 0%nat x xs).
Qed.

(** *** The row bands *)

Section bands.

Variables (bounds : Rectangle) (numThreads : Z).

Hypothesis Hrows : rows_fit bounds.

Hypothesis Hthreads : 1 <= numThreads <= int_max.

#[local] Abbreviation minY := (Y (Min bounds)).

#[local] Abbreviation maxY := (Y (Max bounds)).

#[local] Abbreviation q := (even_slice bounds numThreads).

Lemma sliceHeight_of_fit : sliceHeight_of bounds numThreads = Some q.
Proof.
  destruct Hrows as (Hmin & Hmax & Hh). unfold sliceHeight_of.
  rewrite int_sub_id by (unfold in_int, int_min, int_max in *; lia).
  apply int_quot_pos; lia.
Qed.

Lemma sliceHeight_bounds : 0 <= q /\ numThreads * q <= maxY - minY.
Proof.
  destruct Hrows as (Hmin & Hmax & Hh). unfold even_slice. split.
  - apply Z.div_pos; lia.
  - apply Z.mul_div_le. lia.
Qed.

Lemma slice_fit (i : Z) :
  0 <= i < numThreads ->
  slice bounds numThreads q i =
    (minY + i * q,
     if decide (i = numThreads - 1) then maxY else minY + i * q + q).
Proof.
  intros Hi. destruct Hrows as (Hmin & Hmax & Hh).
  destruct sliceHeight_bounds as [Hq Hnq].
  assert (0 <= i * q <= maxY - minY - q) by nia.
  unfold slice.
  rewrite int_mul_id by (unfold in_int, int_min, int_max in *; lia).
  rewrite int_add_id by (unfold in_int, int_min, int_max in *; lia).
  rewrite int_add_id by (unfold in_int, int_min, int_max in *; lia).
  rewrite int_sub_id by (unfold in_int, int_min, int_max in *; lia).
  destruct (Z.eqb_spec i (numThreads - 1)); by case_decide.
Qed.

Lemma slices_lookup (i : nat) (band : Z * Z) :
  slices bounds numThreads q !! i = Some band <->
  Z.of_nat i < numThreads /\
  band = (minY + Z.of_nat i * q,
          if decide (Z.of_nat i = numThreads - 1) then maxY
          else minY + Z.of_nat i * q + q).
Proof.
  unfold slices, range. rewrite list_lookup_fmap, fmap_Some. split.
  - intros (v & [-> Hlt]%lookup_seqZ & ->).
    split; [lia|]. rewrite slice_fit by lia. by rewrite Z.add_0_l.
  - intros [Hlt ->]. exists (Z.of_nat i). split.
    + apply lookup_seqZ. lia.
    + by rewrite slice_fit by lia.
Qed.

Lemma slices_length : Z.of_nat (length (slices bounds numThreads q)) = numThreads.
Proof. unfold slices, range. rewrite length_fmap, length_seqZ. lia. Qed.

(** Every band lies inside the row range. *)
Lemma slices_inside (i : nat) (band : Z * Z) (y : Z) :
  slices bounds numThreads q !! i = Some band ->
  band.1 <= y < band.2 -> minY <= y < maxY.
Proof.
  intros [Hlt ->]%slices_lookup. destruct sliceHeight_bounds as [Hq Hnq].
  cbn [fst snd]. case_decide; nia.
Qed.

(** Every row of the range lies in some band. *)
Lemma slices_cover (y : Z) :
  minY <= y < maxY ->
  exists (i : nat) (band : Z * Z),
    slices bounds numThreads q !! i = Some band /\ band.1 <= y < band.2.
Proof.
  intros Hy. destruct sliceHeight_bounds as [Hq Hnq].
  destruct (decide (q = 0)) as [Hq0|Hq0].
  - exists (Z.to_nat (numThreads - 1)), (minY + (numThreads - 1) * q, maxY).
    split; [|cbn [fst snd]; nia].
    apply slices_lookup. rewrite Z2Nat.id by lia. split; [lia|].
    by rewrite decide_True.
  - pose proof (Z.div_mod (y - minY) q Hq0) as Hdm.
    pose proof (Z.mod_pos_bound (y - minY) q ltac:(lia)) as Hmod.
    assert (0 <= (y - minY) / q) as Hk by (apply Z.div_pos; lia).
    set (k := (y - minY) / q) in *.
    destruct (decide (k < numThreads - 1)) as [Hlt|Hge].
    + exists (Z.to_nat k), (minY + k * q, minY + k * q + q).
      split; [|cbn [fst snd]; nia].
      apply slices_lookup. rewrite Z2Nat.id by lia. split; [lia|].
      by rewrite decide_False by lia.
    + exists (Z.to_nat (numThreads - 1)), (minY + (numThreads - 1) * q, maxY).
      split; [|cbn [fst snd]; nia].
      apply slices_lookup. rewrite Z2Nat.id by lia. split; [lia|].
      by rewrite decide_True.
Qed.

(** No row lies in two bands. *)
Lemma slices_disjoint (i j : nat) (bi bj : Z * Z) (y : Z) :
  slices bounds numThreads q !! i = Some bi ->
  slices bounds numThreads q !! j = Some bj ->
  bi.1 <= y < bi.2 -> bj.1 <= y < bj.2 -> i = j.
Proof.
  intros [Hi ->]%slices_lookup [Hj ->]%slices_lookup.
  destruct sliceHeight_bounds as [Hq Hnq]. cbn [fst snd].
  intros Hyi Hyj.
  destruct (decide (i = j)) as [|Hne]; [done|exfalso].
  repeat case_decide; nia.
Qed.

(** The pixels the band goroutines write, taken together, are the pixels
    of the whole image. *)
Lemma goroutines_pixels (k : Z * Z) :
  (exists l, l ∈ goroutines bounds numThreads q /\ k ∈ l) <->
  k ∈ band_pixels bounds minY maxY.
Proof.
  destruct k as [x y]. rewrite elem_of_band_pixels. unfold goroutines. split.
  - intros (l & Hl & Hk). apply list_elem_of_fmap in Hl as (band & -> & Hband).
    apply list_elem_of_lookup in Hband as [i Hband].
    apply elem_of_band_pixels in Hk as [Hy Hx].
    split; [by eapply slices_inside|done].
  - intros [Hy Hx]. destruct (slices_cover y Hy) as (i & band & Hband & Hin).
    exists (band_pixels bounds band.1 band.2). split.
    + apply list_elem_of_fmap. exists band. split; [done|].
      by eapply list_elem_of_lookup_2.
    + by apply elem_of_band_pixels.
Qed.

End bands.

(** C4. For a height that is not negative and at least one worker, the row
    bands [BSPConvolution] and [BSPGrayscale] compute (band [i] starts at
    [Min.Y + i * (height / numThreads)] and ends one slice height later, the
    last one at [Max.Y]) are as many as the workers, lie in the row range,
    cover every row of it, and no row lies in two of them. *)
Theorem bands_partition_rows (bounds : Rectangle) (numThreads : Z) :
  rows_fit bounds ->
  1 <= numThreads <= int_max ->
  let minY := Y (Min bounds) in
  let maxY := Y (Max bounds) in
  let sliceHeight := (maxY - minY) / numThreads in
  let bands := slices bounds numThreads sliceHeight in
  sliceHeight_of bounds numThreads = Some sliceHeight /\
  Z.of_nat (length bands) = numThreads /\
  (forall i : nat, Z.of_nat i < numThreads ->
     bands !! i =
       Some (minY + Z.of_nat i * sliceHeight,
             if decide (Z.of_nat i = numThreads - 1) then maxY
             else minY + Z.of_nat i * sliceHeight + sliceHeight)) /\
  (forall y, minY <= y < maxY <->
     exists (i : nat) (band : Z * Z), bands !! i = Some band /\ band.1 <= y < band.2) /\
  (forall (i j : nat) (bi bj : Z * Z) (y : Z),
     bands !! i = Some bi -> bands !! j = Some bj ->
     bi.1 <= y < bi.2 -> bj.1 <= y < bj.2 -> i = j).
Proof.
  intros Hrows Hthreads minY maxY sliceHeight bands. split_and!.
  - by apply sliceHeight_of_fit.
  - by apply slices_length.
  - intros i Hi. by apply slices_lookup.
  - intros y. split.
    + by apply slices_cover.
    + intros (i & band & Hband & Hy). by eapply slices_inside.
  - intros i j bi bj y. by apply slices_disjoint.
Qed.

(** Ten rows and three workers: bands [0,3), [3,6) and [6,10). *)
Lemma bands_partition_rows_witness :
  let bounds := {| Min := {| X := 0; Y := 0 |}; Max := {| X := 4; Y := 10 |} |} in
  let bands := slices bounds 3 3 in
  sliceHeight_of bounds 3 = Some 3 /\
  Z.of_nat (length bands) = 3 /\
  (forall i : nat, Z.of_nat i < 3 ->
     bands !! i =
       Some (0 + Z.of_nat i * 3,
             if decide (Z.of_nat i = 3 - 1) then 10
             else 0 + Z.of_nat i * 3 + 3)) /\
  (forall y, 0 <= y < 10 <->
     exists (i : nat) (band : Z * Z), bands !! i = Some band /\ band.1 <= y < band.2) /\
  (forall (i j : nat) (bi bj : Z * Z) (y : Z),
     bands !! i = Some bi -> bands !! j = Some bj ->
     bi.1 <= y < bi.2 -> bj.1 <= y < bj.2 -> i = j).
Proof.
  apply (bands_partition_rows
           {| Min := {| X := 0; Y := 0 |}; Max := {| X := 4; Y := 10 |} |} 3).
  - unfold rows_fit, in_int, int_min, int_max. simpl. lia.
  - unfold int_max. lia.
Defined.

(** *** The sliced effects against the sequential ones *)

Lemma in_order_schedule (bounds : Rectangle) (numThreads : Z) :
  schedule_of bounds numThreads (in_order bounds numThreads).
Proof.
  unfold schedule_of, in_order.
  destruct (sliceHeight_of bounds numThreads); [|done].
  apply interleaving_concat.
Qed.

(** Under any schedule of its band goroutines a sliced effect returns, and
    leaves what the loop over the whole image leaves. *)
Lemma BSP_any_schedule color img numThreads sched :
  reads_In_only color ->
  rows_fit (Bounds img) ->
  1 <= numThreads < int_max ->
  schedule_of (Bounds img) numThreads sched ->
  BSP color img numThreads sched =
    Done (run_pixels color
            (band_pixels (Bounds img) (Y (Min (Bounds img))) (Y (Max (Bounds img))))
            img).
Proof.
  intros Hcol Hrows Hn Hsched.
  assert (1 <= numThreads <= int_max) as Hn' by lia.
  unfold BSP, schedule_of in *.
  rewrite (sliceHeight_of_fit _ _ Hrows Hn') in *.
  unfold goroutines at 1. rewrite length_fmap.
  pose proof (slices_length (Bounds img) numThreads Hn') as Hlen.
  apply (f_equal Z.to_nat) in Hlen. rewrite Nat2Z.id in Hlen. rewrite Hlen.
  rewrite int_add_id by (unfold in_int, int_min, int_max in *; lia).
  rewrite BarrierFacts.phase_returns_complete by lia.
  f_equal. apply run_pixels_ext; [done|].
  intros k. rewrite (interleaving_elem_of _ _ Hsched).
  by apply goroutines_pixels.
Qed.

Lemma BSPGrayscale_Grayscale img numThreads :
  rows_fit (Bounds img) -> Rect (Out img) = Bounds img ->
  1 <= numThreads < int_max ->
  BSPGrayscale img numThreads = Done (Grayscale img).
Proof.
  intros Hrows Hrect Hn. unfold BSPGrayscale, Grayscale. rewrite Hrect.
  apply BSP_any_schedule;
    [apply Grayscale_color_reads_In_only|done..|apply in_order_schedule].
Qed.

(** With no worker the slice height is a division by zero. *)
Lemma BSP_zero_workers color img sched :
  BSP color img 0 sched = Panic DivideByZero.
Proof. reflexivity. Qed.

(** With a negative worker count no band goroutine is launched and the
    launching goroutine parks at the barrier. *)
Lemma BSP_negative_workers color img numThreads sched :
  in_int numThreads -> numThreads < 0 ->
  BSP color img numThreads sched = Hang.
Proof.
  intros Hint Hneg. unfold BSP, sliceHeight_of, int_quot.
  destruct (Z.eqb_spec numThreads 0); [lia|].
  unfold goroutines, slices, range. rewrite !length_fmap, length_seqZ.
  replace (Z.to_nat (numThreads - 0)) with 0%nat by lia.
  rewrite int_add_id by (unfold in_int, int_min, int_max in *; lia).
  by rewrite BarrierFacts.phase_returns_alone by lia.
Qed.

(** C10. The sliced effects refine the sequential ones: for every worker
    count from 1 on, under every schedule of the band goroutines,
    [BSPConvolution] with any kernel (so [BSPSharpen], [BSPEdgeDetection] and
    [BSPBlur]) returns the image [convolution] leaves, and [BSPGrayscale] the
    image [Grayscale] leaves on an image whose output buffer has the
    rectangle [Bounds], as [Load] builds it. *)
Theorem BSP_refines_sequential (img : Image) (kernel : list float) (numThreads : Z) :
  rows_fit (Bounds img) ->
  Rect (Out img) = Bounds img ->
  1 <= numThreads < int_max ->
  (forall sched, schedule_of (Bounds img) numThreads sched ->
     BSP (convolution_color kernel) img numThreads sched = Done (convolution img kernel) /\
     BSP Grayscale_color img numThreads sched = Done (Grayscale img)) /\
  BSPConvolution img kernel numThreads = Done (convolution img kernel) /\
  BSPSharpen img numThreads = Done (Sharpen img) /\
  BSPEdgeDetection img numThreads = Done (EdgeDetection img) /\
  BSPBlur img numThreads = Done (Blur img) /\
  BSPGrayscale img numThreads = Done (Grayscale img).
Proof.
  intros Hrows Hrect Hn.
  assert (forall sched, schedule_of (Bounds img) numThreads sched ->
     BSP Grayscale_color img numThreads sched = Done (Grayscale img)) as Hgray.
  { intros sched Hsched. unfold Grayscale. rewrite Hrect.
    by apply BSP_any_schedule; [apply Grayscale_color_reads_In_only|..]. }
  assert (forall k sched, schedule_of (Bounds img) numThreads sched ->
     BSP (convolution_color k) img numThreads sched = Done (convolution img k)) as Hconv.
  { intros k sched Hsched.
    by apply BSP_any_schedule; [apply convolution_color_reads_In_only|..]. }
  pose proof (in_order_schedule (Bounds img) numThreads) as Hord.
  split_and!; [by split; auto|by apply Hconv..|by apply Hgray].
Qed.

(** *** Grayscale: the average, truncated *)

(** The refinement on the example image, with the blur kernel and two workers. *)
Lemma BSP_refines_sequential_witness :
  (forall sched, schedule_of (Bounds (Load example_file)) 2 sched ->
     BSP (convolution_color Blur_kernel) (Load example_file) 2 sched =
       Done (convolution (Load example_file) Blur_kernel) /\
     BSP Grayscale_color (Load example_file) 2 sched =
       Done (Grayscale (Load example_file))) /\
  BSPConvolution (Load example_file) Blur_kernel 2 =
    Done (convolution (Load example_file) Blur_kernel) /\
  BSPSharpen (Load example_file) 2 = Done (Sharpen (Load example_file)) /\
  BSPEdgeDetection (Load example_file) 2 = Done (EdgeDetection (Load example_file)) /\
  BSPBlur (Load example_file) 2 = Done (Blur (Load example_file)) /\
  BSPGrayscale (Load example_file) 2 = Done (Grayscale (Load example_file)).
Proof.
  apply (BSP_refines_sequential (Load example_file) Blur_kernel 2).
  - vm_compute. intuition discriminate.
  - reflexivity.
  - unfold int_max. lia.
Defined.

Lemma check_range_sound (k : nat) (lo : Z) (P : Z -> bool) :
  check_range k lo P = true ->
  forall z, lo <= z < lo + 2 ^ Z.of_nat k -> P z = true.
Proof.
  revert lo. induction k as [|k IH]; intros lo Hchk z Hz.
  - simpl in *. by replace z with lo by lia.
  - cbn [check_range] in Hchk. apply andb_prop in Hchk as [H1 H2].
    rewrite Nat2Z.inj_succ, Z.pow_succ_r in Hz by lia.
    destruct (decide (z < lo + 2 ^ Z.of_nat k)).
    + apply (IH lo); [done|lia].
    + apply (IH (lo + 2 ^ Z.of_nat k)); [done|lia].
Qed.

(** On every sum of three [uint16] channels the float computation yields the
    integer quotient: checked on each of the 196606 sums. *)
Lemma gray_level_quot (s : Z) : 0 <= s <= 196605 -> gray_level s = s ÷ 3.
Proof.
  intros Hs.
  assert (check_range 18 0
            (fun s => (196605 <? s) || (gray_level s =? s ÷ 3)) = true) as Hchk
    by (vm_compute; reflexivity).
  pose proof (check_range_sound _ _ _ Hchk s ltac:(simpl; lia)) as H.
  apply orb_prop in H as [H|H]; [|by apply Z.eqb_eq]. apply Z.ltb_lt in H. lia.
Qed.

Lemma Grayscale_color_gray_of img x y :
  valid_color (At (In img) x y) ->
  Grayscale_color img x y = gray_of (At (In img) x y).
Proof.
  intros (HR & HG & HB & HA). unfold Grayscale_color, gray_of, RGBA.
  set (c := At (In img) x y) in *. unfold is_uint16 in *.
  unfold uint32, uint16. rewrite !Z.mod_small by lia.
  fold (gray_level (R c + G c + B c)). by rewrite gray_level_quot by lia.
Qed.

Lemma gray_of_valid c : valid_color c -> valid_color (gray_of c).
Proof.
  intros (HR & HG & HB & HA). unfold gray_of, valid_color, is_uint16 in *. simpl.
  assert (0 <= (R c + G c + B c) ÷ 3 <= 65535); [|lia].
  rewrite Z.quot_div_nonneg by lia.
  split; [apply Z.div_pos; lia|]. apply Z.div_le_upper_bound; lia.
Qed.

(** Averaging a colour whose three channels are equal changes nothing. *)
Lemma gray_of_idem c : gray_of (gray_of c) = gray_of c.
Proof.
  unfold gray_of. cbn [R G B A].
  set (a := (R c + G c + B c) ÷ 3).
  replace (a + a + a) with (a * 3) by lia.
  by rewrite Z.quot_mul by lia.
Qed.

Lemma Point_In_spec x y r :
  Point_In x y r = true <->
  X (Min r) <= x < X (Max r) /\ Y (Min r) <= y < Y (Max r).
Proof. unfold Point_In. rewrite !andb_true_iff. lia. Qed.

(** What a pixel loop over the whole rectangle of [Out] leaves at a point. *)
Lemma At_run_whole color img bounds x y :
  reads_In_only color ->
  Rect (Out img) = bounds ->
  At (Out (run_pixels color
             (band_pixels bounds (Y (Min bounds)) (Y (Max bounds))) img)) x y =
    if Point_In x y bounds then color img x y else mkRGBA64 0 0 0 0.
Proof.
  intros Hcol <-.
  destruct (run_pixels_spec color
              (band_pixels (Rect (Out img)) (Y (Min (Rect (Out img))))
                 (Y (Max (Rect (Out img))))) img Hcol)
    as (_ & _ & _ & HR & HP).
  unfold At. rewrite HR, HP.
  destruct (Point_In x y (Rect (Out img))) eqn:Hin; [|done].
  rewrite decide_True; [done|]. split; [|done].
  apply elem_of_band_pixels. apply Point_In_spec in Hin. cbn [fst snd]. lia.
Qed.

(** *** What [Load] builds *)

Lemma foldl_Set_spec (f : Z -> Z -> RGBA64) (ps : list (Z * Z)) (b : RGBA64Image) :
  Rect (foldl (fun b p => Set_ b p.1 p.2 (f p.1 p.2)) b ps) = Rect b /\
  forall k, Pix (foldl (fun b p => Set_ b p.1 p.2 (f p.1 p.2)) b ps) !! k =
    if decide (k ∈ ps /\ Point_In k.1 k.2 (Rect b) = true)
    then Some (f k.1 k.2) else Pix b !! k.
Proof.
  revert b. induction ps as [|p ps IH]; intros b.
  - split; [done|]. intros k. rewrite decide_False; [done|].
    intros [?%elem_of_nil _]. done.
  - simpl. destruct (IH (Set_ b p.1 p.2 (f p.1 p.2))) as [HR HP].
    rewrite HR, Set_Rect. split; [done|].
    intros k. rewrite HP, Set_Rect, Set_lookup. clear HP IH HR.
    destruct p as [px py], k as [kx ky]. cbn [fst snd].
    destruct (decide ((kx, ky) ∈ ps /\ Point_In kx ky (Rect b) = true))
      as [[Hin Hk]|Hnot].
    + rewrite decide_True; [done|]. split; [by apply elem_of_cons; right|done].
    + destruct (decide ((kx, ky) = (px, py) /\ Point_In px py (Rect b) = true))
        as [[Heq Hp]|Hnot'].
      * injection Heq as -> ->. rewrite decide_True; [done|].
        split; [by apply elem_of_cons; left|done].
      * rewrite decide_False; [done|].
        intros [[Heq|Hin]%elem_of_cons Hk]; [|tauto].
        injection Heq as -> ->. tauto.
Qed.

Lemma Load_same_rect inOrig : same_rect (Load inOrig).
Proof.
  unfold same_rect, Load. cbn [In Out Bounds]. split; [|done].
  by rewrite (proj1 (foldl_Set_spec (Load_color inOrig) _ _)).
Qed.

(** The input buffer holds, at every point of the bounds, the colour decoded
    from the file, each channel converted to [uint16]. *)
Lemma Load_At inOrig x y :
  At (In (Load inOrig)) x y =
    if Point_In x y (d_Bounds inOrig) then Load_color inOrig x y
    else mkRGBA64 0 0 0 0.
Proof.
  unfold Load. cbn [In]. unfold At.
  destruct (foldl_Set_spec (Load_color inOrig)
              (band_pixels (d_Bounds inOrig) (Y (Min (d_Bounds inOrig)))
                 (Y (Max (d_Bounds inOrig))))
              (NewRGBA64 (d_Bounds inOrig))) as [HR HP].
  rewrite HR, HP. cbn [NewRGBA64 Rect].
  destruct (Point_In x y (d_Bounds inOrig)) eqn:Hin; [|done].
  rewrite decide_True; [done|]. split; [|done].
  apply elem_of_band_pixels. apply Point_In_spec in Hin. cbn [fst snd]. lia.
Qed.

Lemma uint16_is_uint16 z : is_uint16 (uint16 z).
Proof.
  unfold is_uint16, uint16. pose proof (Z.mod_pos_bound z 65536). lia.
Qed.

Lemma Load_valid inOrig x y : valid_color (At (In (Load inOrig)) x y).
Proof.
  rewrite Load_At. case_match.
  - unfold Load_color. destruct (d_RGBA inOrig x y) as [[[r g] b] a].
    split_and!; apply uint16_is_uint16.
  - unfold valid_color, is_uint16. simpl. lia.
Qed.

(** *** Grayscale twice *)

Lemma Grayscale_At img x y :
  valid_color (At (In img) x y) ->
  At (Out (Grayscale img)) x y =
    if Point_In x y (Rect (Out img)) then gray_of (At (In img) x y)
    else mkRGBA64 0 0 0 0.
Proof.
  intros Hvalid. unfold Grayscale.
  rewrite At_run_whole by (done || apply Grayscale_color_reads_In_only).
  by rewrite Grayscale_color_gray_of.
Qed.

Lemma Grayscale_frame img :
  In (Grayscale img) = In img /\ Bounds (Grayscale img) = Bounds img /\
  EffectsApplied (Grayscale img) = EffectsApplied img /\
  Rect (Out (Grayscale img)) = Rect (Out img).
Proof.
  unfold Grayscale.
  destruct (run_pixels_spec Grayscale_color
              (band_pixels (Rect (Out img)) (Y (Min (Rect (Out img))))
                 (Y (Max (Rect (Out img))))) img Grayscale_color_reads_In_only)
    as (H1 & H2 & H3 & H4 & _).
  done.
Qed.

(** Grayscale of a grayscaled image shows the same pixels. *)
Lemma Grayscale_twice_At img x y :
  (forall x y, valid_color (At (In img) x y)) ->
  Rect (In img) = Rect (Out img) ->
  At (Out (Grayscale (SwapBuffers (Grayscale img)))) x y =
    At (Out (Grayscale img)) x y.
Proof.
  intros Hvalid Hrect.
  destruct (Grayscale_frame img) as (HIn & _ & _ & HR).
  assert (forall x y, valid_color (At (Out (Grayscale img)) x y)) as Hvalid1.
  { intros x' y'. rewrite Grayscale_At by done. case_match.
    - by apply gray_of_valid.
    - unfold valid_color, is_uint16. simpl. lia. }
  rewrite (Grayscale_At (SwapBuffers (Grayscale img))) by apply Hvalid1.
  cbn [SwapBuffers In Out]. rewrite HIn, Hrect.
  rewrite !Grayscale_At by done.
  destruct (Point_In x y (Rect (Out img))); [|done].
  apply gray_of_idem.
Qed.

(** C6. For every pixel of the image the grayscale effect, sequential or
    sliced, stores a colour whose red, green and blue channels all equal the
    sum of the input pixel's three colour channels divided by 3 with the
    fraction dropped, and whose alpha is the input pixel's; channels
    (25, 75, 250) give (116, 116, 116) and the same alpha. *)
Theorem grayscale_truncated_average (img : Image) (x y numThreads : Z) :
  valid_color (At (In img) x y) ->
  Point_In x y (Bounds img) = true ->
  Rect (Out img) = Bounds img ->
  rows_fit (Bounds img) ->
  1 <= numThreads < int_max ->
  let c := At (In img) x y in
  let avg := (R c + G c + B c) ÷ 3 in
  Grayscale_color img x y = mkRGBA64 avg avg avg (A c) /\
  At (Out (Grayscale img)) x y = mkRGBA64 avg avg avg (A c) /\
  (exists img', BSPGrayscale img numThreads = Done img' /\
                At (Out img') x y = mkRGBA64 avg avg avg (A c)) /\
  ((R c, G c, B c) = (25, 75, 250) -> avg = 116).
Proof.
  intros Hvalid Hin Hrect Hrows Hn c avg.
  pose proof (Grayscale_color_gray_of img x y Hvalid) as Hcol.
  assert (At (Out (Grayscale img)) x y = mkRGBA64 avg avg avg (A c)) as Hseq.
  { unfold Grayscale.
    rewrite At_run_whole by (done || apply Grayscale_color_reads_In_only).
    by rewrite Hrect, Hin. }
  split_and!; [done|done| |].
  - exists (Grayscale img). split; [|done].
    unfold BSPGrayscale, Grayscale. rewrite Hrect.
    apply BSP_any_schedule;
      [apply Grayscale_color_reads_In_only|done..|apply in_order_schedule].
  - subst avg. intros [= -> -> ->]. reflexivity.
Qed.

Lemma grayscale_truncated_average_witness :
  let c := At (In example_image) 0 0 in
  let avg := (R c + G c + B c) ÷ 3 in
  Grayscale_color example_image 0 0 = mkRGBA64 avg avg avg (A c) /\
  At (Out (Grayscale example_image)) 0 0 = mkRGBA64 avg avg avg (A c) /\
  (exists img', BSPGrayscale example_image 2 = Done img' /\
                At (Out img') 0 0 = mkRGBA64 avg avg avg (A c)) /\
  ((R c, G c, B c) = (25, 75, 250) -> avg = 116).
Proof.
  apply (grayscale_truncated_average example_image 0 0 2).
  - vm_compute. intuition discriminate.
  - reflexivity.
  - reflexivity.
  - vm_compute. intuition discriminate.
  - unfold int_max. lia.
Defined.

End PngFacts.

(** ** The work-stealing deque *)

Module DequeFacts.

Import Deque.

Section facts.
Context {T : Type}.

Lemma exec_access (p : prog T) (d : Deque T) :
  exec p d =
    match p with
    | Return r => Finished d r
    | OutOfFuel => Unfinished
    | _ => match access p d with
           | Some (d', p') => exec p' d'
           | None => NilPanic
           end
    end.
Proof.
  destruct p as [r| |t k|k|k|[a|] k|[a|] k|[a|] old new k|old new k|old new k];
    simpl; try done.
  - by destruct (nodes d !! a).
  - by destruct (nodes d !! a).
  - destruct (nodes d !! a) as [n|]; simpl; [|done]. by case_decide.
  - by case_decide.
  - by case_decide.
Qed.

Lemma linear_nodes_length (ts : list T) : length (linear_nodes ts) = S (length ts).
Proof. unfold linear_nodes. by rewrite length_fmap, length_seq. Qed.

Lemma linear_nodes_lookup (ts : list T) i :
  linear_nodes ts !! i =
    if decide (i <= length ts)%nat then Some (linear_node ts i) else None.
Proof.
  unfold linear_nodes. rewrite list_lookup_fmap. case_decide.
  - by rewrite lookup_seq_lt by lia.
  - by rewrite lookup_seq_ge by lia.
Qed.

Lemma linear_nodes_snoc (ts : list T) t :
  <[length ts := {| task := task (linear_node ts (length ts));
                    next := Some (S (length ts)) |}]>
    (linear_nodes ts ++ [ {| task := Some t; next := None |} ])
  = linear_nodes (ts ++ [t]).
Proof.
  assert (length (ts ++ [t]) = S (length ts)) as Hlen
    by (rewrite length_app; simpl; lia).
  apply list_eq. intros i.
  rewrite (linear_nodes_lookup (ts ++ [t])).
  destruct (decide (i = length ts)) as [->|Hne].
  - rewrite list_lookup_insert_eq
      by (rewrite length_app, linear_nodes_length; simpl; lia).
    rewrite decide_True by lia. unfold linear_node. cbn [task].
    rewrite decide_True by lia. f_equal. f_equal.
    destruct (length ts) as [|n] eqn:Hn; [done|].
    by rewrite lookup_app_l by lia.
  - rewrite list_lookup_insert_ne by done.
    destruct (decide (i < length ts)%nat) as [Hlt|Hge].
    + rewrite lookup_app_l by (rewrite linear_nodes_length; lia).
      rewrite linear_nodes_lookup, !decide_True by lia.
      unfold linear_node.
      rewrite !decide_True by lia. f_equal. f_equal.
      destruct i as [|j]; [done|]. by rewrite lookup_app_l by lia.
    + rewrite lookup_app_r by (rewrite linear_nodes_length; lia).
      rewrite linear_nodes_length.
      destruct (decide (i = S (length ts))) as [->|Hne'].
      * rewrite Nat.sub_diag. simpl. rewrite decide_True by lia.
        unfold linear_node.
        rewrite decide_False by lia.
        rewrite lookup_app_r by lia. by rewrite Nat.sub_diag.
      * rewrite decide_False by lia.
        apply lookup_ge_None. simpl. lia.
Qed.

Lemma linear_nodes_lookup_lt (ts : list T) i :
  (i < length ts)%nat ->
  linear_nodes ts !! i =
    Some {| task := task (linear_node ts i); next := Some (S i) |}.
Proof.
  intros Hi. rewrite linear_nodes_lookup, decide_True by lia.
  unfold linear_node. cbn [task]. by rewrite decide_True by done.
Qed.

Lemma linear_nodes_lookup_last (ts : list T) :
  linear_nodes ts !! length ts =
    Some {| task := task (linear_node ts (length ts)); next := None |}.
Proof.
  rewrite linear_nodes_lookup, decide_True by lia.
  unfold linear_node. cbn [task]. by rewrite decide_False by lia.
Qed.

Lemma linear_nodes_lookup_task (ts : list T) j x :
  ts !! j = Some x ->
  linear_nodes ts !! S j =
    Some {| task := Some x; next := next (linear_node ts (S j)) |}.
Proof.
  intros Hx. pose proof (lookup_lt_Some _ _ _ Hx).
  rewrite linear_nodes_lookup, decide_True by lia.
  unfold linear_node. cbn [next]. by rewrite Hx.
Qed.

Lemma NewDeque_linear : (NewDeque : Deque T) = linear [] 0 0.
Proof. reflexivity. Qed.

(** [Push] on a deque whose tail is the last node appends. *)
Lemma Push_linear (ts : list T) h t fuel :
  exec (Push (S fuel) t) (linear ts h (length ts)) =
    Finished (linear (ts ++ [t]) h (S (length ts))) RetUnit.
Proof.
  pose proof (linear_nodes_lookup_last ts) as Hlast.
  unfold Push. cbn [exec]. cbn [Push_loop exec linear nodes head tail].
  rewrite linear_nodes_length. cbn [mbind option_bind].
  rewrite lookup_app_l by (rewrite linear_nodes_length; lia).
  rewrite Hlast. cbn [next exec nodes head tail].
  rewrite decide_True by done. rewrite decide_True by done.
  cbn [exec nodes head tail mbind option_bind].
  rewrite lookup_app_l by (rewrite linear_nodes_length; lia).
  rewrite Hlast. cbn [next task].
  rewrite decide_True by done. cbn [exec nodes head tail].
  rewrite decide_True by done. cbn [exec].
  unfold linear. by rewrite linear_nodes_snoc.
Qed.

(** [Steal] takes the first push still in the deque. *)
Lemma Steal_linear (ts : list T) h t fuel x :
  h <> t -> ts !! h = Some x ->
  exec (Steal (S fuel)) (linear ts h t) =
    Finished (linear ts (S h) t) (RetTask (Some x) true).
Proof.
  intros Hne Hx. pose proof (lookup_lt_Some _ _ _ Hx) as Hlt.
  cbn [Steal exec linear nodes head tail mbind option_bind].
  rewrite linear_nodes_lookup_lt by done. cbn [next exec head].
  rewrite decide_False by (intros ?; done).
  rewrite decide_False by congruence.
  cbn [exec head nodes tail]. rewrite decide_True by done.
  cbn [exec nodes mbind option_bind]. unfold linear. cbn [nodes head tail].
  rewrite (linear_nodes_lookup_task _ _ _ Hx). by cbn [task exec].
Qed.

Lemma Steal_linear_empty (ts : list T) h fuel :
  (h <= length ts)%nat ->
  exec (Steal (S fuel)) (linear ts h h) =
    Finished (linear ts h h) (RetTask None false).
Proof.
  intros Hh.
  cbn [Steal exec linear nodes head tail mbind option_bind].
  rewrite linear_nodes_lookup, decide_True by lia.
  cbn [exec head]. rewrite decide_False by (intros ?; done).
  by rewrite decide_True by done.
Qed.

(** [findPrevious] walks from [c] to the node before [t]. *)
Lemma findPrevious_loop_linear (ts : list T) h t' c t fuel k :
  (c < t)%nat -> (t <= length ts)%nat -> (t - c <= fuel)%nat ->
  exec (findPrevious_loop fuel (Some c) (Some t) k) (linear ts h t') =
  exec (k (Some (t - 1)%nat)) (linear ts h t').
Proof.
  revert c. induction fuel as [|fuel IH]; intros c Hc Ht Hfuel; [lia|].
  cbn [findPrevious_loop exec linear nodes mbind option_bind].
  rewrite linear_nodes_lookup_lt by lia. cbn [next].
  destruct (decide (S c = t)) as [<-|Hne].
  - rewrite decide_True by done. by replace (S c - 1)%nat with c by lia.
  - rewrite decide_False by congruence. rewrite decide_False by done.
    apply IH; lia.
Qed.

(** [Pop] takes the last push still in the deque. *)
Lemma Pop_linear (ts : list T) h t fuel x :
  (h < S t)%nat -> ts !! t = Some x -> (S t - h <= S fuel)%nat ->
  exec (Pop (S fuel)) (linear ts h (S t)) =
    Finished (linear ts h t) (RetTask (Some x) true).
Proof.
  intros Hlt Hx Hfuel. pose proof (lookup_lt_Some _ _ _ Hx) as Hlen.
  cbn [Pop exec]. cbn [linear head tail].
  rewrite decide_False by (intros [=]; lia).
  unfold findPrevious. cbn [exec]. cbn [linear head].
  fold (linear ts h (S t)).
  rewrite findPrevious_loop_linear by lia.
  replace (S t - 1)%nat with t by lia.
  rewrite decide_False by done.
  cbn [exec linear tail]. rewrite decide_True by done.
  cbn [exec nodes mbind option_bind]. unfold linear. cbn [nodes head tail].
  rewrite (linear_nodes_lookup_task _ _ _ Hx). by cbn [task exec].
Qed.

Lemma Pop_linear_empty (ts : list T) h fuel :
  exec (Pop (S fuel)) (linear ts h h) =
    Finished (linear ts h h) (RetTask None false).
Proof. cbn [Pop exec linear head tail]. by rewrite decide_True by done. Qed.

(** *** Pushes first, then [Pop] and [Steal] calls, by one goroutine *)

Lemma run_pushes (ts0 : list T) h (ts : list T) (cs : list (call T)) :
  run_calls (linear ts0 h (length ts0)) ((CallPush <$> ts) ++ cs) =
  run_calls (linear (ts0 ++ ts) h (length (ts0 ++ ts))) cs.
Proof.
  revert ts0. induction ts as [|t ts IH]; intros ts0.
  - by rewrite app_nil_r.
  - rewrite fmap_cons, <- app_comm_cons. cbn [run_calls call_prog].
    unfold fuel_of at 1. rewrite Push_linear.
    replace (S (length ts0)) with (length (ts0 ++ [t]))
      by (rewrite length_app; simpl; lia).
    rewrite IH. rewrite <- app_assoc. simpl.
    by destruct (run_calls _ cs) as [[d tasks]|].
Qed.

Lemma run_takes (ts : list T) h t (cs : list (call T)) :
  Forall is_take cs -> (h <= t)%nat -> (t <= length ts)%nat ->
  exists d, run_calls (linear ts h t) cs =
              Some (d, omap (fun i => ts !! i) (take_indices h t cs)).
Proof.
  intros Htake. revert h t.
  induction Htake as [|c cs Hc _ IH]; intros h t Hht Ht.
  - by eexists.
  - destruct c as [x| |]; [done| |]; cbn [run_calls call_prog take_indices];
      unfold fuel_of at 1.
    + destruct (decide (h = t)) as [->|Hne].
      * rewrite Pop_linear_empty.
        destruct (IH t t) as [d ->]; [lia..|]. by eexists.
      * destruct t as [|t]; [lia|].
        destruct (lookup_lt_is_Some_2 ts t) as [x Hx]; [lia|].
        rewrite (Pop_linear _ _ _ _ x)
          by (done || lia || (cbn [linear nodes]; rewrite linear_nodes_length; lia)).
        destruct (IH h t) as [d ->]; [lia..|].
        eexists. cbn [omap list_omap mbind option_bind delivered].
        replace (S t - 1)%nat with t by lia. by rewrite Hx.
    + destruct (decide (h = t)) as [->|Hne].
      * rewrite Steal_linear_empty by done.
        destruct (IH t t) as [d ->]; [lia..|]. by eexists.
      * destruct (lookup_lt_is_Some_2 ts h) as [x Hx]; [lia|].
        rewrite (Steal_linear _ _ _ _ x) by done.
        destruct (IH (S h) t) as [d ->]; [lia..|].
        eexists. cbn [omap list_omap mbind option_bind delivered].
        by rewrite Hx.
Qed.

Lemma take_indices_bounds h t (cs : list (call T)) i :
  (h <= t)%nat -> i ∈ take_indices h t cs -> (h <= i < t)%nat.
Proof.
  revert h t. induction cs as [|c cs IH]; intros h t Hht; cbn [take_indices].
  - by intros ?%elem_of_nil.
  - destruct c as [x| |]; [by apply IH| |]; case_decide; try (by apply IH).
    + intros [->|Hin]%elem_of_cons; [lia|]. apply IH in Hin; lia.
    + intros [->|Hin]%elem_of_cons; [lia|]. apply IH in Hin; lia.
Qed.

Lemma take_indices_NoDup h t (cs : list (call T)) : (h <= t)%nat -> NoDup (take_indices h t cs).
Proof.
  revert h t. induction cs as [|c cs IH]; intros h t Hht; cbn [take_indices].
  - constructor.
  - destruct c as [x| |]; [by apply IH| |]; case_decide; try (by apply IH).
    + constructor; [|apply IH; lia].
      intros Hin%take_indices_bounds; lia.
    + constructor; [|apply IH; lia].
      intros Hin%take_indices_bounds; lia.
Qed.

Lemma take_indices_length h t (cs : list (call T)) :
  Forall is_take cs -> (h <= t)%nat ->
  length (take_indices h t cs) = Nat.min (t - h) (length cs).
Proof.
  intros Htake. revert h t.
  induction Htake as [|c cs Hc _ IH]; intros h t Hht; cbn [take_indices].
  - simpl. lia.
  - destruct c as [x| |]; [done| |]; case_decide; subst;
      cbn [length]; rewrite IH by lia; lia.
Qed.

(** When every push on a new deque comes before the first [Pop] or [Steal]
    and the calls do not overlap, each call that finds the deque not empty
    delivers a push no other call delivers, [Pop] the last one still there
    and [Steal] the first; as many tasks are delivered as there are pushes
    or calls, whichever is fewer. *)
Theorem pushes_then_takes (ts : list T) (cs : list (call T)) :
  Forall is_take cs ->
  let ixs := take_indices 0 (length ts) cs in
  (exists d, run_calls NewDeque ((CallPush <$> ts) ++ cs) =
               Some (d, omap (fun i => ts !! i) ixs)) /\
  NoDup ixs /\
  (forall i, i ∈ ixs -> (i < length ts)%nat) /\
  length ixs = Nat.min (length ts) (length cs).
Proof.
  intros Htake ixs. split_and!.
  - rewrite NewDeque_linear.
    change (linear [] 0 0) with (linear (@nil T) 0 (length (@nil T))).
    rewrite run_pushes. rewrite app_nil_l.
    apply run_takes; [done|lia..].
  - apply take_indices_NoDup. lia.
  - intros i Hi. apply take_indices_bounds in Hi; lia.
  - unfold ixs. rewrite take_indices_length by (done || lia). lia.
Qed.

Lemma omap_rev {A B : Type} (f : A -> option B) (l : list A) :
  omap f (rev l) = rev (omap f l).
Proof.
  induction l as [|a l IH]; [done|].
  cbn [rev]. rewrite omap_app, IH. simpl.
  destruct (f a); simpl; by rewrite ?app_nil_r.
Qed.

Lemma omap_lookup_seq (ts : list T) :
  omap (fun i => ts !! i) (seq 0 (length ts)) = ts.
Proof.
  induction ts as [|x ts IH] using rev_ind; [done|].
  rewrite length_app, Nat.add_comm. cbn [length Nat.add].
  rewrite seq_S, omap_app. simpl.
  rewrite lookup_app_r, Nat.sub_diag by lia. simpl. f_equal.
  rewrite <- IH at 2.
  apply list_omap_ext, Forall2_same_length_lookup_2; [done|].
  intros i j j' [-> Hi]%lookup_seq [-> _]%lookup_seq. simpl.
  by rewrite lookup_app_l by lia.
Qed.

Lemma take_indices_pops h k :
  take_indices (T := T) h (h + k) (replicate k CallPop) = rev (seq h k).
Proof.
  induction k as [|k IH]; [done|].
  cbn [replicate take_indices]. rewrite decide_False by lia.
  replace (h + S k - 1)%nat with (h + k)%nat by lia.
  by rewrite IH, seq_S, rev_app_distr.
Qed.

Lemma take_indices_steals h k :
  take_indices (T := T) h (h + k) (replicate k CallSteal) = seq h k.
Proof.
  revert h. induction k as [|k IH]; intros h; [done|].
  cbn [replicate take_indices seq]. rewrite decide_False by lia.
  f_equal. rewrite <- IH. f_equal. lia.
Qed.

Lemma replicate_is_take (c : call T) n : is_take c -> Forall is_take (replicate n c).
Proof. intros Hc. induction n; by constructor. Qed.

(** As many [Pop] calls as there were pushes return the tasks in the reverse
    of the order they were pushed in. *)
Lemma pops_after_pushes (ts : list T) :
  exists d, run_calls NewDeque ((CallPush <$> ts) ++ replicate (length ts) CallPop)
            = Some (d, rev ts).
Proof.
  destruct (pushes_then_takes ts (replicate (length ts) CallPop))
    as ([d Hrun] & _); [by apply replicate_is_take|].
  exists d. rewrite Hrun.
  pose proof (take_indices_pops 0 (length ts)) as Hixs. cbn [Nat.add] in Hixs.
  by rewrite Hixs, omap_rev, omap_lookup_seq.
Qed.

(** As many [Steal] calls as there were pushes return the tasks in the order
    they were pushed in. *)
Lemma steals_after_pushes (ts : list T) :
  exists d, run_calls NewDeque ((CallPush <$> ts) ++ replicate (length ts) CallSteal)
            = Some (d, ts).
Proof.
  destruct (pushes_then_takes ts (replicate (length ts) CallSteal))
    as ([d Hrun] & _); [by apply replicate_is_take|].
  exists d. rewrite Hrun.
  pose proof (take_indices_steals 0 (length ts)) as Hixs. cbn [Nat.add] in Hixs.
  by rewrite Hixs, omap_lookup_seq.
Qed.

End facts.

(** C2. On a new deque used by one goroutine: after [Push A], [Push B],
    [Push C], three [Pop] calls return [C], then [B], then [A], and a fourth
    finds the deque empty; after the same three pushes and no [Pop], the
    first [Steal] returns [A]. *)
Theorem pop_is_lifo_steal_is_fifo {T : Type} (A B C : T) :
  exists d3 : Deque T,
    run_calls NewDeque [CallPush A; CallPush B; CallPush C] = Some (d3, []) /\
    (exists d4 d5 d6,
       exec (Pop (fuel_of d3)) d3 = Finished d4 (RetTask (Some C) true) /\
       exec (Pop (fuel_of d4)) d4 = Finished d5 (RetTask (Some B) true) /\
       exec (Pop (fuel_of d5)) d5 = Finished d6 (RetTask (Some A) true) /\
       exec (Pop (fuel_of d6)) d6 = Finished d6 (RetTask None false)) /\
    (exists d4, exec (Steal (fuel_of d3)) d3 = Finished d4 (RetTask (Some A) true)).
Proof.
  eexists. split; [lazy; reflexivity|]. split.
  - do 3 eexists. split_and!; lazy; reflexivity.
  - eexists. lazy. reflexivity.
Qed.

(** C1, on the code. A sequence of calls by one goroutine in which a task is
    returned twice: [Push A], [Pop] (returns [A]), [Push B], [Pop] (returns
    [B]), [Pop] (returns [A] again). [Pop] moves the tail back and leaves the
    link of the new tail to the popped node in place; the next [Push] finds
    that link, takes it for an append in progress and moves the tail forward
    onto the popped node, which is thereby in the deque again. *)
Theorem pop_push_redelivers {T : Type} (A B : T) :
  exists d : Deque T,
    run_calls NewDeque [CallPush A; CallPop; CallPush B; CallPop; CallPop]
      = Some (d, [A; B; A]) /\
    pushed [CallPush A; CallPop; CallPush B; CallPop; CallPop] = [A; B].
Proof. eexists. split; lazy; reflexivity. Qed.

(** The same defect with every push made before any other call, as
    [RunBSPSteal] uses the deque: the owner's [Pop] (goroutine 0) and a
    thief's [Steal] (goroutine 1) on a deque that holds the one task [A].
    The thief loads the head, the tail and the head's successor; the owner
    then runs its whole [Pop] and returns [A]; the thief finds the head
    unchanged, compares it with the tail it loaded before, moves the head
    forward and returns [A] as well. *)
Lemma steal_races_pop {T : Type} (A : T) :
  exists (d1 : Deque T) (c : config T),
    run_calls NewDeque [CallPush A] = Some (d1, []) /\
    run_schedule {| mem := d1; calls := [Pop 3; Steal 3] |}
      [1; 1; 1; 0; 0; 0; 0; 0; 0; 1; 1; 1]%nat = Some c /\
    returns c = [Some (RetTask (Some A) true); Some (RetTask (Some A) true)].
Proof. eexists _, _. split_and!; lazy; reflexivity. Qed.

End DequeFacts.

(** ** The scheduler *)

Module SchedulerFacts.

Import Go GoFacts Scheduler.

(** *** One effect *)

Lemma known_effect_cases effect :
  known_effect effect <->
  effect = "S"%string \/ effect = "E"%string \/ effect = "B"%string \/ effect = "G"%string.
Proof.
  unfold known_effect. rewrite !elem_of_cons.
  split; [|tauto]. intros [?|[?|[?|[?|?%elem_of_nil]]]]; tauto.
Qed.

Lemma apply_effect_unknown img effect threads :
  ~ known_effect effect -> apply_effect img effect threads = Panic UnknownEffect.
Proof.
  rewrite known_effect_cases. intros Hunk. unfold apply_effect.
  repeat case_decide; tauto.
Qed.

(** A sliced effect ends in the divide-by-zero panic, returns, or hangs. *)
Lemma BSP_not_UnknownEffect color img numThreads sched :
  Png.BSP color img numThreads sched <> Panic UnknownEffect.
Proof. unfold Png.BSP. repeat case_match; done. Qed.

Lemma apply_effect_known_not_unknown img effect threads :
  known_effect effect -> apply_effect img effect threads <> Panic UnknownEffect.
Proof.
  rewrite known_effect_cases. intros Hk. unfold apply_effect.
  repeat case_decide; try tauto; apply BSP_not_UnknownEffect.
Qed.

Lemma BSP_returns color img numThreads :
  Png.reads_In_only color ->
  Png.rows_fit (Png.Bounds img) -> 1 <= numThreads < int_max ->
  exists img', Png.BSP color img numThreads
                 (Png.in_order (Png.Bounds img) numThreads) = Done img' /\
               Png.Bounds img' = Png.Bounds img.
Proof.
  intros Hcol Hrows Hn. eexists. split.
  - apply PngFacts.BSP_any_schedule; [done..|apply PngFacts.in_order_schedule].
  - by destruct (PngFacts.run_pixels_spec color
                   (Png.band_pixels (Png.Bounds img)
                      (Png.Y (Png.Min (Png.Bounds img)))
                      (Png.Y (Png.Max (Png.Bounds img)))) img Hcol)
      as (_ & ? & _).
Qed.

Lemma apply_effect_known img effect threads :
  known_effect effect ->
  Png.rows_fit (Png.Bounds img) -> 1 <= threads < int_max ->
  exists img', apply_effect img effect threads = Done img' /\
               Png.Bounds img' = Png.Bounds img.
Proof.
  rewrite known_effect_cases. intros Hk Hrows Hn. unfold apply_effect.
  repeat case_decide; try tauto;
    apply BSP_returns;
    solve [done | apply PngFacts.convolution_color_reads_In_only
                | apply PngFacts.Grayscale_color_reads_In_only].
Qed.

Lemma applyEffectsSliced_known_not_unknown img effects threads :
  Forall known_effect effects ->
  applyEffectsSliced img effects threads <> Panic UnknownEffect.
Proof.
  intros Hk. revert img. induction Hk as [|effect rest He _ IH]; intros img; [done|].
  cbn [applyEffectsSliced].
  pose proof (apply_effect_known_not_unknown img effect threads He) as Hne.
  destruct (apply_effect img effect threads) as [img'| |]; cbn [bind]; [|done..].
  apply IH.
Qed.

(** C7. An effect list with an identifier outside "S", "E", "B", "G": with
    a worker count from 1 on, the identifiers before the first unknown one
    are applied and [applyEffectsSliced] then panics with "unknown effect";
    when the unknown identifier comes first the call panics so for any image
    and worker count. A list of identifiers of the set never ends in that
    panic. *)
Theorem unknown_effect_is_fatal
    (img : Png.Image) (before : list string) (effect : string)
    (after : list string) (threads : Z) :
  Forall known_effect before ->
  ~ known_effect effect ->
  Png.rows_fit (Png.Bounds img) ->
  1 <= threads < int_max ->
  applyEffectsSliced img (before ++ effect :: after) threads = Panic UnknownEffect /\
  (forall img' threads',
     applyEffectsSliced img' (effect :: after) threads' = Panic UnknownEffect) /\
  (forall img' threads',
     applyEffectsSliced img' before threads' <> Panic UnknownEffect).
Proof.
  intros Hbefore Hunk Hrows Hn.
  assert (forall img' threads',
     applyEffectsSliced img' (effect :: after) threads' = Panic UnknownEffect) as Hfirst.
  { intros img' threads'. cbn [applyEffectsSliced].
    by rewrite apply_effect_unknown. }
  split_and!; [|done|].
  - revert img Hrows. induction Hbefore as [|e rest He _ IH]; intros img Hrows.
    + apply Hfirst.
    + rewrite <- app_comm_cons. cbn [applyEffectsSliced].
      destruct (apply_effect_known img e threads He Hrows Hn) as (img' & -> & HB).
      cbn [bind]. destruct (rest ++ effect :: after) eqn:Hrest.
      * by destruct rest.
      * apply IH. cbn [Png.SwapBuffers Png.Bounds]. by rewrite HB.
  - intros img' threads'. by apply applyEffectsSliced_known_not_unknown.
Qed.

Lemma unknown_effect_is_fatal_witness :
  applyEffectsSliced Png.example_image
    (["G"%string; "S"%string] ++ "X"%string :: ["B"%string]) 2
    = Panic UnknownEffect /\
  (forall img' threads',
     applyEffectsSliced img' ("X"%string :: ["B"%string]) threads'
       = Panic UnknownEffect) /\
  (forall img' threads',
     applyEffectsSliced img' ["G"%string; "S"%string] threads'
       <> Panic UnknownEffect).
Proof.
  apply (unknown_effect_is_fatal Png.example_image ["G"%string; "S"%string]
           "X"%string ["B"%string] 2).
  - repeat constructor; apply known_effect_cases; tauto.
  - rewrite known_effect_cases. intros [?|[?|[?|?]]]; discriminate.
  - vm_compute. intuition discriminate.
  - unfold int_max. lia.
Defined.

(** C8. With no effect [applyEffectsSliced] returns the image as it got it,
    both buffers included, and [processImageBSP] hands the encoder the input
    buffer [Load] filled, which shows at every point of the bounds the colour
    decoded from the file. *)
Theorem no_effect_saves_input
    (img : Png.Image) (inOrig : Png.Decoded) (inPath outPath dataDir : string)
    (threads : Z) :
  applyEffectsSliced img [] threads = Done img /\
  processImageBSP inOrig
    {| InPath := inPath; OutPath := outPath; Effects := []; DataDir := dataDir |}
    threads = Done (Png.In (Png.Load inOrig)) /\
  (forall x y, Png.Point_In x y (Png.d_Bounds inOrig) = true ->
     Png.At (Png.In (Png.Load inOrig)) x y = Png.Load_color inOrig x y).
Proof.
  split_and!; [done..|].
  intros x y Hin. by rewrite PngFacts.Load_At, Hin.
Qed.

(** *** Grayscale applied twice *)

Lemma applyEffectsSliced_G img threads :
  Png.rows_fit (Png.Bounds img) -> Png.Rect (Png.Out img) = Png.Bounds img ->
  1 <= threads < int_max ->
  applyEffectsSliced img ["G"%string] threads = Done (Png.Grayscale img).
Proof.
  intros Hrows Hrect Hn. cbn [applyEffectsSliced]. unfold apply_effect.
  repeat (case_decide; [discriminate|]). rewrite decide_True by done.
  by rewrite PngFacts.BSPGrayscale_Grayscale.
Qed.

Lemma applyEffectsSliced_G_G img threads :
  Png.rows_fit (Png.Bounds img) -> Png.same_rect img ->
  1 <= threads < int_max ->
  applyEffectsSliced img ["G"%string; "G"%string] threads =
    Done (Png.Grayscale (Png.SwapBuffers (Png.Grayscale img))).
Proof.
  intros Hrows [HrIn HrOut] Hn.
  change (applyEffectsSliced img ["G"%string; "G"%string] threads) with
    (bind (apply_effect img "G" threads) (fun img =>
       applyEffectsSliced (Png.SwapBuffers img) ["G"%string] threads)).
  unfold apply_effect at 1.
  repeat (case_decide; [discriminate|]). rewrite decide_True by done.
  rewrite PngFacts.BSPGrayscale_Grayscale by done. cbn [bind].
  destruct (PngFacts.Grayscale_frame img) as (HIn & HB & _ & _).
  apply applyEffectsSliced_G; cbn [Png.SwapBuffers Png.Bounds Png.Out];
    rewrite ?HB, ?HIn; done.
Qed.

(** C9. On an image whose buffers have the rectangle [Bounds] and whose
    input channels are [uint16] values, the effect lists ["G"; "G"] and ["G"]
    both return, and their output buffers have the same rectangle and show
    the same colour at every point; the alpha of each output pixel is the
    alpha of the input pixel. *)
Theorem grayscale_twice_same_output (img : Png.Image) (threads : Z) :
  (forall x y, Png.valid_color (Png.At (Png.In img) x y)) ->
  Png.same_rect img ->
  Png.rows_fit (Png.Bounds img) ->
  1 <= threads < int_max ->
  exists once twice : Png.Image,
    applyEffectsSliced img ["G"%string] threads = Done once /\
    applyEffectsSliced img ["G"%string; "G"%string] threads = Done twice /\
    Png.Rect (Png.Out twice) = Png.Rect (Png.Out once) /\
    (forall x y, Png.At (Png.Out twice) x y = Png.At (Png.Out once) x y) /\
    (forall x y, Png.Point_In x y (Png.Bounds img) = true ->
       Png.A (Png.At (Png.Out twice) x y) = Png.A (Png.At (Png.In img) x y)).
Proof.
  intros Hvalid Hsame Hrows Hn. pose proof Hsame as [HrIn HrOut].
  exists (Png.Grayscale img), (Png.Grayscale (Png.SwapBuffers (Png.Grayscale img))).
  assert (forall x y,
    Png.At (Png.Out (Png.Grayscale (Png.SwapBuffers (Png.Grayscale img)))) x y =
    Png.At (Png.Out (Png.Grayscale img)) x y) as Hpix.
  { intros x y. apply PngFacts.Grayscale_twice_At; [done|congruence]. }
  split_and!.
  - by apply applyEffectsSliced_G.
  - by apply applyEffectsSliced_G_G.
  - destruct (PngFacts.Grayscale_frame img) as (HIn & _ & _ & HR).
    destruct (PngFacts.Grayscale_frame (Png.SwapBuffers (Png.Grayscale img)))
      as (_ & _ & _ & HR').
    rewrite HR', HR. cbn [Png.SwapBuffers Png.Out]. rewrite HIn. congruence.
  - done.
  - intros x y Hin. rewrite Hpix, PngFacts.Grayscale_At by done.
    by rewrite HrOut, Hin.
Qed.

Lemma grayscale_twice_same_output_witness :
  exists once twice : Png.Image,
    applyEffectsSliced (Png.Load Png.example_file) ["G"%string] 2 = Done once /\
    applyEffectsSliced (Png.Load Png.example_file) ["G"%string; "G"%string] 2
      = Done twice /\
    Png.Rect (Png.Out twice) = Png.Rect (Png.Out once) /\
    (forall x y, Png.At (Png.Out twice) x y = Png.At (Png.Out once) x y) /\
    (forall x y,
       Png.Point_In x y (Png.Bounds (Png.Load Png.example_file)) = true ->
       Png.A (Png.At (Png.Out twice) x y) =
         Png.A (Png.At (Png.In (Png.Load Png.example_file)) x y)).
Proof.
  apply (grayscale_twice_same_output (Png.Load Png.example_file) 2).
  - apply PngFacts.Load_valid.
  - apply PngFacts.Load_same_rect.
  - vm_compute. intuition discriminate.
  - unfold int_max. lia.
Defined.

(** The same through [processImageBSP]: the buffers handed to the encoder
    for the effect lists ["G"; "G"] and ["G"] show the same pixels. *)
Lemma processImageBSP_grayscale_twice
    (inOrig : Png.Decoded) (inPath outPath dataDir : string) (threads : Z) :
  Png.rows_fit (Png.d_Bounds inOrig) ->
  1 <= threads < int_max ->
  exists once twice : Png.RGBA64Image,
    processImageBSP inOrig
      {| InPath := inPath; OutPath := outPath;
         Effects := ["G"%string]; DataDir := dataDir |} threads = Done once /\
    processImageBSP inOrig
      {| InPath := inPath; OutPath := outPath;
         Effects := ["G"%string; "G"%string]; DataDir := dataDir |} threads
      = Done twice /\
    Png.Rect twice = Png.Rect once /\
    forall x y, Png.At twice x y = Png.At once x y.
Proof.
  intros Hrows Hn. unfold processImageBSP. cbn [Effects length Nat.ltb Nat.leb].
  set (img := set_EffectsApplied (Png.Load inOrig) true).
  assert (Png.same_rect img) as Hsame by apply PngFacts.Load_same_rect.
  assert (forall x y, Png.valid_color (Png.At (Png.In img) x y)) as Hvalid
    by apply PngFacts.Load_valid.
  pose proof Hsame as [HrIn HrOut].
  rewrite applyEffectsSliced_G, applyEffectsSliced_G_G by done. cbn [bind].
  destruct (PngFacts.Grayscale_frame img) as (HIn & _ & HE & HR).
  destruct (PngFacts.Grayscale_frame (Png.SwapBuffers (Png.Grayscale img)))
    as (_ & _ & HE' & HR').
  exists (Png.Out (Png.Grayscale img)),
         (Png.Out (Png.Grayscale (Png.SwapBuffers (Png.Grayscale img)))).
  split_and!.
  - unfold Png.Save. by rewrite HE.
  - unfold Png.Save. rewrite HE'. cbn [Png.SwapBuffers Png.EffectsApplied].
    by rewrite HE.
  - rewrite HR', HR. cbn [Png.SwapBuffers Png.Out]. rewrite HIn. congruence.
  - intros x y. apply PngFacts.Grayscale_twice_At; [done|congruence].
Qed.

(** *** Seeding the deques *)

Lemma seed_returns numWorkers workers workerIndex tasks :
  1 <= numWorkers <= int_max ->
  Z.of_nat (length workers) = numWorkers ->
  0 <= workerIndex < numWorkers ->
  Forall seeded workers ->
  exists workers',
    seed numWorkers workers workerIndex tasks = Done workers' /\
    length workers' = length workers /\ Forall seeded workers'.
Proof.
  intros Hn. revert workers workerIndex.
  induction tasks as [|task tasks IH]; intros workers workerIndex Hlen Hidx Hseeded.
  - by exists workers.
  - cbn [seed].
    destruct (Z.ltb_spec workerIndex 0); [lia|].
    destruct (Z.leb_spec (Z.of_nat (length workers)) workerIndex); [lia|].
    cbn [orb].
    destruct (lookup_lt_is_Some_2 workers (Z.to_nat workerIndex)) as [w Hw]; [lia|].
    rewrite Hw.
    destruct (proj1 (Forall_lookup _ _) Hseeded _ _ Hw) as [ts Hts].
    rewrite Hts. unfold Deque.fuel_of. rewrite DequeFacts.Push_linear.
    destruct (Z.eqb_spec numWorkers 0); [lia|].
    rewrite int_add_id by (unfold in_int, int_min, int_max in *; lia).
    rewrite Z.rem_mod_nonneg by lia.
    pose proof (Z.mod_pos_bound (workerIndex + 1) numWorkers ltac:(lia)) as Hmod.
    rewrite wrap_id by (unfold in_int, int_min, int_max in *; lia).
    destruct (IH (<[Z.to_nat workerIndex :=
                     {| id := id w;
                        deque := Deque.linear (ts ++ [task]) 0 (S (length ts)) |}]> workers)
                 ((workerIndex + 1) mod numWorkers))
      as (workers' & Hrun & Hlen' & Hseeded').
    + by rewrite length_insert.
    + done.
    + apply Forall_insert; [done|]. exists (ts ++ [task]). cbn [deque].
      by rewrite length_app, Nat.add_comm.
    + exists workers'. rewrite length_insert in Hlen'. done.
Qed.

(** With at least one worker the seeding returns: every task is pushed on
    the deque of some worker, and each deque holds pushes only. *)
Lemma RunBSPSteal_seed_returns numWorkers tasks :
  1 <= numWorkers <= int_max ->
  exists workers,
    RunBSPSteal_seed numWorkers tasks = Done workers /\
    Z.of_nat (length workers) = numWorkers /\ Forall seeded workers.
Proof.
  intros Hn. unfold RunBSPSteal_seed.
  destruct (Z.ltb_spec numWorkers 0); [lia|].
  destruct (seed_returns numWorkers (NewWorker <$> Png.range 0 numWorkers) 0 tasks)
    as (workers & Hrun & Hlen & Hseeded); [done| |lia| |].
  - unfold Png.range. rewrite length_fmap, length_seqZ. lia.
  - apply Forall_fmap, Forall_forall. intros i _. by exists [].
  - exists workers. split_and!; [done| |done].
    rewrite Hlen. unfold Png.range. rewrite length_fmap, length_seqZ. lia.
Qed.

(** *** Worker counts that are not positive *)

Lemma apply_effect_zero_workers img effect :
  known_effect effect -> apply_effect img effect 0 = Panic DivideByZero.
Proof.
  rewrite known_effect_cases. intros Hk. unfold apply_effect.
  repeat case_decide; try tauto; reflexivity.
Qed.

Lemma apply_effect_negative_workers img effect numThreads :
  in_int numThreads -> numThreads < 0 ->
  known_effect effect -> apply_effect img effect numThreads = Hang.
Proof.
  intros Hint Hneg. rewrite known_effect_cases. intros Hk. unfold apply_effect.
  repeat case_decide; try tauto; by apply PngFacts.BSP_negative_workers.
Qed.

(** [RunBSP] ends as the first effect of its first task ends, when that
    does not return. *)
Lemma RunBSP_first_effect inOrig task tasks numThreads effect effects :
  Effects task = effect :: effects ->
  forall o : outcome Png.Image,
    (forall img, o <> Done img) ->
    (forall img, apply_effect img effect numThreads = o) ->
    RunBSP inOrig (task :: tasks) numThreads
      = match o with Done _ => Done [] | Panic p => Panic p | Hang => Hang end.
Proof.
  intros Heff o Hnot Ho. cbn [RunBSP]. unfold processImageBSP.
  rewrite Heff. cbn [length Nat.ltb Nat.leb applyEffectsSliced].
  rewrite Ho. destruct o as [img| |]; [by destruct (Hnot img)|done..].
Qed.

(** Tasks without effects never reach a sliced effect: [RunBSP] loads and
    saves each of them, whatever the worker count. *)
Lemma RunBSP_no_effects inOrig tasks numThreads :
  Forall (fun task => Effects task = []) tasks ->
  RunBSP inOrig tasks numThreads
    = Done ((fun task => Png.In (Png.Load (inOrig task))) <$> tasks).
Proof.
  induction 1 as [|task tasks Heff _ IH]; [done|].
  cbn [RunBSP]. unfold processImageBSP. rewrite Heff, IH. done.
Qed.

(** C5, on the code. A negative worker count: [BSPConvolution] does not
    abort. It launches no band goroutine, and the goroutine that called it
    blocks at the barrier: the call neither panics nor returns. *)
Lemma negative_worker_count_hangs :
  Png.BSPConvolution Png.example_image Png.Sharpen_kernel (-1) = Hang /\
  ~ aborts (Png.BSPConvolution Png.example_image Png.Sharpen_kernel (-1)).
Proof.
  assert (Png.BSPConvolution Png.example_image Png.Sharpen_kernel (-1) = Hang) as H
    by (vm_compute; reflexivity).
  split; [done|]. rewrite H. by intros [p Hp].
Qed.

(** C5, as the code has it. Nothing checks the worker count; what happens
    is what the first operation that needs it does. A worker count of zero: a
    sliced effect panics on the division by zero that computes the slice
    height, and so does [RunBSP] at a first task that starts with an effect
    of the set; [RunBSPSteal] panics on the index into the empty worker slice
    when it seeds the first task, or returns at once when there is no task.
    A negative worker count: [RunBSPSteal] panics when it makes the worker
    slice, while a sliced effect launches no band goroutine and its calling
    goroutine parks at a barrier whose threshold [numThreads + 1] is not
    positive, where no wake-up releases it; [RunBSP] blocks there with it.
    Either way, [RunBSP] loads and saves tasks that have no effects without
    any abort. *)
Theorem worker_count_not_positive
    (img : Png.Image) (kernel : list float) (numThreads : Z)
    (inOrig : ImageTask -> Png.Decoded)
    (task : ImageTask) (tasks : list ImageTask) :
  in_int numThreads ->
  numThreads < 0 ->
  (Png.BSPConvolution img kernel 0 = Panic DivideByZero /\
   Png.BSPGrayscale img 0 = Panic DivideByZero /\
   (starts_with_known_effect task ->
    RunBSP inOrig (task :: tasks) 0 = Panic DivideByZero) /\
   RunBSPSteal_seed 0 (task :: tasks) = Panic IndexOutOfRange /\
   RunBSPSteal_seed 0 [] = Done []) /\
  (RunBSPSteal_seed numThreads tasks = Panic MakeSliceLen /\
   Png.BSPConvolution img kernel numThreads = Hang /\
   Png.BSPGrayscale img numThreads = Hang /\
   (starts_with_known_effect task ->
    RunBSP inOrig (task :: tasks) numThreads = Hang) /\
   forall evs s',
     Forall (fun e => Barrier.is_wake e = true) evs ->
     Barrier.run (Barrier.init (int_add numThreads 1))
       (Barrier.Arrive 0%nat :: evs) = Some s' ->
     Barrier.thr s' !! 0%nat = Some (Barrier.Parked 0)) /\
  (Forall (fun task => Effects task = []) tasks ->
   RunBSP inOrig tasks 0
     = Done ((fun task => Png.In (Png.Load (inOrig task))) <$> tasks) /\
   RunBSP inOrig tasks numThreads
     = Done ((fun task => Png.In (Png.Load (inOrig task))) <$> tasks)).
Proof.
  intros Hint Hneg. split_and!.
  - reflexivity.
  - reflexivity.
  - intros (effect & effects & Heff & Hk).
    apply (RunBSP_first_effect inOrig task tasks 0 effect effects Heff
             (Panic DivideByZero)); [done|].
    intros img'. by apply apply_effect_zero_workers.
  - reflexivity.
  - reflexivity.
  - unfold RunBSPSteal_seed. destruct (Z.ltb_spec numThreads 0); [done|lia].
  - by apply PngFacts.BSP_negative_workers.
  - by apply PngFacts.BSP_negative_workers.
  - intros (effect & effects & Heff & Hk).
    apply (RunBSP_first_effect inOrig task tasks numThreads effect effects Heff Hang);
      [done|].
    intros img'. by apply apply_effect_negative_workers.
  - intros evs s' Hwake Hrun.
    eapply BarrierFacts.alone_never_released; [|done..].
    rewrite int_add_id by (unfold in_int, int_min, int_max in *; lia). lia.
  - intros Hnone. split; by apply RunBSP_no_effects.
Qed.

Lemma worker_count_not_positive_witness :
  (Png.BSPConvolution Png.example_image Png.Blur_kernel 0 = Panic DivideByZero /\
   Png.BSPGrayscale Png.example_image 0 = Panic DivideByZero /\
   (starts_with_known_effect example_task ->
    RunBSP example_inOrig [example_task; example_copy_task] 0 = Panic DivideByZero) /\
   RunBSPSteal_seed 0 [example_task; example_copy_task] = Panic IndexOutOfRange /\
   RunBSPSteal_seed 0 [] = Done []) /\
  (RunBSPSteal_seed (-1) [example_copy_task] = Panic MakeSliceLen /\
   Png.BSPConvolution Png.example_image Png.Blur_kernel (-1) = Hang /\
   Png.BSPGrayscale Png.example_image (-1) = Hang /\
   (starts_with_known_effect example_task ->
    RunBSP example_inOrig [example_task; example_copy_task] (-1) = Hang) /\
   forall evs s',
     Forall (fun e => Barrier.is_wake e = true) evs ->
     Barrier.run (Barrier.init (int_add (-1) 1))
       (Barrier.Arrive 0%nat :: evs) = Some s' ->
     Barrier.thr s' !! 0%nat = Some (Barrier.Parked 0)) /\
  (Forall (fun task => Effects task = []) [example_copy_task] ->
   RunBSP example_inOrig [example_copy_task] 0
     = Done ((fun task => Png.In (Png.Load (example_inOrig task)))
               <$> [example_copy_task]) /\
   RunBSP example_inOrig [example_copy_task] (-1)
     = Done ((fun task => Png.In (Png.Load (example_inOrig task)))
               <$> [example_copy_task])).
Proof.
  apply (worker_count_not_positive Png.example_image Png.Blur_kernel (-1)
           example_inOrig example_task [example_copy_task]).
  - unfold in_int, int_min, int_max. lia.
  - lia.
Defined.

End SchedulerFacts.

(** ** Lists *)

Module ListFacts.

Lemma omap_insert_middle {A B : Type} (f : A -> option B) (l : list A) i x y :
  l !! i = Some x ->
  omap f l ≡ₚ option_list (f x) ++ omap f (delete i l) /\
  omap f (<[i := y]> l) ≡ₚ option_list (f y) ++ omap f (delete i l).
Proof.
  revert i. induction l as [|a l IH]; intros i Hi; [done|].
  destruct i as [|i]; cbn in Hi.
  - injection Hi as ->. cbn [delete list_delete]. split.
    + cbn [omap list_omap]. by destruct (f x).
    + change (<[0%nat := y]> (x :: l)) with (y :: l).
      cbn [omap list_omap]. by destruct (f y).
  - destruct (IH i Hi) as [IH1 IH2]. cbn [delete list_delete].
    change (<[S i := y]> (a :: l)) with (a :: <[i := y]> l).
    cbn [omap list_omap]. destruct (f a) as [b|].
    + rewrite IH1, IH2. split; apply Permutation_middle.
    + done.
Qed.

Lemma omap_insert_same {A B : Type} (f : A -> option B) (l : list A) i x y :
  l !! i = Some x -> f y = f x -> omap f (<[i := y]> l) ≡ₚ omap f l.
Proof.
  intros Hi Hf. destruct (omap_insert_middle f l i x y Hi) as [H1 H2].
  by rewrite H1, H2, Hf.
Qed.

Lemma omap_insert_new {A B : Type} (f : A -> option B) (l : list A) i x y b :
  l !! i = Some x -> f x = None -> f y = Some b ->
  omap f (<[i := y]> l) ≡ₚ omap f l ++ [b].
Proof.
  intros Hi Hx Hy. destruct (omap_insert_middle f l i x y Hi) as [H1 H2].
  rewrite H1, H2, Hx, Hy. cbn. by rewrite <- Permutation_cons_append.
Qed.

End ListFacts.

(** ** The first phase of a barrier *)

Module BarrierPhaseFacts.
Import Go Barrier BarrierPhase GoFacts.

Lemma waiting_step N a s e s' :
  1 <= N <= int_max -> 0 <= a -> a + is_arrive e < N ->
  waiting N a s -> step s e = Some s' -> waiting N (a + is_arrive e) s'.
Proof.
  intros HN Ha Hlt [Hthr Hcnt Hgen Hpark Hsize] Hstep.
  destruct e as [t|t]; cbn [step is_arrive] in *.
  - destruct (thr s !! t) as [st|] eqn:Ht.
    { rewrite (Hpark t st Ht) in Hstep. done. }
    unfold Wait_enter in Hstep. cbn [count threshold generation] in Hstep.
    rewrite Hcnt, Hthr, Hgen in Hstep.
    rewrite int_add_id in Hstep by (unfold in_int, int_min, int_max in *; lia).
    destruct (Z.eqb_spec (a + 1) N); [lia|].
    unfold Wait_recheck in Hstep. cbn [generation] in Hstep.
    injection Hstep as <-. split; cbn [bar thr count threshold generation]; try done.
    + intros t' st'. destruct (decide (t' = t)) as [->|Hne].
      * rewrite lookup_insert_eq. by intros [= <-].
      * rewrite lookup_insert_ne by done. apply Hpark.
    + rewrite map_size_insert_None by done. lia.
  - destruct (thr s !! t) as [[g|]|] eqn:Ht; [|done..].
    pose proof (Hpark t _ Ht) as [= ->].
    unfold Wait_recheck in Hstep. rewrite Hgen in Hstep. cbn in Hstep.
    injection Hstep as <-. rewrite Z.add_0_r.
    split; cbn [bar thr]; try done.
    + intros t' st'. destruct (decide (t' = t)) as [->|Hne].
      * rewrite lookup_insert_eq. by intros [= <-].
      * rewrite lookup_insert_ne by done. apply Hpark.
    + rewrite map_size_insert_Some by done. lia.
Qed.

Lemma is_arrive_nonneg e : 0 <= is_arrive e <= 1.
Proof. destruct e; cbn; lia. Qed.

Lemma waiting_run N evs :
  1 <= N <= int_max ->
  forall a s s', 0 <= a -> a + arrivals evs < N ->
    waiting N a s -> run s evs = Some s' -> waiting N (a + arrivals evs) s'.
Proof.
  intros HN. induction evs as [|e evs IH]; intros a s s' Ha Hlt Hw Hrun.
  - injection Hrun as <-. cbn [arrivals]. by rewrite Z.add_0_r.
  - cbn [run arrivals] in *. destruct (step s e) as [s1|] eqn:Hstep; [|done].
    pose proof (is_arrive_nonneg e). pose proof (BarrierFacts.arrivals_bounds evs).
    rewrite Z.add_assoc. apply (IH _ s1); [lia|lia| |done].
    apply (waiting_step N a s e s1); [done|done|lia|done|done].
Qed.

Lemma waiting_init N : waiting N 0 (init N).
Proof. split; cbn [init bar thr NewBarrier count threshold generation]; try done. Qed.

(** X1. A barrier built for [N] participants lets nobody through early and
    leaves nobody behind. While fewer than [N] goroutines have called
    [Wait], whatever wake-ups occurred, every one of them is parked and
    none has returned. When the calls so far are a multiple of [N], every
    goroutine still parked passes the loop test at its next wake-up. *)
Theorem barrier_holds_then_releases (N : Z) (evs : list event) (s : System) :
  1 <= N <= int_max ->
  Z.of_nat (length evs) < int_max ->
  run (init N) evs = Some s ->
  (arrivals evs < N ->
     generation (bar s) = 0 /\
     count (bar s) = arrivals evs /\
     Z.of_nat (size (thr s)) = arrivals evs /\
     forall t st, thr s !! t = Some st -> st = Parked 0) /\
  (arrivals evs mod N = 0 ->
     forall t g, thr s !! t = Some (Parked g) -> Wait_recheck (bar s) g = Returned).
Proof.
  intros HN Hlen Hrun. split.
  - intros Hlt.
    destruct (waiting_run N evs HN 0 (init N) s) as [_ Hc Hg Hp Hs];
      [lia|lia|apply waiting_init|done|].
    rewrite Z.add_0_l in *. done.
  - intros Hmod t g Ht.
    destruct (BarrierFacts.Inv_run N evs s HN Hlen Hrun) as [_ Hcnt _ _ Hquiet].
    rewrite Hmod in Hcnt. pose proof (Hquiet Hcnt t g Ht) as Hlt.
    unfold Wait_recheck. destruct (Z.eqb_spec g (generation (bar s))); [lia|done].
Qed.

Lemma barrier_holds_then_releases_witness :
  let s := {| bar := {| count := 2; threshold := 3; generation := 0 |};
              thr := <[5%nat := Parked 0]> (<[6%nat := Parked 0]> ∅) |} in
  (arrivals [Arrive 6; Wake 6; Arrive 5; Wake 6]%nat < 3 ->
     generation (bar s) = 0 /\
     count (bar s) = arrivals [Arrive 6; Wake 6; Arrive 5; Wake 6]%nat /\
     Z.of_nat (size (thr s)) = arrivals [Arrive 6; Wake 6; Arrive 5; Wake 6]%nat /\
     forall t st, thr s !! t = Some st -> st = Parked 0) /\
  (arrivals [Arrive 6; Wake 6; Arrive 5; Wake 6]%nat mod 3 = 0 ->
     forall t g, thr s !! t = Some (Parked g) -> Wait_recheck (bar s) g = Returned).
Proof.
  apply (barrier_holds_then_releases 3 [Arrive 6; Wake 6; Arrive 5; Wake 6]%nat).
  - unfold int_max. lia.
  - unfold int_max. simpl. lia.
  - vm_compute. reflexivity.
Defined.

End BarrierPhaseFacts.

(** ** [clamp] *)

Module ClampFacts.

Import Go Png.

Lemma SFcompare_refl_finite s m e :
  SFcompare (S754_finite s m e) (S754_finite s m e) = Some Eq.
Proof.
  cbn [SFcompare]. rewrite Z.compare_refl.
  assert (PosDef.Pos.compare_cont Eq m m = Eq) as -> by apply Pos.compare_cont_refl.
  by destruct s.
Qed.

Lemma get_sign_ltb (x : float) :
  (x =? 0)%float = false -> get_sign x = (x <? 0)%float.
Proof.
  intros Hnz.
  change (get_sign x) with ((if (x =? 0)%float then (1 / x)%float else x) <? 0)%float.
  by rewrite Hnz.
Qed.

(** A float below zero: negative infinity or a negative finite number. *)
Lemma ltb_zero_cases (x : float) :
  (x <? 0)%float = true ->
  (x =? x)%float = true /\ (x =? 0)%float = false.
Proof.
  rewrite FloatAxioms.ltb_spec, !FloatAxioms.eqb_spec.
  change (Prim2SF 0) with (S754_zero false).
  destruct (Prim2SF x) as [[]|[]| |[] m e]; unfold SFltb, SFeqb; cbn [SFcompare];
    try done.
  rewrite Z.compare_refl.
  by assert (PosDef.Pos.compare_cont Eq m m = Eq) as -> by apply Pos.compare_cont_refl.
Qed.

Lemma clamp_below (comp : float) :
  (comp <? 0)%float = true -> clamp comp = 0.
Proof.
  intros Hlt. destruct (ltb_zero_cases comp Hlt) as [Hrefl Hnz].
  unfold clamp, math_Max, is_pos_inf, is_nan.
  rewrite (get_sign_ltb comp Hnz), Hlt, Hrefl, andb_false_r.
  change (is_infinity 0 && negb (get_sign 0)) with false.
  change (negb (0 =? 0)%float) with false. cbn [orb negb].
  change (0 =? 0)%float with true. cbn [andb].
  change (get_sign 0) with false.
  by destruct (0 =? comp)%float.
Qed.

(** A float above 65535: positive infinity or a positive finite number. *)
Lemma gtb_cases (x : float) :
  (65535 <? x)%float = true ->
  (x =? x)%float = true /\ (x =? 0)%float = false /\ (0 =? x)%float = false /\
  (x <? 0)%float = false.
Proof.
  rewrite !FloatAxioms.ltb_spec, !FloatAxioms.eqb_spec.
  change (Prim2SF 0) with (S754_zero false).
  change (Prim2SF 65535) with (S754_finite false 9007061815787520 (-37)).
  destruct (Prim2SF x) as [[]|[]| |[] m e]; unfold SFltb, SFeqb; cbn [SFcompare];
    try done.
  intros _. rewrite Z.compare_refl.
  by assert (PosDef.Pos.compare_cont Eq m m = Eq) as -> by apply Pos.compare_cont_refl.
Qed.

Lemma clamp_above (comp : float) :
  (65535 <? comp)%float = true -> clamp comp = 65535.
Proof.
  intros Hgt. destruct (gtb_cases comp Hgt) as (Hrefl & Hnz & Hzn & Hlt).
  unfold clamp, math_Max, is_pos_inf, is_nan.
  rewrite (get_sign_ltb comp Hnz), Hlt, Hrefl, Hzn.
  change (is_infinity 0 && negb (get_sign 0)) with false.
  change (negb (0 =? 0)%float) with false. cbn [orb negb andb].
  rewrite andb_true_r, andb_false_r.
  destruct (is_infinity comp) eqn:Hinf; [vm_compute; reflexivity|].
  unfold math_Min, is_neg_inf, is_nan.
  rewrite (get_sign_ltb comp Hnz), Hlt, Hrefl, Hgt, Hinf.
  change (is_infinity 65535 && get_sign 65535) with false.
  change (negb (65535 =? 65535)%float) with false.
  change (65535 =? 0)%float with false. cbn [orb andb negb].
  vm_compute. reflexivity.
Qed.

Lemma clamp_is_uint16 (comp : float) : is_uint16 (clamp comp).
Proof. apply PngFacts.uint16_is_uint16. Qed.

Lemma digits2_pos_bound (m : positive) : Z.pos m < 2 ^ Z.pos (digits2_pos m).
Proof.
  induction m as [m IH|m IH|]; cbn [digits2_pos]; [| |done].
  - rewrite Pos2Z.inj_succ, Z.pow_succ_r by lia. lia.
  - rewrite Pos2Z.inj_succ, Z.pow_succ_r by lia. lia.
Qed.

Lemma valid_mantissa_bound (x : float) (s : bool) (m : positive) (e : Z) :
  Prim2SF x = S754_finite s m e -> Z.pos m < 2 ^ 53.
Proof.
  intros E. pose proof (Prim2SF_valid x) as Hv. rewrite E in Hv.
  cbn [SpecFloat.valid_binary] in Hv. unfold bounded, canonical_mantissa, fexp in Hv.
  apply andb_true_iff in Hv as [Hc _]. apply Z.eqb_eq in Hc.
  pose proof (digits2_pos_bound m) as Hd.
  assert (Z.pos (digits2_pos m) <= 53) as Hle.
  { change prec with 53 in Hc.
    change (IntDef.Z.max ?a ?b) with (Z.max a b) in Hc. lia. }
  eapply Z.lt_le_trans; [exact Hd|]. apply Z.pow_le_mono_r; lia.
Qed.

(** A float from 0 to 65535: a zero, or a positive finite number whose
    exponent is at most that of 65535. *)
Lemma in_range_cases (x : float) :
  (0 <=? x)%float = true -> (x <=? 65535)%float = true ->
  ((x =? x)%float = true /\ (x <? 0)%float = false /\ (65535 <? x)%float = false /\
   is_infinity x = false) /\
  ((exists s, Prim2SF x = S754_zero s) \/
   ((x =? 0)%float = false /\ (0 =? x)%float = false /\
    exists m e, Prim2SF x = S754_finite false m e /\ e <= -37)).
Proof.
  unfold is_infinity.
  rewrite !FloatAxioms.leb_spec, !FloatAxioms.ltb_spec, !FloatAxioms.eqb_spec, abs_spec.
  change (Prim2SF 0) with (S754_zero false).
  change (Prim2SF infinity) with (S754_infinity false).
  change (Prim2SF 65535) with (S754_finite false 9007061815787520 (-37)).
  destruct (Prim2SF x) as [[]|[]| |[] m e]; unfold SFleb, SFltb, SFeqb;
    cbn [SFcompare SFabs].
  all: try (intros; discriminate).
  - intros _ _. split; [by split_and!|]. left. by eexists.
  - intros _ _. split; [by split_and!|]. left. by eexists.
  - set (m0 := 9007061815787520%positive). intros _.
    rewrite Z.compare_refl.
    assert (PosDef.Pos.compare_cont Eq m m = Eq) as -> by apply Pos.compare_cont_refl.
    assert (PosDef.Pos.compare_cont Eq m0 m = CompOpp (PosDef.Pos.compare_cont Eq m m0))
      as -> by (symmetry; apply (Pos.compare_cont_antisym m m0 Eq)).
    rewrite (Z.compare_antisym e (-37)).
    destruct (e ?= -37) eqn:He; cbn [CompOpp].
    + apply Z.compare_eq in He. intros Hm. split.
      * split_and!; [reflexivity|reflexivity| |reflexivity].
        destruct (PosDef.Pos.compare_cont Eq m m0);
          [reflexivity|reflexivity|discriminate].
      * right. split_and!; [reflexivity|reflexivity|].
        exists m, e. split; [reflexivity|]. rewrite He. reflexivity.
    + intros _. split; [split_and!; reflexivity|].
      right. split_and!; [reflexivity|reflexivity|].
      exists m, e. split; [reflexivity|]. apply Z.compare_lt_iff in He.
      apply Z.lt_le_incl. exact He.
    + intros Hm. discriminate.
Qed.

Lemma clamp_in_range (comp : float) :
  (0 <=? comp)%float = true -> (comp <=? 65535)%float = true ->
  clamp comp = trunc_float comp /\ 0 <= trunc_float comp <= 65535.
Proof.
  intros H0 H1.
  destruct (in_range_cases comp H0 H1) as ((Hrefl & Hlt & Hgt & Hinf) & Hcases).
  assert (0 <= trunc_float comp <= 65535) as Hrange.
  { unfold trunc_float. destruct Hcases as [[s ->]|(_ & _ & m & e & E & He)]; [lia|].
    rewrite E. pose proof (valid_mantissa_bound _ _ _ _ E) as Hm.
    destruct (Z.leb_spec 0 e); [lia|].
    rewrite Z.shiftr_div_pow2 by lia. split; [apply Z.div_pos; lia|].
    assert (Z.pos m / 2 ^ (- e) < 65536); [|lia].
    apply Z.div_lt_upper_bound; [lia|].
    eapply Z.lt_le_trans; [exact Hm|].
    change 65536 with (2 ^ 16). rewrite <- Z.pow_add_r by lia.
    apply Z.pow_le_mono_r; lia. }
  split; [|done].
  assert (uint16_of_float64 comp = trunc_float comp) as Hu.
  { unfold uint16_of_float64, uint16. apply Z.mod_small. lia. }
  rewrite <- Hu.
  unfold clamp, math_Max, is_pos_inf, is_nan.
  rewrite Hinf, Hlt, Hrefl.
  change (is_infinity 0 && negb (get_sign 0)) with false.
  change (negb (0 =? 0)%float) with false.
  change (0 =? 0)%float with true.
  change (get_sign 0) with false. cbn [orb negb andb].
  assert (forall y, (y =? y)%float = true -> (y <? 0)%float = false ->
            (65535 <? y)%float = false -> is_infinity y = false ->
            uint16_of_float64 (math_Min 65535 y) = uint16_of_float64 y) as Hmin.
  { intros y Hy1 Hy2 Hy3 Hy4. unfold math_Min, is_neg_inf, is_nan.
    rewrite Hy1, Hy3, Hy4.
    change (is_infinity 65535 && get_sign 65535) with false.
    change (negb (65535 =? 65535)%float) with false.
    change (65535 =? 0)%float with false. done. }
  destruct Hcases as [[s E]|(Hnz & Hzn & _)].
  - assert ((0 =? comp)%float = true) as ->.
    { rewrite FloatAxioms.eqb_spec, E. by destruct s. }
    rewrite Hmin by done.
    unfold uint16_of_float64, trunc_float. rewrite E. done.
  - rewrite Hzn. by rewrite Hmin.
Qed.

(** X2. [clamp] saturates and never wraps around: a number below 0 gives 0,
    a number above 65535 gives 65535 (the infinities included), and a number
    from 0 to 65535 gives its integer part, so that the conversion to
    [uint16] is always applied to a number it can represent. *)
Theorem clamp_saturates (comp : float) :
  ((comp <? 0)%float = true -> clamp comp = 0) /\
  ((65535 <? comp)%float = true -> clamp comp = 65535) /\
  ((0 <=? comp)%float = true -> (comp <=? 65535)%float = true ->
     clamp comp = trunc_float comp /\ 0 <= trunc_float comp <= 65535).
Proof.
  split_and!.
  - apply clamp_below.
  - apply clamp_above.
  - apply clamp_in_range.
Qed.

End ClampFacts.

(** ** The neighbourhood of a pixel *)

Module NeighbourhoodFacts.
Import Go Png Neighbourhood.

Lemma Point_In_guard x y bounds :
  (x <? X (Min bounds)) || (X (Max bounds) <=? x)
    || (y <? Y (Min bounds)) || (Y (Max bounds) <=? y)
  = negb (Point_In x y bounds).
Proof. unfold Point_In. lia. Qed.

Lemma neighbourhood_eq x y :
  neighbourhood x y =
    [ (int_add x (-1), int_add y (-1)); (int_add x 0, int_add y (-1));
      (int_add x 1, int_add y (-1));
      (int_add x (-1), int_add y 0); (int_add x 0, int_add y 0);
      (int_add x 1, int_add y 0);
      (int_add x (-1), int_add y 1); (int_add x 0, int_add y 1);
      (int_add x 1, int_add y 1) ].
Proof. reflexivity. Qed.

Lemma foldl_ext_in {A B : Type} (f g : A -> B -> A) (l : list B) (a : A) :
  (forall a x, x ∈ l -> f a x = g a x) -> foldl f a l = foldl g a l.
Proof.
  revert a. induction l as [|x l IH]; intros a Hfg; [done|].
  cbn [foldl]. rewrite Hfg by set_solver. apply IH. intros; apply Hfg; set_solver.
Qed.

Lemma elem_of_neighbourhood x y dx dy :
  dx ∈ range (-1) 2 -> dy ∈ range (-1) 2 ->
  (int_add x dx, int_add y dy) ∈ neighbourhood x y.
Proof.
  intros Hdx Hdy. unfold neighbourhood.
  apply list_elem_of_bind. exists dy. split; [|done].
  apply list_elem_of_bind. exists dx. split; [|done]. set_solver.
Qed.

(** [convolve] reads the image at the points of the neighbourhood only. *)
Lemma convolve_ext img1 img2 x y kernel :
  Bounds img1 = Bounds img2 ->
  Forall (fun p => At (In img1) p.1 p.2 = At (In img2) p.1 p.2) (neighbourhood x y) ->
  convolve img1 x y kernel = convolve img2 x y kernel.
Proof.
  intros Hb Hn. unfold convolve. rewrite Hb.
  set (s1 := foldl _ (0%float, 0%float, 0%float) _).
  set (s2 := foldl _ (0%float, 0%float, 0%float) _).
  assert (s1 = s2) as ->; [|done]. subst s1 s2.
  apply foldl_ext_in. intros acc dy Hdy.
  apply foldl_ext_in. intros [[sumR sumG] sumB] dx Hdx.
  pose proof (proj1 (Forall_forall _ _) Hn _ (elem_of_neighbourhood x y dx dy Hdx Hdy)) as H.
  cbn [fst snd] in H. by rewrite H.
Qed.

Lemma convolve_flat img x y kernel c :
  flat_at img x y c ->
  convolve img x y kernel =
    (flat_level kernel (R c), flat_level kernel (G c), flat_level kernel (B c)).
Proof.
  intros Hn. unfold flat_at in Hn. rewrite neighbourhood_eq in Hn.
  repeat (apply Forall_cons in Hn as [[? ?] Hn]). cbn [fst snd] in *. clear Hn.
  unfold convolve, flat_level.
  change (range (-1) 2) with [-1; 0; 1]. change (range 0 9) with [0;1;2;3;4;5;6;7;8].
  cbn [foldl].
  repeat (rewrite Point_In_guard;
          match goal with
          | H : Point_In ?a ?b _ = true |- context [Point_In ?a ?b _] => rewrite H
          end;
          match goal with
          | H : At _ ?a ?b = _ |- context [At _ ?a ?b] => rewrite H
          end;
          cbn [negb RGBA]).
  reflexivity.
Qed.

Lemma flat_level_Sharpen v : 0 <= v <= 65535 -> flat_level Sharpen_kernel v = v.
Proof.
  intros Hv.
  assert (check_range 16 0 (fun v => flat_level Sharpen_kernel v =? v) = true) as Hchk
    by (vm_compute; reflexivity).
  apply Z.eqb_eq.
  apply (PngFacts.check_range_sound _ _ _ Hchk v). change (2 ^ Z.of_nat 16) with 65536. lia.
Qed.

Lemma flat_level_EdgeDetection v : 0 <= v <= 65535 -> flat_level EdgeDetection_kernel v = 0.
Proof.
  intros Hv.
  assert (check_range 16 0 (fun v => flat_level EdgeDetection_kernel v =? 0) = true) as Hchk
    by (vm_compute; reflexivity).
  apply Z.eqb_eq.
  apply (PngFacts.check_range_sound _ _ _ Hchk v). change (2 ^ Z.of_nat 16) with 65536. lia.
Qed.

Lemma flat_level_Blur v :
  0 <= v <= 65535 -> v - 1 <= flat_level Blur_kernel v <= v.
Proof.
  intros Hv.
  assert (check_range 16 0
            (fun v => (v - 1 <=? flat_level Blur_kernel v)
                      && (flat_level Blur_kernel v <=? v)) = true) as Hchk
    by (vm_compute; reflexivity).
  pose proof (PngFacts.check_range_sound _ _ _ Hchk v) as H.
  change (2 ^ Z.of_nat 16) with 65536 in H. cbv beta in H. lia.
Qed.

(** X3. [convolution] leaves the input buffer, the bounds and the flag as
    they are, and a point of the output buffer shows afterwards the colour
    computed from the input buffer when it is inside the bounds, and no
    colour when it is not: nothing the output buffer held before is left.
    The colour has the alpha of the input pixel and channels that fit 16
    bits. *)
Theorem convolution_overwrites_output (img : Image) (kernel : list float) :
  Rect (Out img) = Bounds img ->
  (In (convolution img kernel) = In img /\
   Bounds (convolution img kernel) = Bounds img /\
   EffectsApplied (convolution img kernel) = EffectsApplied img /\
   Rect (Out (convolution img kernel)) = Rect (Out img)) /\
  (forall x y,
     At (Out (convolution img kernel)) x y =
       if Point_In x y (Bounds img) then convolution_color kernel img x y
       else mkRGBA64 0 0 0 0) /\
  (forall x y,
     valid_color (convolution_color kernel img x y) /\
     (is_uint16 (A (At (In img) x y)) ->
      A (convolution_color kernel img x y) = A (At (In img) x y))).
Proof.
  intros Hrect. split; [|split].
  - unfold convolution.
    destruct (PngFacts.run_pixels_spec (convolution_color kernel)
                (band_pixels (Bounds img) (Y (Min (Bounds img))) (Y (Max (Bounds img))))
                img (PngFacts.convolution_color_reads_In_only kernel))
      as (? & ? & ? & ? & _).
    done.
  - intros x y. unfold convolution.
    apply PngFacts.At_run_whole; [apply PngFacts.convolution_color_reads_In_only|done].
  - intros x y. unfold convolution_color.
    destruct (convolve img x y kernel) as [[r g] b] eqn:Hc.
    unfold convolve in Hc.
    destruct (foldl _ _ _) as [[sumR sumG] sumB]. injection Hc as <- <- <-.
    cbn [RGBA]. split.
    + unfold valid_color. cbn [R G B A].
      split_and!; apply PngFacts.uint16_is_uint16.
    + intros Ha. cbn [A]. unfold uint16. apply Z.mod_small.
      unfold is_uint16 in Ha. lia.
Qed.

Lemma convolution_overwrites_output_witness :
  (In (convolution example_image Blur_kernel) = In example_image /\
   Bounds (convolution example_image Blur_kernel) = Bounds example_image /\
   EffectsApplied (convolution example_image Blur_kernel) = EffectsApplied example_image /\
   Rect (Out (convolution example_image Blur_kernel)) = Rect (Out example_image)) /\
  (forall x y,
     At (Out (convolution example_image Blur_kernel)) x y =
       if Point_In x y (Bounds example_image)
       then convolution_color Blur_kernel example_image x y
       else mkRGBA64 0 0 0 0) /\
  (forall x y,
     valid_color (convolution_color Blur_kernel example_image x y) /\
     (is_uint16 (A (At (In example_image) x y)) ->
      A (convolution_color Blur_kernel example_image x y)
        = A (At (In example_image) x y))).
Proof.
  apply (convolution_overwrites_output example_image Blur_kernel).
  reflexivity.
Defined.

(** X4. [convolve] reads the input buffer at the nine points of the
    neighbourhood only: two images with the same bounds that show the same
    colours there give the same result. *)
Theorem convolve_reads_neighbourhood_only
    (img1 img2 : Image) (x y : Z) (kernel : list float) :
  Bounds img1 = Bounds img2 ->
  Forall (fun p => At (In img1) p.1 p.2 = At (In img2) p.1 p.2) (neighbourhood x y) ->
  convolve img1 x y kernel = convolve img2 x y kernel.
Proof. apply convolve_ext. Qed.

Lemma convolve_reads_neighbourhood_only_witness :
  convolve (Load example_file) 0 0 Sharpen_kernel
    = convolve (Load example_file') 0 0 Sharpen_kernel.
Proof.
  apply (convolve_reads_neighbourhood_only (Load example_file) (Load example_file') 0 0
           Sharpen_kernel).
  - reflexivity.
  - rewrite neighbourhood_eq. repeat constructor; vm_compute; reflexivity.
Defined.

(** X5. Where the nine points of the neighbourhood are inside the bounds and
    show one colour, [Sharpen] computes that colour again and
    [EdgeDetection] computes black; [Blur] computes, channel by channel, the
    same level or the level below it, and does lose a level for some: the
    nine products of 5 and 1/9 add up to less than 5, which [clamp] cuts
    to 4. *)
Theorem kernels_on_flat_neighbourhood (img : Image) (x y : Z) (c : RGBA64) :
  flat_at img x y c ->
  valid_color c ->
  convolve img x y Sharpen_kernel = (R c, G c, B c) /\
  convolve img x y EdgeDetection_kernel = (0, 0, 0) /\
  (exists r g b,
     convolve img x y Blur_kernel = (r, g, b) /\
     R c - 1 <= r <= R c /\ G c - 1 <= g <= G c /\ B c - 1 <= b <= B c) /\
  flat_level Blur_kernel 5 = 4.
Proof.
  intros Hflat (HR & HG & HB & _). unfold is_uint16 in *.
  rewrite !(convolve_flat _ _ _ _ _ Hflat). split_and!.
  - by rewrite !flat_level_Sharpen.
  - by rewrite !flat_level_EdgeDetection.
  - eexists _, _, _. split; [done|].
    split_and!; by apply flat_level_Blur.
  - vm_compute. reflexivity.
Qed.

Lemma kernels_on_flat_neighbourhood_witness :
  convolve (Load flat_file) 1 1 Sharpen_kernel = (5, 1000, 65535) /\
  convolve (Load flat_file) 1 1 EdgeDetection_kernel = (0, 0, 0) /\
  (exists r g b,
     convolve (Load flat_file) 1 1 Blur_kernel = (r, g, b) /\
     5 - 1 <= r <= 5 /\ 1000 - 1 <= g <= 1000 /\ 65535 - 1 <= b <= 65535) /\
  flat_level Blur_kernel 5 = 4.
Proof.
  apply (kernels_on_flat_neighbourhood (Load flat_file) 1 1 (mkRGBA64 5 1000 65535 40000)).
  - unfold flat_at. rewrite neighbourhood_eq.
    repeat constructor; vm_compute; reflexivity.
  - unfold valid_color, is_uint16. simpl. lia.
Defined.

End NeighbourhoodFacts.

(** ** The deque in the hands of one goroutine *)

Module DequeModelFacts.

Import Deque DequeModel.

Section facts.
Context {T : Type}.

(** The loop of [Push] on a store that holds the pushes [ts] and the new
    node: it moves the tail forward over every node popped before, links the
    new node after the last one and puts the tail on it. *)
Lemma Push_loop_linear (ts : list T) (x : T) h t fuel :
  (t <= length ts)%nat -> (length ts - t < fuel)%nat ->
  exec (Push_loop fuel (Some (S (length ts))))
    {| nodes := linear_nodes ts ++ [ {| task := Some x; next := None |} ];
       head := Some h; tail := Some t |}
  = Finished (linear (ts ++ [x]) h (S (length ts))) RetUnit.
Proof.
  revert t. induction fuel as [|fuel IH]; intros t Ht Hfuel; [lia|].
  cbn [Push_loop exec nodes head tail mbind option_bind].
  destruct (decide (t = length ts)) as [->|Hne].
  - pose proof (DequeFacts.linear_nodes_lookup_last ts) as Hlast.
    rewrite lookup_app_l by (rewrite DequeFacts.linear_nodes_length; lia).
    rewrite Hlast. cbn [next exec nodes head tail].
    rewrite decide_True by done. rewrite decide_True by done.
    cbn [exec nodes head tail mbind option_bind].
    rewrite lookup_app_l by (rewrite DequeFacts.linear_nodes_length; lia).
    rewrite Hlast. cbn [next task].
    rewrite decide_True by done. cbn [exec nodes head tail].
    rewrite decide_True by done. cbn [exec].
    unfold linear. by rewrite DequeFacts.linear_nodes_snoc.
  - rewrite lookup_app_l by (rewrite DequeFacts.linear_nodes_length; lia).
    rewrite DequeFacts.linear_nodes_lookup_lt by lia.
    cbn [next exec nodes head tail].
    rewrite decide_True by done. rewrite decide_False by done.
    cbn [exec tail]. rewrite decide_True by done.
    cbn [nodes head]. apply IH; lia.
Qed.

Lemma Push_linear_any (ts : list T) (x : T) h t fuel :
  (t <= length ts)%nat -> (length ts - t < fuel)%nat ->
  exec (Push fuel x) (linear ts h t)
  = Finished (linear (ts ++ [x]) h (S (length ts))) RetUnit.
Proof.
  intros Ht Hfuel. unfold Push. cbn [exec linear nodes head tail].
  rewrite DequeFacts.linear_nodes_length. by apply Push_loop_linear.
Qed.

Lemma lookup_app_Some_l (l1 l2 : list T) i :
  (i < length l1)%nat -> (l1 ++ l2) !! i = l1 !! i.
Proof. intros. by apply lookup_app_l. Qed.

Lemma index_step_well_formed (s s' : cursor) (c : call T) ixs :
  well_formed s -> index_step s c = (s', ixs) -> well_formed s'.
Proof.
  unfold well_formed. intros [H1 H2] Hstep.
  destruct c; cbn [index_step] in Hstep; repeat case_decide;
    injection Hstep as <- <-; cbn [first last count]; lia.
Qed.

Lemma index_step_bounds (s s' : cursor) (c : call T) ixs i :
  well_formed s -> index_step s c = (s', ixs) -> i ∈ ixs -> (i < count s)%nat.
Proof.
  unfold well_formed. intros [H1 H2] Hstep.
  destruct c; cbn [index_step] in Hstep; repeat case_decide;
    injection Hstep as <- <-; set_solver by lia.
Qed.

Lemma index_step_count (s s' : cursor) (c : call T) ixs :
  index_step s c = (s', ixs) -> (count s <= count s')%nat.
Proof.
  intros Hstep.
  destruct c; cbn [index_step] in Hstep; repeat case_decide;
    injection Hstep as <- <-; cbn [count]; lia.
Qed.

(** One call of one goroutine against one step of the positions. *)
Lemma exec_index_step (ts : list T) (s : cursor) (c : call T) :
  well_formed s -> count s = length ts ->
  exists r,
    exec (call_prog (fuel_of (linear ts (first s) (last s))) c)
         (linear ts (first s) (last s))
    = Finished (linear (ts ++ pushed [c])
                  (first (index_step s c).1) (last (index_step s c).1)) r /\
    delivered r = omap (fun i => ts !! i) (index_step s c).2.
Proof.
  intros [H1 H2] Hcount. unfold fuel_of. cbn [linear nodes].
  rewrite DequeFacts.linear_nodes_length.
  destruct c as [x| |]; cbn [call_prog index_step pushed omap list_omap].
  - eexists. rewrite Push_linear_any by lia.
    cbn [fst snd first last]. rewrite Hcount. split; [reflexivity|done].
  - rewrite app_nil_r. case_decide as Heq.
    + rewrite Heq, DequeFacts.Pop_linear_empty. eexists. cbn [fst snd]. rewrite Heq.
      split; [done|done].
    + destruct (last s) as [|t] eqn:Hlast; [lia|].
      destruct (lookup_lt_is_Some_2 ts t) as [x Hx]; [lia|].
      rewrite (DequeFacts.Pop_linear _ _ _ _ x) by (done || lia).
      eexists. split; [|].
      * cbn [fst first last]. by replace (S t - 1)%nat with t by lia.
      * cbn [snd omap list_omap delivered].
        replace (S t - 1)%nat with t by lia. by rewrite Hx.
  - rewrite app_nil_r. case_decide as Heq.
    + rewrite Heq, DequeFacts.Steal_linear_empty by lia.
      eexists. cbn [fst snd]. rewrite Heq. split; [done|done].
    + destruct (lookup_lt_is_Some_2 ts (first s)) as [x Hx]; [lia|].
      rewrite (DequeFacts.Steal_linear _ _ _ _ x) by done.
      eexists. split; [done|].
      cbn [snd omap list_omap delivered]. by rewrite Hx.
Qed.

Lemma pushed_cons (c : call T) (cs : list (call T)) :
  pushed (c :: cs) = pushed [c] ++ pushed cs.
Proof. unfold pushed. cbn [omap list_omap]. by destruct c. Qed.

Lemma index_step_pushed_count (s : cursor) (c : call T) :
  count (index_step s c).1 = (count s + length (pushed [c]))%nat.
Proof.
  destruct c; cbn [index_step pushed omap list_omap]; repeat case_decide;
    cbn [fst count length]; lia.
Qed.

Lemma omap_lookup_app (l1 l2 : list T) (ixs : list nat) :
  (forall i, i ∈ ixs -> (i < length l1)%nat) ->
  omap (fun i => (l1 ++ l2) !! i) ixs = omap (fun i => l1 !! i) ixs.
Proof.
  induction ixs as [|i ixs IH]; intros Hb; [done|].
  cbn [omap list_omap]. rewrite lookup_app_l by (apply Hb; set_solver).
  rewrite IH by (intros j Hj; apply Hb; set_solver). done.
Qed.

(** Calls of one goroutine from any state it can reach. *)
Lemma run_calls_index_run (ts : list T) (s : cursor) (cs : list (call T)) :
  well_formed s -> count s = length ts ->
  run_calls (linear ts (first s) (last s)) cs =
    Some (linear (ts ++ pushed cs)
            (first (index_run s cs).1) (last (index_run s cs).1),
          omap (fun i => (ts ++ pushed cs) !! i) (index_run s cs).2) /\
  well_formed (index_run s cs).1 /\
  count (index_run s cs).1 = length (ts ++ pushed cs) /\
  (forall i, i ∈ (index_run s cs).2 -> (i < length (ts ++ pushed cs))%nat).
Proof.
  revert ts s. induction cs as [|c cs IH]; intros ts s Hwf Hcount.
  - cbn [run_calls index_run pushed omap list_omap fst snd].
    rewrite app_nil_r. split_and!; [done..|]. by intros i ?%elem_of_nil.
  - cbn [run_calls index_run].
    destruct (exec_index_step ts s c Hwf Hcount) as (r & -> & Hr).
    destruct (index_step s c) as [s' ixs] eqn:Hstep. cbn [fst snd] in *.
    pose proof (index_step_well_formed _ _ _ _ Hwf Hstep) as Hwf'.
    assert (count s' = length (ts ++ pushed [c])) as Hcount'.
    { pose proof (index_step_pushed_count s c) as Hc. rewrite Hstep in Hc.
      cbn [fst] in Hc. rewrite length_app. lia. }
    destruct (IH (ts ++ pushed [c]) s' Hwf' Hcount') as (-> & Hwf'' & Hcount'' & Hb).
    destruct (index_run s' cs) as [s'' ixs'] eqn:Hrun. cbn [fst snd] in *.
    rewrite (pushed_cons c cs), !app_assoc.
    cbn [mbind option_bind].
    assert (forall i, i ∈ ixs -> (i < length ts)%nat) as Hixs.
    { intros i Hi. rewrite <- Hcount. by eapply index_step_bounds. }
    split_and!; [|done|done|].
    + f_equal. f_equal. rewrite omap_app. f_equal.
      rewrite Hr, <- app_assoc. by rewrite omap_lookup_app.
    + intros i [Hi|Hi]%elem_of_app; [|by apply Hb].
      apply Hixs in Hi. rewrite !length_app. lia.
Qed.

(** Without a [Push] after a [Pop], the pushes delivered so far are those
    before [first] and those from [last] on, each once. *)
Lemma index_run_once (popped : bool) (s : cursor) (cs : list (call T)) (pre : list nat) :
  well_formed s ->
  (popped = false -> last s = count s) ->
  no_push_after_pop popped cs = true ->
  NoDup pre ->
  (forall i, i ∈ pre <-> (i < first s \/ last s <= i < count s)%nat) ->
  NoDup (pre ++ (index_run s cs).2) /\
  (forall i, i ∈ pre ++ (index_run s cs).2 <->
     (i < first (index_run s cs).1 \/
      last (index_run s cs).1 <= i < count (index_run s cs).1)%nat).
Proof.
  revert popped s pre.
  induction cs as [|c cs IH]; intros popped s pre [H1 H2] Hpop Hcs Hnd Hpre.
  - cbn [index_run fst snd]. by rewrite app_nil_r.
  - cbn [index_run]. destruct c as [x| |]; cbn [index_step no_push_after_pop] in *.
    + apply andb_true_iff in Hcs as [Hp Hcs]. apply negb_true_iff in Hp.
      specialize (Hpop Hp).
      specialize (IH popped {| count := S (count s); first := first s;
                               last := S (count s) |} pre).
      destruct (index_run _ cs) as [s' ixs]. cbn [fst snd app] in *.
      apply IH; [split; cbn; lia|done|done|done|].
      intros i. rewrite Hpre. cbn [first last count]. lia.
    + case_decide as Heq.
      * specialize (IH true s pre).
        destruct (index_run s cs) as [s' ixs]. cbn [fst snd app] in *.
        apply IH; [done|done|done|done|done].
      * specialize (IH true {| count := count s; first := first s;
                               last := (last s - 1)%nat |} (pre ++ [(last s - 1)%nat])).
        destruct (index_run _ cs) as [s' ixs]. cbn [fst snd] in *.
        rewrite <- app_assoc in IH. cbn [app] in IH.
        apply IH; [split; cbn; lia|done|done| |].
        -- apply NoDup_app. split_and!; [done| |apply NoDup_singleton].
           intros i Hi ->%list_elem_of_singleton. apply Hpre in Hi. lia.
        -- intros i. rewrite elem_of_app, list_elem_of_singleton, Hpre.
           cbn [first last count]. lia.
    + case_decide as Heq.
      * specialize (IH popped s pre).
        destruct (index_run s cs) as [s' ixs]. cbn [fst snd app] in *.
        apply IH; [done|done|done|done|done].
      * specialize (IH popped {| count := count s; first := S (first s);
                                 last := last s |} (pre ++ [first s])).
        destruct (index_run _ cs) as [s' ixs]. cbn [fst snd] in *.
        rewrite <- app_assoc in IH. cbn [app] in IH.
        apply IH; [split; cbn; lia|done|done| |].
        -- apply NoDup_app. split_and!; [done| |apply NoDup_singleton].
           intros i Hi ->%list_elem_of_singleton. apply Hpre in Hi. lia.
        -- intros i. rewrite elem_of_app, list_elem_of_singleton, Hpre.
           cbn [first last count]. lia.
Qed.

Lemma run_calls_NewDeque (cs : list (call T)) :
  run_calls NewDeque cs =
    Some (linear (pushed cs)
            (first (index_run start cs).1) (last (index_run start cs).1),
          omap (fun i => pushed cs !! i) (index_run start cs).2) /\
  well_formed (index_run start cs).1 /\
  count (index_run start cs).1 = length (pushed cs) /\
  (forall i, i ∈ (index_run start cs).2 -> (i < length (pushed cs))%nat).
Proof.
  rewrite DequeFacts.NewDeque_linear.
  apply (run_calls_index_run [] start cs); [split; cbn; lia|done].
Qed.

Lemma IsEmpty_linear (ts : list T) h t :
  exec IsEmpty (linear ts h t) =
    Finished (linear ts h t) (RetTask None (bool_decide (h = t))).
Proof.
  cbn [IsEmpty exec linear head tail]. do 2 f_equal.
  apply bool_decide_ext. split; [by intros [= ->]|by intros ->].
Qed.

Lemma index_run_app (s : cursor) (cs1 cs2 : list (call T)) :
  index_run s (cs1 ++ cs2) =
    ((index_run (index_run s cs1).1 cs2).1,
     (index_run s cs1).2 ++ (index_run (index_run s cs1).1 cs2).2).
Proof.
  revert s. induction cs1 as [|c cs1 IH]; intros s.
  - cbn [app index_run fst snd]. by destruct (index_run s cs2).
  - cbn [app index_run]. destruct (index_step s c) as [s' ixs].
    rewrite IH. destruct (index_run s' cs1) as [s'' ixs']. cbn [fst snd].
    by rewrite app_assoc.
Qed.

Lemma index_run_pushes (s : cursor) (ts : list T) :
  last s = count s ->
  index_run s (CallPush <$> ts) =
    ({| count := (count s + length ts)%nat; first := first s;
        last := (count s + length ts)%nat |}, []).
Proof.
  revert s. induction ts as [|x ts IH]; intros s Hs.
  - cbn [fmap list_fmap index_run length]. rewrite Nat.add_0_r.
    destruct s as [n h t]. cbn in *. by subst.
  - rewrite fmap_cons. cbn [index_run index_step]. rewrite IH by done.
    cbn [count first length app]. do 2 f_equal; lia.
Qed.

Lemma index_run_pops (n h k : nat) :
  index_run (T := T) {| count := n; first := h; last := (h + k)%nat |}
    (replicate k CallPop)
  = ({| count := n; first := h; last := h |}, rev (seq h k)).
Proof.
  induction k as [|k IH]; [by rewrite Nat.add_0_r|].
  cbn [replicate index_run index_step first last count].
  rewrite decide_False by lia.
  replace (h + S k - 1)%nat with (h + k)%nat by lia. rewrite IH.
  rewrite seq_S, rev_app_distr. done.
Qed.

Lemma index_run_steals (n h k : nat) :
  index_run (T := T) {| count := n; first := h; last := (h + k)%nat |}
    (replicate k CallSteal)
  = ({| count := n; first := (h + k)%nat; last := (h + k)%nat |}, seq h k).
Proof.
  revert h. induction k as [|k IH]; intros h; [by rewrite Nat.add_0_r|].
  cbn [replicate index_run index_step first last count].
  rewrite decide_False by lia.
  replace (h + S k)%nat with (S h + k)%nat by lia. rewrite IH. done.
Qed.

Lemma pushed_app (cs1 cs2 : list (call T)) :
  pushed (cs1 ++ cs2) = pushed cs1 ++ pushed cs2.
Proof. unfold pushed. apply omap_app. Qed.

Lemma pushed_pushes (ts : list T) : pushed (CallPush <$> ts) = ts.
Proof. induction ts as [|x ts IH]; [done|]. rewrite fmap_cons. cbn. by f_equal. Qed.

Lemma pushed_takes (cs : list (call T)) : Forall is_take cs -> pushed cs = [].
Proof. induction 1 as [|c cs Hc _ IH]; [done|]. by destruct c. Qed.

End facts.

(** X8. The calls of one goroutine on a new deque all return, and they do
    what the positions say: the deque holds every node pushed so far with
    head and tail at [first] and [last], and the calls delivered the pushes
    at the positions [index_run] lists, in that order. A [Push] after a [Pop]
    puts the tail back on the last node, past every node popped before. *)
Theorem one_goroutine_follows_positions {T : Type} (cs : list (call T)) :
  let s := (index_run start cs).1 in
  let ixs := (index_run start cs).2 in
  run_calls NewDeque cs =
    Some (linear (pushed cs) (first s) (last s),
          omap (fun i => pushed cs !! i) ixs) /\
  (first s <= last s <= length (pushed cs))%nat /\
  (forall i, i ∈ ixs -> (i < length (pushed cs))%nat).
Proof.
  intros s ixs. subst s ixs.
  destruct (run_calls_NewDeque cs) as (Hrun & [H1 H2] & Hcount & Hb).
  split_and!; [done|lia|lia|done].
Qed.

(** X9. With no [Push] after a [Pop], the calls of one goroutine deliver no
    push twice, and when they leave the deque empty they have delivered
    every push. *)
Theorem no_push_after_pop_exactly_once {T : Type} (cs : list (call T)) :
  no_push_after_pop false cs = true ->
  exists (d : Deque T) (ixs : list nat),
    run_calls NewDeque cs = Some (d, omap (fun i => pushed cs !! i) ixs) /\
    NoDup ixs /\
    (forall i, i ∈ ixs -> (i < length (pushed cs))%nat) /\
    (exec IsEmpty d = Finished d (RetTask None true) ->
     ixs ≡ₚ seq 0 (length (pushed cs))).
Proof.
  intros Hcs.
  destruct (run_calls_NewDeque cs) as (Hrun & [H1 H2] & Hcount & Hb).
  destruct (index_run_once false start cs [] ltac:(split; cbn; lia)
              ltac:(done) Hcs ltac:(constructor)) as [Hnd Hin].
  { intros i. cbn. split; [by intros ?%elem_of_nil|lia]. }
  cbn [app] in Hnd, Hin.
  eexists _, _. split_and!; [exact Hrun|done|done|].
  rewrite IsEmpty_linear. intros [= Hempty%bool_decide_eq_true].
  apply NoDup_Permutation; [done|apply NoDup_seq|].
  intros i. rewrite Hin, elem_of_seq, <- Hcount. lia.
Qed.

Lemma no_push_after_pop_exactly_once_witness :
  exists (d : Deque nat) (ixs : list nat),
    run_calls NewDeque [CallPush 7; CallSteal; CallPush 8; CallPush 9; CallPop; CallSteal]%nat
      = Some (d, omap (fun i => pushed [CallPush 7; CallSteal; CallPush 8; CallPush 9;
                                        CallPop; CallSteal]%nat !! i) ixs) /\
    NoDup ixs /\
    (forall i, i ∈ ixs ->
       (i < length (pushed [CallPush 7; CallSteal; CallPush 8; CallPush 9;
                            CallPop; CallSteal]%nat))%nat) /\
    (exec IsEmpty d = Finished d (RetTask None true) ->
     ixs ≡ₚ seq 0 (length (pushed [CallPush 7; CallSteal; CallPush 8; CallPush 9;
                                   CallPop; CallSteal]%nat))).
Proof.
  apply (no_push_after_pop_exactly_once
           [CallPush 7; CallSteal; CallPush 8; CallPush 9; CallPop; CallSteal]%nat).
  reflexivity.
Defined.

(** X10. Any number of pushes, then as many [Pop] calls: the tasks come back
    last pushed first. Then as many [Steal] calls instead: first pushed
    first. The deque is empty afterwards either way. *)
Theorem pops_reverse_steals_keep_order {T : Type} (ts : list T) :
  (exists d, run_calls NewDeque ((CallPush <$> ts) ++ replicate (length ts) CallPop)
               = Some (d, rev ts) /\
             exec IsEmpty d = Finished d (RetTask None true)) /\
  (exists d, run_calls NewDeque ((CallPush <$> ts) ++ replicate (length ts) CallSteal)
               = Some (d, ts) /\
             exec IsEmpty d = Finished d (RetTask None true)).
Proof.
  split.
  - destruct (run_calls_NewDeque ((CallPush <$> ts) ++ replicate (length ts) CallPop))
      as (Hrun & _).
    rewrite index_run_app, index_run_pushes in Hrun by done.
    cbn [start count first last Nat.add fst snd app] in Hrun.
    pose proof (index_run_pops (T := T) (length ts) 0 (length ts)) as Hpops.
    cbn [Nat.add] in Hpops. rewrite Hpops in Hrun. cbn [fst snd app first last] in Hrun.
    rewrite pushed_app, pushed_pushes, (pushed_takes (replicate _ _)), app_nil_r in Hrun
      by (apply DequeFacts.replicate_is_take; done).
    rewrite DequeFacts.omap_rev, DequeFacts.omap_lookup_seq in Hrun.
    eexists. split; [exact Hrun|].
    by rewrite IsEmpty_linear, bool_decide_eq_true_2.
  - destruct (run_calls_NewDeque ((CallPush <$> ts) ++ replicate (length ts) CallSteal))
      as (Hrun & _).
    rewrite index_run_app, index_run_pushes in Hrun by done.
    cbn [start count first last Nat.add fst snd app] in Hrun.
    pose proof (index_run_steals (T := T) (length ts) 0 (length ts)) as Hsteals.
    cbn [Nat.add] in Hsteals. rewrite Hsteals in Hrun.
    cbn [fst snd app first last] in Hrun.
    rewrite pushed_app, pushed_pushes, (pushed_takes (replicate _ _)), app_nil_r in Hrun
      by (apply DequeFacts.replicate_is_take; done).
    rewrite DequeFacts.omap_lookup_seq in Hrun.
    eexists. split; [exact Hrun|].
    by rewrite IsEmpty_linear, bool_decide_eq_true_2.
Qed.

(** X11. In every state one goroutine can bring a new deque to, [IsEmpty],
    [Pop] and [Steal] agree: when [IsEmpty] says true, [Pop] and [Steal]
    return no task and leave the deque as it is; when it says false, each of
    them returns a task. *)
Theorem IsEmpty_agrees_with_Pop_and_Steal {T : Type} (cs : list (call T)) :
  exists (d : Deque T) (ts : list T) (b : bool),
    run_calls NewDeque cs = Some (d, ts) /\
    exec IsEmpty d = Finished d (RetTask None b) /\
    (b = true ->
       exec (Pop (fuel_of d)) d = Finished d (RetTask None false) /\
       exec (Steal (fuel_of d)) d = Finished d (RetTask None false)) /\
    (b = false ->
       exists d1 d2 x y,
         exec (Pop (fuel_of d)) d = Finished d1 (RetTask (Some x) true) /\
         exec (Steal (fuel_of d)) d = Finished d2 (RetTask (Some y) true)).
Proof.
  destruct (run_calls_NewDeque cs) as (Hrun & [H1 H2] & Hcount & Hb).
  eexists _, _, _. split; [exact Hrun|]. split; [apply IsEmpty_linear|].
  set (s := (index_run start cs).1) in *.
  unfold fuel_of. cbn [linear nodes]. rewrite DequeFacts.linear_nodes_length.
  split.
  - intros ->%bool_decide_eq_true.
    rewrite DequeFacts.Pop_linear_empty, DequeFacts.Steal_linear_empty by lia. done.
  - intros Hne%bool_decide_eq_false.
    destruct (last s) as [|t] eqn:Hlast; [lia|].
    destruct (lookup_lt_is_Some_2 (pushed cs) t) as [x Hx]; [lia|].
    destruct (lookup_lt_is_Some_2 (pushed cs) (first s)) as [y Hy]; [lia|].
    eexists _, _, x, y.
    rewrite (DequeFacts.Pop_linear _ _ _ _ x) by (done || lia).
    rewrite (DequeFacts.Steal_linear _ _ _ _ y) by done. done.
Qed.

End DequeModelFacts.

(** ** Thieves on one deque *)

Module ThievesFacts.

Import Deque Thieves ListFacts.

Section facts.
Context {T : Type}.

Lemma Steal_unfold (fuel : nat) :
  Steal (T := T) (S fuel) = LoadHead (fun head_ => Steal_tail fuel head_).
Proof. reflexivity. Qed.

(** A step of a thief keeps the invariant, and no thief that is not over or
    out of fuel is stuck. *)
Lemma steal_inv_step (ts : list T) h0 t c sts h i st :
  steal_inv ts h0 t c sts h ->
  sts !! i = Some st ->
  (sched_step c i = None /\
   (over (prog_of ts st) \/ prog_of ts st = OutOfFuel)) \/
  (exists c' st' h', sched_step c i = Some c' /\
                     steal_inv ts h0 t c' (<[i := st']> sts) h').
Proof.
  intros [Hmem Hh Ht Hcalls Hok Hclaims] Hi.
  pose proof (proj1 (Forall_lookup _ _) Hok _ _ Hi) as Hst.
  assert (calls c !! i = Some (prog_of ts st)) as Hp
    by (by rewrite Hcalls, list_lookup_fmap, Hi).
  assert (forall st', calls c = prog_of ts <$> sts ->
            <[i := prog_of ts st']> (calls c) = prog_of ts <$> <[i := st']> sts) as Hins
    by (intros st' ->; by rewrite list_fmap_insert).
  assert (forall st' h', (h <= h')%nat -> thief_ok h' t st' ->
            Forall (thief_ok h' t) (<[i := st']> sts)) as Hok'.
  { intros st' h' Hh' Hst'. apply Forall_insert; [|done].
    eapply Forall_impl; [exact Hok|].
    intros [] ?; cbn in *; intuition lia. }
  unfold sched_step. rewrite Hp. cbn [mbind option_bind].
  destruct st as [[|fuel]|fuel h1|fuel h1 t1|fuel h1 t1 n1|fuel h1 n1|j|j|];
    cbn [prog_of thief_ok] in *.
  - left. split; [done|by right].
  - right. rewrite Steal_unfold. cbn [access mbind option_bind].
    exists {| mem := mem c; calls := <[i := Steal_tail fuel (head (mem c))]> (calls c) |},
           (GotHead fuel h), h.
    split; [done|]. rewrite Hmem. cbn [linear head].
    split; cbn [mem calls]; [done..| | |].
    + by rewrite <- (Hins (GotHead fuel h)).
    + apply Hok'; [lia|]. cbn. lia.
    + by rewrite (omap_insert_same claim sts i _ _ Hi).
  - right. unfold Steal_tail. cbn [access mbind option_bind].
    exists {| mem := mem c;
              calls := <[i := Steal_next fuel (Some h1) (tail (mem c))]> (calls c) |},
           (GotTail fuel h1 t), h.
    split; [done|]. rewrite Hmem. cbn [linear tail].
    split; cbn [mem calls]; [done..| | |].
    + by rewrite <- (Hins (GotTail fuel h1 t)).
    + apply Hok'; [lia|]. cbn. lia.
    + by rewrite (omap_insert_same claim sts i _ _ Hi).
  - right. destruct Hst as [Hh1 ->]. unfold Steal_next.
    cbn [access mbind option_bind]. rewrite Hmem. cbn [linear nodes].
    rewrite DequeFacts.linear_nodes_lookup, decide_True by lia.
    cbn [mbind option_bind].
    eexists _, (GotNext fuel h1 t (next (linear_node ts h1))), h.
    split; [done|].
    split; cbn [mem calls]; [done..| | |].
    + by rewrite <- (Hins (GotNext fuel h1 t _)).
    + apply Hok'; [lia|]. cbn. split_and!; [lia|done|].
      intros Hlt. by rewrite decide_True by lia.
    + by rewrite (omap_insert_same claim sts i _ _ Hi).
  - right. destruct Hst as (Hh1 & -> & Hn1). unfold Steal_recheck.
    cbn [access mbind option_bind]. rewrite Hmem. cbn [linear head].
    destruct (decide (h1 = h)) as [->|Hne].
    + rewrite decide_False by (intros ?; done).
      destruct (decide (h = t)) as [->|Hne].
      * rewrite decide_True by done.
        eexists _, FoundEmpty, t. split; [done|].
        split; cbn [mem calls]; [done..| | |].
        -- by rewrite <- (Hins FoundEmpty).
        -- by apply Hok'.
        -- by rewrite (omap_insert_same claim sts i _ _ Hi).
      * rewrite decide_False by congruence.
        eexists _, (AtCAS fuel h n1), h. split; [done|].
        split; cbn [mem calls]; [done..| | |].
        -- by rewrite <- (Hins (AtCAS fuel h n1)).
        -- apply Hok'; [lia|]. cbn. split_and!; [lia|lia|apply Hn1; lia].
        -- by rewrite (omap_insert_same claim sts i _ _ Hi).
    + rewrite decide_True by congruence.
      eexists _, (AtLoop fuel), h. split; [done|].
      split; cbn [mem calls]; [done..| | |].
      * by rewrite <- (Hins (AtLoop fuel)).
      * by apply Hok'.
      * by rewrite (omap_insert_same claim sts i _ _ Hi).
  - right. destruct Hst as (Hh1 & Hlt & ->). unfold Steal_cas.
    cbn [access mbind option_bind]. rewrite Hmem. cbn [linear head nodes tail].
    destruct (decide (h1 = h)) as [->|Hne].
    + rewrite decide_True by done.
      eexists _, (AtRead h), (S h). split; [done|].
      split; cbn [mem calls]; [done|lia|done| | |].
      * by rewrite <- (Hins (AtRead h)).
      * apply Hok'; [lia|]. cbn. lia.
      * rewrite (omap_insert_new claim sts i _ _ h Hi) by done.
        rewrite Hclaims. replace (S h - h0)%nat with (S (h - h0)) by lia.
        rewrite seq_S. by replace (h0 + (h - h0))%nat with h by lia.
    + rewrite decide_False by congruence.
      eexists _, (AtLoop fuel), h. split; [done|].
      split; cbn [mem calls]; [done..| | |].
      * by rewrite <- (Hins (AtLoop fuel)).
      * by apply Hok'.
      * by rewrite (omap_insert_same claim sts i _ _ Hi).
  - right. cbn [access mbind option_bind]. rewrite Hmem. cbn [linear nodes].
    rewrite DequeFacts.linear_nodes_lookup, decide_True by lia.
    cbn [mbind option_bind linear_node task].
    eexists _, (Took j), h. split; [done|].
    split; cbn [mem calls]; [done..| | |].
    + by rewrite <- (Hins (Took j)).
    + by apply Hok'.
    + by rewrite (omap_insert_same claim sts i _ _ Hi).
  - left. split; [done|by left].
  - left. split; [done|by left].
Qed.

Lemma steal_inv_start (ts : list T) h0 t (fuels : list nat) :
  (h0 <= t <= length ts)%nat ->
  steal_inv ts h0 t {| mem := linear ts h0 t; calls := Steal <$> fuels |}
    (AtLoop <$> fuels) h0.
Proof.
  intros Hh. split; cbn [mem calls]; [done|lia|lia| | |].
  - by rewrite <- list_fmap_compose.
  - by apply Forall_fmap, Forall_true.
  - rewrite Nat.sub_diag. cbn [seq].
    induction fuels as [|f fuels IH]; [done|]. by rewrite fmap_cons.
Qed.

Lemma steal_inv_run (ts : list T) h0 t sched :
  forall c sts h c',
    steal_inv ts h0 t c sts h -> run_schedule c sched = Some c' ->
    exists sts' h', steal_inv ts h0 t c' sts' h'.
Proof.
  induction sched as [|i sched IH]; intros c sts h c' Hinv Hrun.
  - injection Hrun as <-. by eexists _, _.
  - cbn [run_schedule] in Hrun.
    destruct (sched_step c i) as [c1|] eqn:Hstep; [|done].
    cbn [mbind option_bind] in Hrun.
    assert (is_Some (sts !! i)) as [st Hst].
    { unfold sched_step in Hstep. rewrite (inv_calls _ _ _ _ _ _ Hinv) in Hstep.
      rewrite list_lookup_fmap in Hstep. by destruct (sts !! i). }
    destruct (steal_inv_step _ _ _ _ _ _ _ _ Hinv Hst)
      as [[Hnone _]|(c1' & st' & h' & Hsome & Hinv')]; [congruence|].
    rewrite Hstep in Hsome. injection Hsome as <-. by eapply IH.
Qed.

Lemma taken_thieves (ts : list T) (c : config T) (sts : list thief) :
  calls c = prog_of ts <$> sts ->
  taken c = omap (fun i => ts !! i) (omap took sts).
Proof.
  unfold taken, returns. intros ->. clear.
  induction sts as [|st sts IH]; [done|].
  rewrite !fmap_cons. cbn [mbind list_bind]. rewrite IH. clear IH.
  destruct st as [[|fuel]| | | | | |j|]; cbn [prog_of took omap list_omap]; try done.
  cbn [option_list mbind list_bind app delivered]. by destruct (ts !! j).
Qed.

Lemma omap_took_claim (sts : list thief) : omap took sts `sublist_of` omap claim sts.
Proof.
  induction sts as [|st sts IH]; [done|].
  destruct st; cbn [omap list_omap took claim]; try done.
  - by apply sublist_cons.
  - by apply sublist_skip.
Qed.

Lemma over_thieves (ts : list T) (sts : list thief) :
  Forall over (prog_of ts <$> sts) -> omap took sts = omap claim sts.
Proof.
  induction sts as [|st sts IH]; [done|].
  rewrite fmap_cons. intros [Hst Hsts]%Forall_cons.
  cbn [omap list_omap]. rewrite IH by done.
  by destruct st as [[|fuel]| | | | | | |].
Qed.

End facts.

(** X12. Thieves alone on a deque, each in a call of [Steal], under any
    schedule of their accesses to the shared memory: no access dereferences
    [nil]; the tail stays where it is and the head only moves forward; the
    calls that are over and returned a task returned pushes at positions
    between the first head and the present one, no two the same position;
    and once every call is over, each push the head went past has been
    returned by exactly one of them. *)
Theorem thieves_take_each_push_once {T : Type}
    (ts : list T) (h0 t : nat) (fuels : list nat) (sched : list nat) (c : config T) :
  (h0 <= t <= length ts)%nat ->
  run_schedule {| mem := linear ts h0 t; calls := Steal <$> fuels |} sched = Some c ->
  exists (h : nat) (ixs : list nat),
    mem c = linear ts h t /\
    (h0 <= h <= t)%nat /\
    taken c = omap (fun i => ts !! i) ixs /\
    NoDup ixs /\
    (forall i, i ∈ ixs -> (h0 <= i < h)%nat) /\
    (Forall over (calls c) -> ixs ≡ₚ seq h0 (h - h0)) /\
    (forall i p, calls c !! i = Some p -> ~ over p -> p <> OutOfFuel ->
       is_Some (sched_step c i)).
Proof.
  intros Hh Hrun.
  destruct (steal_inv_run ts h0 t sched _ _ _ _ (steal_inv_start ts h0 t fuels Hh) Hrun)
    as (sts & h & Hinv).
  pose proof Hinv as [Hmem Hh' Ht Hcalls Hok Hclaims].
  exists h, (omap took sts). split_and!; [done|lia|lia| | | | |].
  - by eapply taken_thieves.
  - eapply sublist_NoDup; [|apply omap_took_claim].
    rewrite Hclaims. apply NoDup_seq.
  - intros i Hi.
    assert (i ∈ omap claim sts) as Hi'
      by (eapply elem_of_sublist; [exact Hi|apply omap_took_claim]).
    rewrite Hclaims, elem_of_seq in Hi'. lia.
  - intros Hover. rewrite Hcalls in Hover. by rewrite (over_thieves ts).
  - intros i p Hp Hnover Hfuel.
    assert (is_Some (sts !! i)) as [st Hst].
    { rewrite Hcalls, list_lookup_fmap in Hp. by destruct (sts !! i). }
    assert (p = prog_of ts st) as ->.
    { rewrite Hcalls, list_lookup_fmap, Hst in Hp. by injection Hp. }
    destruct (steal_inv_step _ _ _ _ _ _ _ _ Hinv Hst)
      as [[_ [?|?]]|(c' & _ & _ & -> & _)]; done.
Qed.

Lemma thieves_take_each_push_once_witness :
  exists (h : nat) (ixs : list nat),
    mem example_thieves_end = linear [7; 8; 9]%nat h 3 /\
    (0 <= h <= 3)%nat /\
    taken example_thieves_end = omap (fun i => [7; 8; 9]%nat !! i) ixs /\
    NoDup ixs /\
    (forall i, i ∈ ixs -> (0 <= i < h)%nat) /\
    (Forall over (calls example_thieves_end) -> ixs ≡ₚ seq 0 (h - 0)) /\
    (forall i p, calls example_thieves_end !! i = Some p -> ~ over p -> p <> OutOfFuel ->
       is_Some (sched_step example_thieves_end i)).
Proof.
  apply (thieves_take_each_push_once [7; 8; 9]%nat 0 3 [2; 2]%nat example_schedule).
  - simpl. lia.
  - reflexivity.
Defined.

End ThievesFacts.

(** ** The effects without slices *)

Module SequentialFacts.

Import Go Scheduler Sequential.

Lemma BSPConvolution_convolution img kernel numThreads :
  Png.rows_fit (Png.Bounds img) -> 1 <= numThreads < int_max ->
  Png.BSPConvolution img kernel numThreads = Done (Png.convolution img kernel).
Proof.
  intros Hrows Hn. unfold Png.BSPConvolution.
  rewrite PngFacts.BSP_any_schedule;
    [done|apply PngFacts.convolution_color_reads_In_only|done|done|
     apply PngFacts.in_order_schedule].
Qed.

(** One sliced effect against the same effect without slices. *)
Lemma apply_effect_sliced img effect threads :
  Png.rows_fit (Png.Bounds img) -> Png.Rect (Png.Out img) = Png.Bounds img ->
  1 <= threads < int_max ->
  Scheduler.apply_effect img effect threads = sliced (Sequential.apply_effect img effect).
Proof.
  intros Hrows Hrect Hn. unfold Scheduler.apply_effect, Sequential.apply_effect.
  repeat case_decide; cbn [sliced];
    [by apply BSPConvolution_convolution..| |done].
  by apply PngFacts.BSPGrayscale_Grayscale.
Qed.

Lemma convolution_frame img kernel :
  Png.In (Png.convolution img kernel) = Png.In img /\
  Png.Bounds (Png.convolution img kernel) = Png.Bounds img /\
  Png.EffectsApplied (Png.convolution img kernel) = Png.EffectsApplied img /\
  Png.Rect (Png.Out (Png.convolution img kernel)) = Png.Rect (Png.Out img).
Proof.
  unfold Png.convolution.
  destruct (PngFacts.run_pixels_spec (Png.convolution_color kernel)
              (Png.band_pixels (Png.Bounds img)
                 (Png.Y (Png.Min (Png.Bounds img))) (Png.Y (Png.Max (Png.Bounds img))))
              img (PngFacts.convolution_color_reads_In_only kernel))
    as (? & ? & ? & ? & _).
  done.
Qed.

(** An effect without slices keeps the bounds and the rectangles of both
    buffers. *)
Lemma apply_effect_frame img effect img' :
  Sequential.apply_effect img effect = inl img' ->
  Png.In img' = Png.In img /\ Png.Bounds img' = Png.Bounds img /\
  Png.EffectsApplied img' = Png.EffectsApplied img /\
  Png.Rect (Png.Out img') = Png.Rect (Png.Out img).
Proof.
  unfold Sequential.apply_effect, Png.Sharpen, Png.EdgeDetection, Png.Blur.
  repeat case_decide; intros [= <-];
    (apply convolution_frame || apply PngFacts.Grayscale_frame).
Qed.

Lemma applyEffectsSliced_applyEffects img effects threads :
  Png.rows_fit (Png.Bounds img) -> Png.same_rect img ->
  1 <= threads < int_max ->
  applyEffectsSliced img effects threads = sliced (applyEffects img effects).
Proof.
  intros Hrows Hrect Hn. revert img Hrows Hrect.
  induction effects as [|effect rest IH]; intros img Hrows [HIn HOut]; [done|].
  cbn [applyEffectsSliced applyEffects].
  rewrite apply_effect_sliced by done.
  destruct (Sequential.apply_effect img effect) as [img'|msg] eqn:Heff; [|done].
  cbn [sliced bind].
  destruct (apply_effect_frame _ _ _ Heff) as (HIn' & HB & _ & HOut').
  apply IH.
  - destruct rest; cbn [Png.SwapBuffers Png.Bounds]; by rewrite HB.
  - destruct rest; unfold Png.same_rect; cbn [Png.SwapBuffers Png.In Png.Out Png.Bounds];
      rewrite ?HIn', ?HOut', HB; done.
Qed.

Lemma processImageBSP_processImageTask inOrig task threads :
  Png.rows_fit (Png.d_Bounds inOrig) -> 1 <= threads < int_max ->
  processImageBSP inOrig task threads = sliced (processImageTask inOrig task).
Proof.
  intros Hrows Hn. unfold processImageBSP, processImageTask.
  destruct (0 <? length (Effects task))%nat; [|done].
  rewrite applyEffectsSliced_applyEffects; [|done|apply PngFacts.Load_same_rect|done].
  by destruct (applyEffects _ _).
Qed.

(** X6. For every list of effects and every worker count from 1 on, the sliced
    effects applied in turn end as the effects without slices do: with the
    same image, both buffers included, or with the panic for the first
    effect that is not of the set. So does the processing of a task from the
    decoded file to the buffer that is saved. *)
Theorem sliced_pipeline_refines_sequential
    (img : Png.Image) (inOrig : Png.Decoded) (task : ImageTask)
    (effects : list string) (threads : Z) :
  Png.rows_fit (Png.Bounds img) -> Png.same_rect img ->
  Png.rows_fit (Png.d_Bounds inOrig) ->
  1 <= threads < int_max ->
  applyEffectsSliced img effects threads = sliced (applyEffects img effects) /\
  processImageBSP inOrig task threads = sliced (processImageTask inOrig task).
Proof.
  intros. split.
  - by apply applyEffectsSliced_applyEffects.
  - by apply processImageBSP_processImageTask.
Qed.

Lemma sliced_pipeline_refines_sequential_witness :
  applyEffectsSliced Png.example_image ["B"; "G"; "S"]%string 2
    = sliced (applyEffects Png.example_image ["B"; "G"; "S"]%string) /\
  processImageBSP Png.example_file example_task 2
    = sliced (processImageTask Png.example_file example_task).
Proof.
  apply (sliced_pipeline_refines_sequential Png.example_image Png.example_file
           example_task ["B"; "G"; "S"]%string 2).
  - unfold Png.rows_fit, in_int, int_min, int_max. simpl. lia.
  - apply PngFacts.Load_same_rect.
  - unfold Png.rows_fit, in_int, int_min, int_max. simpl. lia.
  - unfold int_max. lia.
Defined.

Lemma RunBSP_any_count inOrig tasks n1 n2 :
  Forall (fun task => Png.rows_fit (Png.d_Bounds (inOrig task))) tasks ->
  1 <= n1 < int_max -> 1 <= n2 < int_max ->
  RunBSP inOrig tasks n1 = RunBSP inOrig tasks n2.
Proof.
  intros Hrows Hn1 Hn2. induction Hrows as [|task tasks Htask _ IH]; [done|].
  cbn [RunBSP]. rewrite IH.
  by rewrite !processImageBSP_processImageTask by done.
Qed.

(** X7. The saved image does not depend on the worker count: from 1 on, any
    two counts give the same buffer for a task, and [RunBSP] the same
    buffers for a list of tasks. *)
Theorem worker_count_does_not_change_output
    (inOrig : ImageTask -> Png.Decoded) (tasks : list ImageTask) (n1 n2 : Z) :
  Forall (fun task => Png.rows_fit (Png.d_Bounds (inOrig task))) tasks ->
  1 <= n1 < int_max -> 1 <= n2 < int_max ->
  (forall task, task ∈ tasks ->
     processImageBSP (inOrig task) task n1 = processImageBSP (inOrig task) task n2) /\
  RunBSP inOrig tasks n1 = RunBSP inOrig tasks n2.
Proof.
  intros Hrows Hn1 Hn2. split.
  - intros task Htask.
    pose proof (proj1 (Forall_forall _ _) Hrows _ Htask).
    by rewrite !processImageBSP_processImageTask by done.
  - by apply RunBSP_any_count.
Qed.

Lemma worker_count_does_not_change_output_witness :
  (forall task, task ∈ [example_task; example_copy_task] ->
     processImageBSP (example_inOrig task) task 1
       = processImageBSP (example_inOrig task) task 3) /\
  RunBSP example_inOrig [example_task; example_copy_task] 1
    = RunBSP example_inOrig [example_task; example_copy_task] 3.
Proof.
  apply (worker_count_does_not_change_output example_inOrig
           [example_task; example_copy_task] 1 3).
  - repeat constructor; unfold in_int, int_min, int_max; simpl; lia.
  - unfold int_max. lia.
  - unfold int_max. lia.
Defined.

End SequentialFacts.

(** ** The workers of [RunBSPSteal] *)

Module WorkersFacts.
Import Go Scheduler Workers GoFacts.

Lemma pool_lookup lanes i :
  pool lanes !! i = worker_of i <$> lanes !! i.
Proof. unfold pool. by rewrite list_lookup_imap. Qed.

Lemma pool_insert lanes i l :
  <[i := worker_of i l]> (pool lanes) = pool (<[i := l]> lanes).
Proof.
  unfold pool. revert i. generalize worker_of as f.
  induction lanes as [|l0 lanes IH]; intros f i; [done|].
  destruct i as [|i]; [done|].
  cbn [imap]. cbn. f_equal. apply (IH (f ∘ S)).
Qed.

Lemma pool_length lanes : length (pool lanes) = length lanes.
Proof. unfold pool. by rewrite length_imap. Qed.

(** Seeding from any state of the deques in which every tail is on the last
    node. *)
Lemma seed_deal numWorkers (tss : list (list ImageTask)) workerIndex tasks :
  1 <= numWorkers <= int_max ->
  Z.of_nat (length tss) = numWorkers ->
  0 <= workerIndex < numWorkers ->
  seed numWorkers (pool ((fun ts => mkLane ts 0 (length ts)) <$> tss)) workerIndex tasks
  = Done (pool ((fun ts => mkLane ts 0 (length ts)) <$>
                imap (fun i ts => ts ++ deal numWorkers workerIndex tasks (Z.of_nat i)) tss)).
Proof.
  intros Hn. revert tss workerIndex.
  induction tasks as [|task tasks IH]; intros tss workerIndex Hlen Hidx.
  - cbn [seed deal]. do 3 f_equal.
    apply list_eq. intros i. rewrite list_lookup_imap.
    destruct (tss !! i); cbn; by rewrite ?app_nil_r.
  - cbn [seed].
    rewrite pool_length, length_fmap.
    destruct (Z.ltb_spec workerIndex 0); [lia|].
    destruct (Z.leb_spec (Z.of_nat (length tss)) workerIndex); [lia|].
    cbn [orb]. rewrite pool_lookup, list_lookup_fmap.
    destruct (lookup_lt_is_Some_2 tss (Z.to_nat workerIndex)) as [ts Hts]; [lia|].
    rewrite Hts. cbn [fmap option_fmap option_map worker_of pushes first last deque id].
    unfold Deque.fuel_of. rewrite DequeFacts.Push_linear.
    destruct (Z.eqb_spec numWorkers 0); [lia|].
    rewrite int_add_id by (unfold in_int, int_min, int_max in *; lia).
    rewrite Z.rem_mod_nonneg by lia.
    pose proof (Z.mod_pos_bound (workerIndex + 1) numWorkers ltac:(lia)) as Hmod.
    rewrite wrap_id by (unfold in_int, int_min, int_max in *; lia).
    set (tss' := <[Z.to_nat workerIndex := ts ++ [task]]> tss).
    assert (<[Z.to_nat workerIndex :=
               {| id := Z.of_nat (Z.to_nat workerIndex);
                  deque := Deque.linear (ts ++ [task]) 0 (S (length ts)) |}]>
              (pool ((fun ts => mkLane ts 0 (length ts)) <$> tss))
            = pool ((fun ts => mkLane ts 0 (length ts)) <$> tss')) as ->.
    { subst tss'. rewrite list_fmap_insert, <- pool_insert. f_equal.
      unfold worker_of. cbn [pushes first last]. do 2 f_equal.
      rewrite length_app. cbn. lia. }
    rewrite IH by (subst tss'; rewrite ?length_insert; lia).
    do 3 f_equal. subst tss'. apply list_eq. intros i.
    rewrite !list_lookup_imap.
    destruct (decide (i = Z.to_nat workerIndex)) as [->|Hne].
    + rewrite list_lookup_insert_eq by lia. rewrite Hts. cbn.
      rewrite decide_True by lia. by rewrite <- app_assoc.
    + rewrite list_lookup_insert_ne by done.
      destruct (tss !! i); [|done]. cbn.
      by rewrite decide_False by lia.
Qed.

(** Where the tasks dealt to worker [i] stand in the list. *)
Lemma deal_lookup numWorkers workerIndex tasks i (k : nat) :
  1 <= numWorkers -> 0 <= workerIndex < numWorkers -> 0 <= i < numWorkers ->
  deal numWorkers workerIndex tasks i !! k
  = tasks !! Z.to_nat ((i - workerIndex) mod numWorkers + Z.of_nat k * numWorkers).
Proof.
  intros Hn. revert workerIndex k.
  induction tasks as [|task tasks IH]; intros workerIndex k Hw Hi.
  - by rewrite !lookup_nil.
  - cbn [deal].
    pose proof (Z.mod_pos_bound (workerIndex + 1) numWorkers ltac:(lia)) as Hmod.
    pose proof (Z.mod_pos_bound (i - workerIndex) numWorkers ltac:(lia)) as Hd.
    assert ((i - (workerIndex + 1) mod numWorkers) mod numWorkers
            = (i - workerIndex - 1) mod numWorkers) as Hnext.
    { rewrite Zminus_mod_idemp_r. f_equal. lia. }
    case_decide as Heq.
    + subst i. rewrite Z.sub_diag, Z.mod_0_l by lia. rewrite Z.add_0_l.
      destruct k as [|k]; [done|].
      cbn [app lookup list_lookup]. rewrite IH by lia. rewrite Hnext.
      replace (workerIndex - workerIndex - 1) with (-1) by lia.
      replace ((-1) mod numWorkers) with (numWorkers - 1).
      2:{ apply Z.mod_unique with (q := -1); lia. }
      replace (Z.to_nat (Z.of_nat (S k) * numWorkers))
        with (S (Z.to_nat (numWorkers - 1 + Z.of_nat k * numWorkers))) by nia.
      done.
    + cbn [app]. rewrite IH by lia. rewrite Hnext.
      assert ((i - workerIndex) mod numWorkers <> 0) as Hd0.
      { intros H0. apply Heq.
        destruct (decide (workerIndex <= i)).
        - rewrite Z.mod_small in H0 by lia. lia.
        - assert ((i - workerIndex) mod numWorkers = i - workerIndex + numWorkers)
            by (symmetry; apply Z.mod_unique with (q := -1); lia).
          lia. }
      assert ((i - workerIndex - 1) mod numWorkers = (i - workerIndex) mod numWorkers - 1)
        as ->.
      { symmetry.
        apply Z.mod_unique with (q := (i - workerIndex) / numWorkers); [lia|].
        pose proof (Z.div_mod (i - workerIndex) numWorkers ltac:(lia)). lia. }
      replace (Z.to_nat ((i - workerIndex) mod numWorkers + Z.of_nat k * numWorkers))
        with (S (Z.to_nat ((i - workerIndex) mod numWorkers - 1 + Z.of_nat k * numWorkers)))
        by nia.
      done.
Qed.

(** What [RunBSPSteal] has built when it launches the workers. *)
Lemma RunBSPSteal_seed_deal numWorkers tasks :
  1 <= numWorkers <= int_max ->
  RunBSPSteal_seed numWorkers tasks
  = Done (pool ((fun i => mkLane (deal numWorkers 0 tasks i) 0 (length (deal numWorkers 0 tasks i)))
                <$> Png.range 0 numWorkers)).
Proof.
  intros Hn. unfold RunBSPSteal_seed.
  destruct (Z.ltb_spec numWorkers 0); [lia|].
  assert (NewWorker <$> Png.range 0 numWorkers
          = pool ((fun ts => mkLane ts 0 (length ts))
                  <$> replicate (Z.to_nat numWorkers) [])) as ->.
  { apply list_eq. intros i. rewrite pool_lookup, !list_lookup_fmap.
    unfold Png.range.
    destruct (decide (i < Z.to_nat numWorkers)%nat) as [Hi|Hi].
    - rewrite lookup_seqZ_lt by lia. rewrite lookup_replicate_2 by done. cbn.
      unfold NewWorker, worker_of. cbn. f_equal; lia.
    - rewrite lookup_seqZ_ge by lia. by rewrite (proj1 (lookup_replicate_None _ _ _)) by lia. }
  rewrite seed_deal by (rewrite ?length_replicate; lia).
  do 2 f_equal. apply list_eq. intros i.
  rewrite !list_lookup_fmap, list_lookup_imap. unfold Png.range.
  destruct (decide (i < Z.to_nat numWorkers)%nat) as [Hi|Hi].
  - rewrite lookup_seqZ_lt by lia. rewrite lookup_replicate_2 by done. cbn.
    by rewrite Z.add_0_l.
  - rewrite lookup_seqZ_ge by lia. by rewrite (proj1 (lookup_replicate_None _ _ _)) by lia.
Qed.

(** *** [stealWork] *)

Lemma pool_insert_id lanes i l :
  lanes !! i = Some l -> <[i := worker_of i l]> (pool lanes) = pool lanes.
Proof. intros Hl. by rewrite pool_insert, list_insert_id. Qed.

Lemma stealWork_range_spec (thief : Worker) (me : nat) (lanes : list lane) (idx n : nat) :
  id thief = Z.of_nat me ->
  Forall lane_ok lanes ->
  n = (length lanes - idx)%nat ->
  stealWork_range thief (pool lanes) idx n =
    match victim_from me idx (drop idx lanes) with
    | None => Done (pool lanes, None)
    | Some j =>
        match lanes !! j with
        | Some l => Done (pool (<[j := mkLane (pushes l) (S (first l)) (last l)]> lanes),
                        pushes l !! first l)
        | None => Done (pool lanes, None)
        end
    end.
Proof.
  intros Hid Hok. revert idx.
  induction n as [|n IH]; intros idx Hn.
  - cbn [stealWork_range]. by rewrite drop_ge by lia.
  - cbn [stealWork_range]. rewrite pool_lookup.
    destruct (lookup_lt_is_Some_2 lanes idx) as [l Hl]; [lia|].
    rewrite Hl. cbn [fmap option_fmap option_map].
    rewrite (drop_S _ _ _ Hl). cbn [victim_from].
    pose proof (proj1 (Forall_lookup _ _) Hok _ _ Hl) as [Hh Ht].
    destruct l as [ts h t]. cbn [pushes first last] in *.
    cbn [worker_of id deque pushes first last]. rewrite Hid.
    destruct (decide (idx = me)) as [->|Hne].
    + rewrite (decide_False (P := Z.of_nat me <> Z.of_nat me)) by (intros ?; done).
      rewrite decide_False by (intros [? _]; done).
      apply IH. lia.
    + rewrite (decide_True (P := Z.of_nat idx <> Z.of_nat me)) by lia.
      unfold Deque.fuel_of.
      destruct (decide (h = t)) as [->|Hht].
      * rewrite DequeFacts.Steal_linear_empty by done. cbn [task_ok snd].
        rewrite decide_False by (intros [_ ?]; done).
        change {| id := Z.of_nat idx; deque := Deque.linear ts t t |}
          with (worker_of idx (mkLane ts t t)).
        rewrite (pool_insert_id lanes idx (mkLane ts t t)) by done.
        apply IH. lia.
      * destruct (lookup_lt_is_Some_2 ts h) as [x Hx]; [lia|].
        rewrite (DequeFacts.Steal_linear _ _ _ _ x) by done. cbn [task_ok fst snd].
        rewrite (decide_True (P := idx <> me /\ h <> t)) by done.
        rewrite Hl. cbn [pushes first last].
        rewrite Hx. do 2 f_equal.
        by rewrite <- pool_insert.
Qed.

Lemma victim_from_Some me idx rest j :
  victim_from me idx rest = Some j ->
  (idx <= j)%nat /\ j <> me /\
  exists l, rest !! (j - idx)%nat = Some l /\ first l <> last l /\
    forall k l', (k < j - idx)%nat -> rest !! k = Some l' ->
      (idx + k)%nat = me \/ first l' = last l'.
Proof.
  revert idx. induction rest as [|l rest IH]; intros idx; [done|].
  cbn [victim_from]. case_decide as Hd.
  - intros [= <-]. split_and!; [lia|tauto|]. exists l. rewrite Nat.sub_diag.
    split_and!; [done|tauto|]. intros k l' Hk. lia.
  - intros (Hle & Hne & l0 & Hl0 & Hl0' & Hbefore)%IH.
    split_and!; [lia|done|]. exists l0.
    replace (j - idx)%nat with (S (j - S idx)) by lia.
    split_and!; [done|done|].
    intros [|k] l' Hk Hl'.
    + injection Hl' as <-. rewrite Nat.add_0_r.
      destruct (decide (idx = me)); [by left|right].
      destruct (decide (first l = last l)); [done|]. destruct Hd. done.
    + replace (idx + S k)%nat with (S idx + k)%nat by lia.
      apply (Hbefore k l'); [lia|done].
Qed.

Lemma victim_from_None me idx rest :
  victim_from me idx rest = None ->
  forall k l, rest !! k = Some l -> (idx + k)%nat = me \/ first l = last l.
Proof.
  revert idx. induction rest as [|l rest IH]; intros idx; [done|].
  cbn [victim_from]. case_decide as Hd; [done|].
  intros Hnone [|k] l' Hl'.
  - injection Hl' as <-. rewrite Nat.add_0_r.
    destruct (decide (idx = me)); [by left|right].
    destruct (decide (first l = last l)); [done|]. destruct Hd. done.
  - replace (idx + S k)%nat with (S idx + k)%nat by lia. by apply (IH (S idx)).
Qed.

(** *** A worker that runs alone *)

Lemma pending_empty ts h : pending (mkLane ts h h) = [].
Proof. unfold pending. cbn [first last]. by rewrite Nat.sub_diag. Qed.

Lemma pending_pop ts h t x :
  (h <= t)%nat -> ts !! t = Some x ->
  pending (mkLane ts h (S t)) = pending (mkLane ts h t) ++ [x].
Proof.
  intros Hht Hx. unfold pending. cbn [pushes first last].
  replace (S t - h)%nat with (S (t - h)) by lia.
  apply take_S_r. rewrite lookup_drop. by replace (h + (t - h))%nat with t by lia.
Qed.

Lemma pending_steal ts h t x :
  (h < t)%nat -> ts !! h = Some x ->
  pending (mkLane ts h t) = x :: pending (mkLane ts (S h) t).
Proof.
  intros Hht Hx. unfold pending. cbn [pushes first last].
  rewrite (drop_S _ _ _ Hx). by replace (t - h)%nat with (S (t - S h)) by lia.
Qed.

Lemma others_from_insert_me me idx rest k l :
  (idx + k)%nat = me -> others_from me idx (<[k := l]> rest) = others_from me idx rest.
Proof.
  revert idx k. induction rest as [|l0 rest IH]; intros idx k Hk; [done|].
  destruct k as [|k].
  - cbn [others_from]. change (<[0%nat := l]> (l0 :: rest)) with (l :: rest).
    cbn [others_from]. by rewrite !decide_True by lia.
  - change (<[S k := l]> (l0 :: rest)) with (l0 :: <[k := l]> rest).
    cbn [others_from]. f_equal. apply IH. lia.
Qed.

Lemma others_from_None me idx rest :
  victim_from me idx rest = None -> others_from me idx rest = [].
Proof.
  revert idx. induction rest as [|l rest IH]; intros idx; [done|].
  cbn [victim_from others_from]. case_decide as Hd; [done|].
  intros Hnone. rewrite IH by done. rewrite app_nil_r.
  case_decide; [done|].
  destruct (decide (first l = last l)) as [Heq|Hne]; [|destruct Hd; done].
  unfold pending. by rewrite Heq, Nat.sub_diag.
Qed.

Lemma others_from_Some me idx rest j l x :
  victim_from me idx rest = Some j ->
  rest !! (j - idx)%nat = Some l ->
  (first l < last l)%nat ->
  pushes l !! first l = Some x ->
  others_from me idx rest
  = x :: others_from me idx
           (<[(j - idx)%nat := mkLane (pushes l) (S (first l)) (last l)]> rest).
Proof.
  revert idx. induction rest as [|l0 rest IH]; intros idx; [done|].
  cbn [victim_from]. case_decide as Hd.
  - intros [= <-]. rewrite Nat.sub_diag. intros [= ->] Hlt Hx.
    change (<[0%nat := ?a]> (l :: rest)) with (a :: rest).
    cbn [others_from]. rewrite !decide_False by tauto.
    destruct l as [ts h t]. cbn [pushes first last] in *.
    by rewrite (pending_steal ts h t x).
  - intros Hv Hl Hlt Hx.
    destruct (victim_from_Some _ _ _ _ Hv) as (Hle & _).
    replace (j - idx)%nat with (S (j - S idx)) in * by lia.
    change (<[S ?k := ?a]> (l0 :: rest)) with (l0 :: <[k := a]> rest).
    cbn [others_from]. rewrite (IH (S idx) Hv Hl Hlt Hx).
    assert ((if decide (idx = me) then [] else pending l0) = []) as ->; [|done].
    case_decide; [done|].
    destruct (decide (first l0 = last l0)) as [Heq|Hne]; [|destruct Hd; done].
    unfold pending. by rewrite Heq, Nat.sub_diag.
Qed.

Lemma drained_insert_me w lanes l l' :
  lanes !! w = Some l -> pushes l' = pushes l -> first l' = first l ->
  drained w (<[w := l']> lanes) = drained w lanes.
Proof.
  intros Hl Hp Hf. unfold drained. apply list_eq. intros i.
  rewrite !list_lookup_imap.
  destruct (decide (i = w)) as [->|Hne].
  - rewrite list_lookup_insert_eq by (by eapply lookup_lt_Some).
    rewrite Hl. cbn [fmap option_fmap option_map]. rewrite ?decide_True by done.
    by rewrite Hp, Hf.
  - by rewrite list_lookup_insert_ne.
Qed.

Lemma drained_insert_other w lanes j l l' :
  j <> w -> lanes !! j = Some l -> pushes l' = pushes l -> last l' = last l ->
  drained w (<[j := l']> lanes) = drained w lanes.
Proof.
  intros Hj Hl Hp Hf. unfold drained. apply list_eq. intros i.
  rewrite !list_lookup_imap.
  destruct (decide (i = j)) as [->|Hne].
  - rewrite list_lookup_insert_eq by (by eapply lookup_lt_Some).
    rewrite Hl. cbn [fmap option_fmap option_map]. rewrite ?decide_False by done.
    by rewrite Hp, Hf.
  - by rewrite list_lookup_insert_ne.
Qed.

Lemma drained_empty w lanes :
  (forall k l, lanes !! k = Some l -> first l = last l) -> drained w lanes = lanes.
Proof.
  intros Hempty. unfold drained. apply list_eq. intros i.
  rewrite list_lookup_imap. destruct (lanes !! i) as [l|] eqn:Hl; [|done].
  cbn. pose proof (Hempty _ _ Hl) as Heq. destruct l as [ts h t]. cbn in *. subst.
  by case_decide.
Qed.

Lemma bind_assoc {A B C : Type} (o : outcome A) (f : A -> outcome B) (g : B -> outcome C) :
  bind (bind o f) g = bind o (fun a => bind (f a) g).
Proof. by destruct o. Qed.

Lemma bind_ext {A B : Type} (o : outcome A) (f g : A -> outcome B) :
  (forall a, f a = g a) -> bind o f = bind o g.
Proof. intros Hfg. destruct o; cbn; [apply Hfg|done..]. Qed.

(** A worker that runs alone takes the tasks in the order [todo] and leaves
    every deque empty; what it returns is what processing the tasks in that
    order returns. *)
Lemma worker_loop_alone inOrig numWorkers w fuel :
  forall lanes outs,
    Forall lane_ok lanes -> (w < length lanes)%nat ->
    (length (todo w lanes) < fuel)%nat ->
    worker_loop fuel inOrig numWorkers w (pool lanes) outs =
      bind (RunBSP inOrig (todo w lanes) numWorkers) (fun outs' =>
        Done (pool (drained w lanes), outs ++ outs')).
Proof.
  induction fuel as [|fuel IH]; intros lanes outs Hok Hw Hfuel; [lia|].
  destruct (lookup_lt_is_Some_2 lanes w Hw) as [[ts h t] Hl].
  pose proof (proj1 (Forall_lookup _ _) Hok _ _ Hl) as [Hh Ht]. cbn [pushes first last] in *.
  assert (forall task rest lanes',
            todo w lanes = task :: rest -> todo w lanes' = rest ->
            drained w lanes' = drained w lanes ->
            Forall lane_ok lanes' -> length lanes' = length lanes ->
            bind (processImageBSP (inOrig task) task numWorkers) (fun out =>
              worker_loop fuel inOrig numWorkers w (pool lanes') (outs ++ [out]))
            = bind (RunBSP inOrig (todo w lanes) numWorkers) (fun outs' =>
                Done (pool (drained w lanes), outs ++ outs'))) as Hnext.
  { intros task rest lanes' Htodo Htodo' Hdr Hok' Hlen'. rewrite Htodo.
    cbn [RunBSP]. rewrite bind_assoc. apply bind_ext. intros out.
    rewrite IH by (rewrite ?Hlen', ?Htodo'; try done; rewrite Htodo in Hfuel; cbn in Hfuel; lia).
    rewrite Htodo', Hdr, bind_assoc. apply bind_ext. intros outs'.
    cbn [bind]. by rewrite <- app_assoc. }
  cbn [worker_loop]. rewrite pool_lookup, Hl.
  cbn [fmap option_fmap option_map worker_of deque id pushes first last].
  unfold Deque.fuel_of. cbn [Deque.linear Deque.nodes].
  rewrite DequeFacts.linear_nodes_length.
  destruct (decide (h = t)) as [->|Hne].
  - rewrite DequeFacts.Pop_linear_empty. cbn [task_ok snd].
    change {| id := Z.of_nat w; deque := Deque.linear ts t t |}
      with (worker_of w (mkLane ts t t)).
    rewrite (pool_insert_id lanes w (mkLane ts t t)) by done.
    unfold stealWork. rewrite pool_length.
    rewrite (stealWork_range_spec _ w lanes 0 (length lanes)) by (done || lia).
    rewrite drop_0.
    assert (todo w lanes = others_from w 0 lanes) as Htodo.
    { unfold todo. rewrite Hl. cbn [from_option]. by rewrite pending_empty. }
    destruct (victim_from w 0 lanes) as [j|] eqn:Hv.
    + destruct (victim_from_Some _ _ _ _ Hv) as (_ & Hjw & l & Hlj & Hne & _).
      rewrite Nat.sub_0_r in Hlj. rewrite Hlj.
      pose proof (proj1 (Forall_lookup _ _) Hok _ _ Hlj) as [Hh' Ht'].
      destruct (lookup_lt_is_Some_2 (pushes l) (first l)) as [x Hx]; [lia|].
      rewrite Hx. cbn [bind].
      apply (Hnext x (others_from w 0
                        (<[j := mkLane (pushes l) (S (first l)) (last l)]> lanes))).
      * rewrite Htodo.
        rewrite (others_from_Some w 0 lanes j l x); rewrite ?Nat.sub_0_r; (done || lia).
      * unfold todo. rewrite list_lookup_insert_ne by done. rewrite Hl.
        cbn [from_option]. by rewrite pending_empty.
      * by apply (drained_insert_other w lanes j l).
      * apply Forall_insert; [done|]. split; cbn [pushes first last]; lia.
      * by rewrite length_insert.
    + cbn [bind]. rewrite Htodo, (others_from_None _ _ _ Hv). cbn [RunBSP bind].
      rewrite app_nil_r. rewrite drained_empty; [done|].
      intros k l Hk. destruct (victim_from_None _ _ _ Hv k l Hk) as [Hkw|?]; [|done].
      cbn in Hkw. subst k. rewrite Hl in Hk. by injection Hk as <-.
  - destruct t as [|t]; [lia|].
    destruct (lookup_lt_is_Some_2 ts t) as [x Hx]; [lia|].
    rewrite (DequeFacts.Pop_linear _ _ _ _ x) by (done || lia).
    cbn [task_ok fst snd].
    change {| id := Z.of_nat w; deque := Deque.linear ts h t |}
      with (worker_of w (mkLane ts h t)).
    rewrite pool_insert.
    apply (Hnext x (rev (pending (mkLane ts h t)) ++ others_from w 0 lanes)).
    + unfold todo. rewrite Hl. cbn [from_option].
      rewrite (pending_pop ts h t x) by (done || lia).
      by rewrite rev_app_distr.
    + unfold todo. rewrite list_lookup_insert_eq by done. cbn [from_option].
      by rewrite others_from_insert_me.
    + by apply (drained_insert_me w lanes (mkLane ts h (S t))).
    + apply Forall_insert; [done|]. split; cbn [pushes first last]; lia.
    + by rewrite length_insert.
Qed.

(** *** The workers in turn *)

Lemma concat_fmap_app {A B : Type} (f g : A -> list B) (l : list A) :
  concat ((fun i => f i ++ g i) <$> l) ≡ₚ concat (f <$> l) ++ concat (g <$> l).
Proof.
  induction l as [|a l IH]; [done|].
  rewrite !fmap_cons. cbn [concat]. rewrite IH.
  rewrite <- !app_assoc. f_equiv. rewrite !app_assoc. f_equiv. apply Permutation_app_comm.
Qed.

Lemma concat_one_of (x : ImageTask) (wi : Z) (l : list Z) :
  NoDup l -> wi ∈ l ->
  concat ((fun i => if decide (wi = i) then [x] else []) <$> l) = [x].
Proof.
  assert (forall l', wi ∉ l' ->
            concat ((fun i => if decide (wi = i) then [x] else []) <$> l') = []) as Hnot.
  { induction l' as [|a l' IH]; intros Hnin; [done|].
    rewrite fmap_cons. cbn [concat]. rewrite IH by set_solver.
    rewrite decide_False by set_solver. done. }
  induction 1 as [|a l Ha Hnd IH]; intros Hin; [by apply elem_of_nil in Hin|].
  rewrite fmap_cons. cbn [concat].
  destruct (decide (wi = a)) as [->|Hne].
  - by rewrite Hnot.
  - rewrite IH by set_solver. done.
Qed.

Lemma deal_concat numWorkers workerIndex tasks :
  1 <= numWorkers -> 0 <= workerIndex < numWorkers ->
  concat (deal numWorkers workerIndex tasks <$> Png.range 0 numWorkers) ≡ₚ tasks.
Proof.
  intros Hn. revert workerIndex.
  induction tasks as [|task tasks IH]; intros workerIndex Hw.
  - cbn [deal]. induction (Png.range 0 numWorkers) as [|a l IHl]; [done|].
    by rewrite fmap_cons.
  - cbn [deal].
    rewrite (concat_fmap_app (fun i => if decide (workerIndex = i) then [task] else [])
               (deal numWorkers ((workerIndex + 1) mod numWorkers) tasks)).
    rewrite concat_one_of;
      [|apply NoDup_seqZ|unfold Png.range; apply elem_of_seqZ; lia].
    cbn [app]. f_equiv. apply IH. apply Z.mod_pos_bound. lia.
Qed.

Lemma others_from_later me idx rest :
  (me < idx)%nat -> others_from me idx rest = concat (pending <$> rest).
Proof.
  revert idx. induction rest as [|l rest IH]; intros idx Hlt; [done|].
  cbn [others_from]. rewrite fmap_cons. cbn [concat].
  rewrite decide_False by lia. f_equal. apply IH. lia.
Qed.

Lemma pending_whole ts : pending (mkLane ts 0 (length ts)) = ts.
Proof.
  unfold pending. cbn [pushes first last]. rewrite drop_0, Nat.sub_0_r.
  by rewrite firstn_all.
Qed.

Lemma todo_seeded numWorkers tasks :
  1 <= numWorkers ->
  todo 0 ((fun i => mkLane (deal numWorkers 0 tasks i) 0
                      (length (deal numWorkers 0 tasks i)))
          <$> Png.range 0 numWorkers)
  = in_turn_order numWorkers tasks.
Proof.
  intros Hn. unfold todo, in_turn_order, Png.range.
  rewrite (seqZ_cons 0) by lia.
  replace (Z.succ 0) with 1 by lia.
  replace (Z.pred (numWorkers - 0)) with (numWorkers - 1) by lia.
  rewrite fmap_cons.
  cbn [lookup list_lookup from_option others_from].
  rewrite pending_whole. rewrite decide_True by done. cbn [app].
  rewrite others_from_later by lia.
  rewrite <- list_fmap_compose. do 2 f_equal.
  apply list_fmap_ext. intros i j _. cbn. apply pending_whole.
Qed.

Lemma in_turn_order_perm numWorkers tasks :
  1 <= numWorkers -> in_turn_order numWorkers tasks ≡ₚ tasks.
Proof.
  intros Hn. unfold in_turn_order.
  rewrite <- Permutation_rev.
  rewrite <- (deal_concat numWorkers 0 tasks Hn ltac:(lia)) at 3.
  unfold Png.range. rewrite (seqZ_cons 0 (numWorkers - 0)) by lia.
  replace (Z.succ 0) with 1 by lia.
  replace (Z.pred (numWorkers - 0)) with (numWorkers - 1) by lia.
  by rewrite fmap_cons.
Qed.

Lemma todo_empty w lanes :
  (forall k l, lanes !! k = Some l -> first l = last l) -> todo w lanes = [].
Proof.
  intros Hempty. unfold todo.
  assert (forall idx rest, (forall k l, rest !! k = Some l -> first l = last l) ->
            others_from w idx rest = []) as Hothers.
  { intros idx rest. revert idx.
    induction rest as [|l rest IH]; intros idx Hrest; [done|].
    cbn [others_from]. rewrite IH by (intros k l' Hk; apply (Hrest (S k) l' Hk)).
    rewrite app_nil_r. case_decide; [done|].
    unfold pending. by rewrite (Hrest 0%nat l eq_refl), Nat.sub_diag. }
  rewrite Hothers by done. rewrite app_nil_r.
  destruct (lanes !! w) as [l|] eqn:Hl; [|done]. cbn [from_option].
  unfold pending. by rewrite (Hempty _ _ Hl), Nat.sub_diag.
Qed.

Lemma drained_all_empty w lanes k l :
  drained w lanes !! k = Some l -> first l = last l.
Proof.
  unfold drained. rewrite list_lookup_imap.
  destruct (lanes !! k) as [l0|]; [|done]. cbn. intros [= <-]. by case_decide.
Qed.

Lemma drained_ok w lanes : Forall lane_ok lanes -> Forall lane_ok (drained w lanes).
Proof.
  intros Hok. apply Forall_lookup. intros k l. unfold drained.
  rewrite list_lookup_imap. destruct (lanes !! k) as [l0|] eqn:Hl0; [|done].
  pose proof (proj1 (Forall_lookup _ _) Hok _ _ Hl0) as [? ?].
  cbn. intros [= <-]. case_decide; split; cbn [pushes first last]; lia.
Qed.

Lemma later_workers_stopped inOrig numWorkers fuel (ws : list nat)
    (acc : outcome (list Worker * list Png.RGBA64Image)) :
  (forall v, acc <> Done v) ->
  foldl (fun acc w =>
           bind acc (fun '(workers, outs) =>
             worker_loop fuel inOrig numWorkers w workers outs))
        acc ws = acc.
Proof.
  intros Hacc. induction ws as [|w ws IH]; [done|].
  cbn [foldl]. destruct acc as [v| |]; [by destruct (Hacc v)|done..].
Qed.

(** Once the deques are empty, the workers that run later return at once. *)
Lemma later_workers_empty inOrig numWorkers fuel (ws : list nat) lanes outs :
  Forall lane_ok lanes ->
  (forall k l, lanes !! k = Some l -> first l = last l) ->
  Forall (fun w => w < length lanes)%nat ws ->
  foldl (fun acc w =>
           bind acc (fun '(workers, outs) =>
             worker_loop (S fuel) inOrig numWorkers w workers outs))
        (Done (pool lanes, outs)) ws = Done (pool lanes, outs).
Proof.
  intros Hok Hempty. induction 1 as [|w ws Hw _ IH]; [done|].
  cbn [foldl bind].
  rewrite worker_loop_alone by (rewrite ?todo_empty; cbn; done || lia).
  rewrite todo_empty by done. cbn [RunBSP bind].
  rewrite drained_empty by done. by rewrite app_nil_r.
Qed.

Lemma RunBSPSteal_in_turn_RunBSP inOrig numWorkers tasks :
  1 <= numWorkers <= int_max ->
  RunBSPSteal_in_turn inOrig numWorkers tasks
  = RunBSP inOrig (in_turn_order numWorkers tasks) numWorkers.
Proof.
  intros Hn. unfold RunBSPSteal_in_turn.
  rewrite RunBSPSteal_seed_deal by done. cbn [bind].
  set (lanes := (fun i => mkLane (deal numWorkers 0 tasks i) 0
                            (length (deal numWorkers 0 tasks i)))
                <$> Png.range 0 numWorkers).
  assert (length lanes = Z.to_nat numWorkers) as Hlen
    by (subst lanes; unfold Png.range; rewrite length_fmap, length_seqZ; lia).
  assert (Forall lane_ok lanes) as Hok.
  { subst lanes. apply Forall_fmap, Forall_true. intros i.
    split; cbn [pushes first last]; lia. }
  rewrite pool_length, Hlen.
  destruct (Nat.eqb_spec (Z.to_nat numWorkers) 0); [lia|].
  destruct (Z.to_nat numWorkers) as [|n'] eqn:Hn'; [lia|].
  cbn [seq foldl bind].
  rewrite worker_loop_alone; [|done|lia|].
  2:{ subst lanes. rewrite todo_seeded by lia.
      rewrite (Permutation_length (in_turn_order_perm numWorkers tasks ltac:(lia))). lia. }
  subst lanes. rewrite todo_seeded by lia.
  destruct (RunBSP inOrig (in_turn_order numWorkers tasks) numWorkers) as [outs| |] eqn:Hrun.
  - cbn [bind app].
    rewrite later_workers_empty.
    + done.
    + by apply drained_ok.
    + apply drained_all_empty.
    + apply Forall_forall. intros w Hwin%elem_of_seq.
      unfold drained. rewrite length_imap, Hlen. lia.
  - cbn [bind]. by rewrite later_workers_stopped.
  - cbn [bind]. by rewrite later_workers_stopped.
Qed.

Lemma deal_one tasks : deal 1 0 tasks 0 = tasks.
Proof.
  induction tasks as [|task tasks IH]; [done|].
  cbn [deal]. rewrite decide_True by done.
  change ((0 + 1) mod 1) with 0. by rewrite IH.
Qed.

(** X13. [RunBSPSteal] deals the tasks round-robin: with at least one worker
    the seeding returns, worker [i] keeps the identifier [i], and its deque
    holds, in order and with nothing popped or stolen, the tasks at the
    positions [i], [i + numWorkers], [i + 2 * numWorkers], ... of the list
    and no other. *)
Theorem seeding_is_round_robin (numWorkers : Z) (tasks : list ImageTask) :
  1 <= numWorkers <= int_max ->
  exists workers : list Worker,
    RunBSPSteal_seed numWorkers tasks = Done workers /\
    Z.of_nat (length workers) = numWorkers /\
    forall i : nat, Z.of_nat i < numWorkers ->
      exists ts : list ImageTask,
        workers !! i = Some {| id := Z.of_nat i;
                               deque := Deque.linear ts 0 (length ts) |} /\
        forall k : nat, ts !! k = tasks !! (i + k * Z.to_nat numWorkers)%nat.
Proof.
  intros Hn. eexists. split; [by apply RunBSPSteal_seed_deal|]. split.
  - rewrite pool_length, length_fmap. unfold Png.range. rewrite length_seqZ. lia.
  - intros i Hi. exists (deal numWorkers 0 tasks (Z.of_nat i)). split.
    + rewrite pool_lookup, list_lookup_fmap. unfold Png.range.
      rewrite lookup_seqZ_lt by lia. cbn. by rewrite Z.add_0_l.
    + intros k. rewrite deal_lookup by lia. f_equal.
      rewrite Z.sub_0_r, Z.mod_small by lia. nia.
Qed.

Lemma seeding_is_round_robin_witness :
  exists workers : list Worker,
    RunBSPSteal_seed 2 example_tasks = Done workers /\
    Z.of_nat (length workers) = 2 /\
    forall i : nat, Z.of_nat i < 2 ->
      exists ts : list ImageTask,
        workers !! i = Some {| id := Z.of_nat i;
                               deque := Deque.linear ts 0 (length ts) |} /\
        forall k : nat, ts !! k = example_tasks !! (i + k * Z.to_nat 2)%nat.
Proof.
  apply (seeding_is_round_robin 2 example_tasks). unfold int_max. lia.
Defined.

(** X14. [stealWork], run with no other goroutine taking a step, on workers
    numbered by their place in the slice: it returns, and it leaves the
    thief's own deque alone. It returns no task exactly when the deque of
    every other worker is empty, and it changes nothing then. Otherwise it
    returns the oldest task of the first other worker, in the order of the
    slice, whose deque is not empty, and moves the head of that deque past
    it. *)
Theorem stealWork_takes_oldest_of_first_victim
    (thief : Worker) (me : nat) (lanes : list lane) :
  id thief = Z.of_nat me ->
  Forall lane_ok lanes ->
  exists (workers' : list Worker) (task : option ImageTask),
    stealWork thief (pool lanes) = Done (workers', task) /\
    workers' !! me = pool lanes !! me /\
    (task = None <->
       forall j l, lanes !! j = Some l -> j <> me -> first l = last l) /\
    (task = None -> workers' = pool lanes) /\
    (forall x, task = Some x ->
       exists j l,
         j <> me /\ lanes !! j = Some l /\ (first l < last l)%nat /\
         pushes l !! first l = Some x /\
         workers' = pool (<[j := mkLane (pushes l) (S (first l)) (last l)]> lanes) /\
         forall j' l', (j' < j)%nat -> j' <> me -> lanes !! j' = Some l' ->
           first l' = last l').
Proof.
  intros Hid Hok. unfold stealWork. rewrite pool_length.
  rewrite (stealWork_range_spec thief me lanes 0 (length lanes)) by (done || lia).
  rewrite drop_0.
  destruct (victim_from me 0 lanes) as [j|] eqn:Hv.
  - destruct (victim_from_Some _ _ _ _ Hv) as (_ & Hjme & l & Hl & Hne & Hbefore).
    rewrite Nat.sub_0_r in *. rewrite Hl.
    pose proof (proj1 (Forall_lookup _ _) Hok _ _ Hl) as [Hh Ht].
    destruct (lookup_lt_is_Some_2 (pushes l) (first l)) as [x Hx]; [lia|].
    eexists _, _. split; [done|]. rewrite Hx. split_and!.
    + rewrite !pool_lookup. by rewrite list_lookup_insert_ne.
    + split; [done|]. intros Hall. destruct Hne. by apply (Hall j l).
    + done.
    + intros x' [= <-]. exists j, l. split_and!; [done|done|lia|done|done|].
      intros j' l' Hlt Hne' Hl'.
      destruct (Hbefore j' l' Hlt Hl') as [?|?]; [lia|done].
  - eexists _, _. split; [done|]. split_and!; [done| |done|done].
    split; [|done]. intros _ j l Hl Hne.
    destruct (victim_from_None _ _ _ Hv j l Hl) as [?|?]; [lia|done].
Qed.

Lemma stealWork_takes_oldest_of_first_victim_witness :
  exists (workers' : list Worker) (task : option ImageTask),
    stealWork (worker_of 0 (mkLane [] 0 0))
      (pool [mkLane [] 0 0; mkLane example_tasks 1 1; mkLane example_tasks 1 3])
      = Done (workers', task) /\
    workers' !! 0%nat
      = pool [mkLane [] 0 0; mkLane example_tasks 1 1; mkLane example_tasks 1 3] !! 0%nat /\
    (task = None <->
       forall j l,
         [mkLane [] 0 0; mkLane example_tasks 1 1; mkLane example_tasks 1 3] !! j = Some l ->
         j <> 0%nat -> first l = last l) /\
    (task = None ->
     workers' = pool [mkLane [] 0 0; mkLane example_tasks 1 1; mkLane example_tasks 1 3]) /\
    (forall x, task = Some x ->
       exists j l,
         j <> 0%nat /\
         [mkLane [] 0 0; mkLane example_tasks 1 1; mkLane example_tasks 1 3] !! j = Some l /\
         (first l < last l)%nat /\
         pushes l !! first l = Some x /\
         workers' = pool (<[j := mkLane (pushes l) (S (first l)) (last l)]>
                            [mkLane [] 0 0; mkLane example_tasks 1 1;
                             mkLane example_tasks 1 3]) /\
         forall j' l', (j' < j)%nat -> j' <> 0%nat ->
           [mkLane [] 0 0; mkLane example_tasks 1 1; mkLane example_tasks 1 3] !! j'
             = Some l' ->
           first l' = last l').
Proof.
  apply (stealWork_takes_oldest_of_first_victim (worker_of 0 (mkLane [] 0 0)) 0
           [mkLane [] 0 0; mkLane example_tasks 1 1; mkLane example_tasks 1 3]).
  - reflexivity.
  - repeat constructor; cbn; lia.
Defined.

(** X15. [RunBSPSteal] with the worker goroutines run in turn, each to its end
    before the next starts (with one worker there is no other schedule): it
    ends as [RunBSP] ends on the same tasks taken in the order
    [in_turn_order], which lists every task once. Worker 0 takes its own
    tasks, last dealt first, then steals those of the others; the workers
    after it find every deque empty. A single worker processes the tasks in
    the reverse of the order of the list. *)
Theorem workers_in_turn_process_each_task_once
    (inOrig : ImageTask -> Png.Decoded) (numWorkers : Z) (tasks : list ImageTask) :
  1 <= numWorkers <= int_max ->
  RunBSPSteal_in_turn inOrig numWorkers tasks
    = RunBSP inOrig (in_turn_order numWorkers tasks) numWorkers /\
  in_turn_order numWorkers tasks ≡ₚ tasks /\
  in_turn_order 1 tasks = rev tasks.
Proof.
  intros Hn. split_and!.
  - by apply RunBSPSteal_in_turn_RunBSP.
  - apply in_turn_order_perm. lia.
  - unfold in_turn_order. rewrite deal_one.
    change (Png.range 1 1) with (@nil Z). cbn. by rewrite app_nil_r.
Qed.

Lemma workers_in_turn_process_each_task_once_witness :
  RunBSPSteal_in_turn example_inOrig 2 example_tasks
    = RunBSP example_inOrig (in_turn_order 2 example_tasks) 2 /\
  in_turn_order 2 example_tasks ≡ₚ example_tasks /\
  in_turn_order 1 example_tasks = rev example_tasks.
Proof.
  apply (workers_in_turn_process_each_task_once example_inOrig 2 example_tasks).
  unfold int_max. lia.
Defined.

End WorkersFacts.

(** ** The queue of [RunParallelFiles] *)

Module ParFilesFacts.
Import ParFiles ListFacts.

Section facts.
Context {T : Type}.

Lemma held_insert (l : list (pc T)) i p p' :
  l !! i = Some p ->
  omap held l ≡ₚ option_list (held p) ++ omap held (delete i l) /\
  omap held (<[i := p']> l) ≡ₚ option_list (held p') ++ omap held (delete i l).
Proof. apply omap_insert_middle. Qed.

Lemma queue_inv_step (queue : list T) (s : state T) (i : nat) (p : pc T) :
  inv queue s -> goroutines s !! i = Some p -> p <> Returned ->
  exists s', step s i = Some s' /\ inv queue s'.
Proof.
  intros [Hlock Hone Htaking Hempty Htasks] Hi Hp.
  pose proof (lookup_lt_Some _ _ _ Hi) as Hlt.
  assert (forall p' j q, <[i := p']> (goroutines s) !! j = Some q ->
            (j = i /\ q = p') \/ (j <> i /\ goroutines s !! j = Some q)) as Hins.
  { intros p' j q Hj. destruct (decide (j = i)) as [->|Hne].
    - rewrite list_lookup_insert_eq in Hj by done. left. split; congruence.
    - rewrite list_lookup_insert_ne in Hj by done. by right. }
  assert (forall p', holds p = Some () -> holds p' = Some () ->
            forall j k q r, <[i := p']> (goroutines s) !! j = Some q ->
              <[i := p']> (goroutines s) !! k = Some r ->
              holds q = Some () -> holds r = Some () -> j = k) as Hone'.
  { intros p' Hhp Hhp' j k q r Hj Hk Hq Hr.
    destruct (Hins _ _ _ Hj) as [[-> ->]|[Hne Hj']];
      destruct (Hins _ _ _ Hk) as [[-> ->]|[Hne' Hk']]; try done.
    - symmetry. by apply (Hone k i r p).
    - by apply (Hone j i q p).
    - by apply (Hone j k q r). }
  assert (holds p = Some () -> forall j q, j <> i -> goroutines s !! j = Some q ->
            holds q = None) as Hothers.
  { intros Hhp j q Hne Hj. destruct (holds q) as [[]|] eqn:Hq; [|done].
    destruct Hne. by apply (Hone j i q p). }
  unfold step, set_pc. rewrite Hi. cbn [mbind option_bind].
  destruct p as [| | | |task|task|]; [| | | | | |done]; cbn [holds] in *.
  - destruct Hlock as [[Hl Hnone]|[Hl (j & q & Hj & Hq)]]; rewrite Hl;
      [change (0 =? 0) with true|change (1 =? 0) with false]; cbv iota.
    + eexists. split; [done|]. split; cbn [lock tasks goroutines processed set_pc].
      * right. split; [done|]. exists i, Checking.
        by rewrite list_lookup_insert_eq.
      * intros j k q r Hj Hk Hq Hr.
        destruct (Hins _ _ _ Hj) as [[-> ->]|[Hne Hj']];
          destruct (Hins _ _ _ Hk) as [[-> ->]|[Hne' Hk']]; try done.
        -- rewrite (Hnone _ _ Hk') in Hr. done.
        -- rewrite (Hnone _ _ Hj') in Hq. done.
        -- rewrite (Hnone _ _ Hj') in Hq. done.
      * intros j Hj. destruct (Hins _ _ _ Hj) as [[-> ?]|[Hne Hj']]; [done|].
        by apply (Htaking j).
      * intros j q Hj Hq. destruct (Hins _ _ _ Hj) as [[-> ->]|[Hne Hj']].
        -- by destruct Hq.
        -- by apply (Hempty j q).
      * destruct (held_insert _ i Spinning Checking Hi) as [H1 H2].
        by rewrite H2, <- H1.
    + exists s. split; [done|]. split; try done.
      right. split; [done|]. by exists j, q.
  - destruct Hlock as [[Hl Hnone]|[Hl _]]; [by specialize (Hnone _ _ Hi)|].
    eexists. split; [done|]. split; cbn [lock tasks goroutines processed set_pc].
    + right. split; [done|]. eexists i, _. rewrite list_lookup_insert_eq by done.
      split; [done|]. by destruct (length (tasks s) =? 0)%nat.
    + apply Hone'; [done|]. by destruct (length (tasks s) =? 0)%nat.
    + intros j Hj. destruct (Hins _ _ _ Hj) as [[-> Hq]|[Hne Hj']].
      * destruct (Nat.eqb_spec (length (tasks s)) 0); [done|].
        by destruct (tasks s).
      * by apply (Htaking j).
    + intros j q Hj Hq. destruct (Hins _ _ _ Hj) as [[-> ->]|[Hne Hj']].
      * destruct (Nat.eqb_spec (length (tasks s)) 0) as [H0|H0].
        -- by destruct (tasks s).
        -- by destruct Hq.
      * by apply (Hempty j q).
    + destruct (held_insert _ i Checking
                  (if (length (tasks s) =? 0)%nat then Leaving else Taking) Hi) as [H1 H2].
      rewrite H2, <- H1. by destruct (length (tasks s) =? 0)%nat.
  - eexists. split; [done|]. split; cbn [lock tasks goroutines processed set_pc].
    + left. split; [done|]. intros j q Hj.
      destruct (Hins _ _ _ Hj) as [[-> ->]|[Hne Hj']]; [done|].
      by apply (Hothers eq_refl j q).
    + intros j k q r Hj Hk Hq Hr.
      destruct (Hins _ _ _ Hj) as [[-> ->]|[Hne Hj']]; [done|].
      by rewrite (Hothers eq_refl j q) in Hq.
    + intros j Hj. destruct (Hins _ _ _ Hj) as [[-> ?]|[Hne Hj']]; [done|].
      by apply (Htaking j).
    + intros j q Hj Hq. apply (Hempty i Leaving Hi). by left.
    + destruct (held_insert _ i Leaving Returned Hi) as [H1 H2].
      by rewrite H2, <- H1.
  - destruct (tasks s) as [|task rest] eqn:Hq; [by destruct (Htaking i Hi)|].
    eexists. split; [done|]. split; cbn [lock tasks goroutines processed set_pc].
    + destruct Hlock as [[Hl Hnone]|[Hl _]]; [by specialize (Hnone _ _ Hi)|].
      right. split; [done|]. eexists i, _. by rewrite list_lookup_insert_eq.
    + by apply Hone'.
    + intros j Hj. destruct (Hins _ _ _ Hj) as [[-> ?]|[Hne Hj']]; [done|].
      by specialize (Hothers eq_refl j Taking Hne Hj').
    + intros j q Hj Hq'. destruct (Hins _ _ _ Hj) as [[-> ->]|[Hne Hj']].
      * by destruct Hq'.
      * by specialize (Hempty j q Hj' Hq').
    + destruct (held_insert _ i Taking (Unlocking task) Hi) as [H1 H2].
      rewrite H2. rewrite H1 in Htasks. cbn [held option_list app] in *.
      rewrite <- Htasks. cbn [option_list app]. f_equiv.
      apply Permutation_middle.
  - eexists. split; [done|]. split; cbn [lock tasks goroutines processed set_pc].
    + left. split; [done|]. intros j q Hj.
      destruct (Hins _ _ _ Hj) as [[-> ->]|[Hne Hj']]; [done|].
      by apply (Hothers eq_refl j q).
    + intros j k q r Hj Hk Hq Hr.
      destruct (Hins _ _ _ Hj) as [[-> ->]|[Hne Hj']]; [done|].
      by rewrite (Hothers eq_refl j q) in Hq.
    + intros j Hj. destruct (Hins _ _ _ Hj) as [[-> ?]|[Hne Hj']]; [done|].
      by apply (Htaking j).
    + intros j q Hj Hq. destruct (Hins _ _ _ Hj) as [[-> ->]|[Hne Hj']].
      * by destruct Hq.
      * by apply (Hempty j q).
    + destruct (held_insert _ i (Unlocking task) (Processing task) Hi) as [H1 H2].
      by rewrite H2, <- H1.
  - eexists. split; [done|]. split; cbn [lock tasks goroutines processed set_pc].
    + destruct Hlock as [[Hl Hnone]|[Hl (j & q & Hj & Hq)]].
      * left. split; [done|]. intros j q Hj.
        destruct (Hins _ _ _ Hj) as [[-> ->]|[Hne Hj']]; [done|]. by apply (Hnone j).
      * right. split; [done|]. exists j, q. split; [|done].
        rewrite list_lookup_insert_ne; [done|]. intros ->. rewrite Hi in Hj.
        by injection Hj as <-.
    + intros j k q r Hj Hk Hq Hr.
      destruct (Hins _ _ _ Hj) as [[-> ->]|[Hne Hj']]; [done|].
      destruct (Hins _ _ _ Hk) as [[-> ->]|[Hne' Hk']]; [done|].
      by apply (Hone j k q r).
    + intros j Hj. destruct (Hins _ _ _ Hj) as [[-> ?]|[Hne Hj']]; [done|].
      by apply (Htaking j).
    + intros j q Hj Hq. destruct (Hins _ _ _ Hj) as [[-> ->]|[Hne Hj']].
      * by destruct Hq.
      * by apply (Hempty j q).
    + destruct (held_insert _ i (Processing task) Spinning Hi) as [H1 H2].
      rewrite H2. rewrite H1 in Htasks. cbn [held option_list app] in *.
      rewrite <- Htasks. rewrite <- !app_assoc. f_equiv. cbn [app].
      symmetry. apply Permutation_middle.
Qed.

Lemma queue_inv_run (queue : list T) (sched : list nat) :
  forall s s', inv queue s -> run s sched = Some s' -> inv queue s'.
Proof.
  induction sched as [|i sched IH]; intros s s' Hinv Hrun.
  - by injection Hrun as <-.
  - cbn [run] in Hrun. destruct (step s i) as [s1|] eqn:Hstep; [|done].
    cbn [mbind option_bind] in Hrun. apply (IH s1); [|done].
    unfold step in Hstep. destruct (goroutines s !! i) as [p|] eqn:Hi; [|done].
    assert (p <> Returned) as Hp by (intros ->; done).
    destruct (queue_inv_step queue s i p Hinv Hi Hp) as (s1' & Hstep' & Hinv').
    unfold step in Hstep'. rewrite Hi in Hstep'. cbn [mbind option_bind] in *.
    rewrite Hstep in Hstep'. by injection Hstep' as <-.
Qed.

Lemma queue_inv_launch (threadCount : Z) (queue : list T) (s : state T) :
  launch threadCount queue = Some s -> inv queue s.
Proof.
  unfold launch. intros Hs.
  assert (exists n, s = {| lock := 0; tasks := queue;
                          goroutines := replicate n Spinning; processed := [] |})
    as [n ->].
  { destruct (length queue =? 0)%nat; [injection Hs as <-; by exists 0%nat|].
    destruct (_ <? 0); [done|]. injection Hs as <-. by eexists. }
  clear Hs. split; cbn [lock tasks goroutines processed].
  - left. split; [done|]. by intros j p [-> _]%lookup_replicate.
  - by intros j k p q [-> _]%lookup_replicate.
  - by intros j [? _]%lookup_replicate.
  - intros j p [-> _]%lookup_replicate [?|?]; done.
  - assert (omap held (replicate n (@Spinning T)) = []) as ->; [|done].
    induction n as [|n IH]; [done|]. done.
Qed.

End facts.

(** X16. [RunParallelFiles]: between its compare-and-swap and its [Unlock] a
    goroutine is alone, under any schedule; the queue is never indexed when
    it is empty and no goroutine is ever stuck; every task of the queue is
    at any time in the queue, in the hands of one goroutine, or processed,
    and never two of these; and when every goroutine has returned, and there
    was one, every task has been processed exactly once. A negative thread
    count makes [wg.Add] panic, and a thread count of zero launches no
    goroutine, so no task is processed. *)
Theorem parallel_files_take_each_task_once {T : Type}
    (threadCount : Z) (queue : list T) (sched : list nat) (s0 s : state T) :
  launch threadCount queue = Some s0 ->
  run s0 sched = Some s ->
  (forall i j, holder s i -> holder s j -> i = j) /\
  (forall i p, goroutines s !! i = Some p -> p <> Returned -> is_Some (step s i)) /\
  processed s ++ omap held (goroutines s) ++ tasks s ≡ₚ queue /\
  (goroutines s <> [] -> Forall (fun p => p = Returned) (goroutines s) ->
     processed s ≡ₚ queue) /\
  (queue <> [] -> forall n, n < 0 -> launch n queue = None) /\
  launch 0 queue = Some {| lock := 0; tasks := queue; goroutines := []; processed := [] |}.
Proof.
  intros Hlaunch Hrun.
  pose proof (queue_inv_run queue sched s0 s (queue_inv_launch _ _ _ Hlaunch) Hrun) as Hinv.
  pose proof Hinv as [Hlock Hone Htaking Hempty Htasks].
  split_and!.
  - intros i j (p & Hi & Hp) (q & Hj & Hq). by apply (Hone i j p q).
  - intros i p Hi Hp. destruct (queue_inv_step queue s i p Hinv Hi Hp) as (s' & -> & _).
    by eexists.
  - done.
  - intros Hne Hall.
    assert (tasks s = []) as Hq.
    { destruct (goroutines s) as [|p l] eqn:Hg; [done|].
      apply (Hempty 0%nat p); [done|].
      right. by apply Forall_cons in Hall as [-> _]. }
    assert (omap held (goroutines s) = []) as Hh.
    { clear -Hall. induction Hall as [|p l -> _ IH]; [done|]. done. }
    by rewrite Hq, Hh, !app_nil_r in Htasks.
  - intros Hne n Hn. unfold launch.
    destruct queue as [|t queue]; [done|]. cbn [length Nat.eqb].
    destruct (Z.ltb_spec (Z.of_nat (S (length queue))) n); [lia|].
    by destruct (Z.ltb_spec n 0); [|lia].
  - unfold launch. destruct queue as [|t queue]; [done|]. cbn [length Nat.eqb].
    destruct (Z.ltb_spec (Z.of_nat (S (length queue))) 0); [lia|]. done.
Qed.

Lemma parallel_files_take_each_task_once_witness :
  (forall i j, holder example_end i -> holder example_end j -> i = j) /\
  (forall i p, goroutines example_end !! i = Some p -> p <> Returned ->
     is_Some (step example_end i)) /\
  processed example_end ++ omap held (goroutines example_end) ++ tasks example_end
    ≡ₚ [10; 20; 30; 40]%nat /\
  (goroutines example_end <> [] ->
   Forall (fun p => p = Returned) (goroutines example_end) ->
   processed example_end ≡ₚ [10; 20; 30; 40]%nat) /\
  ([10; 20; 30; 40]%nat <> [] -> forall n, n < 0 -> launch n [10; 20; 30; 40]%nat = None) /\
  launch 0 [10; 20; 30; 40]%nat
    = Some {| lock := 0; tasks := [10; 20; 30; 40]%nat; goroutines := []; processed := [] |}.
Proof.
  eapply (parallel_files_take_each_task_once 3 [10; 20; 30; 40]%nat example_turns).
  - reflexivity.
  - reflexivity.
Defined.

End ParFilesFacts.

(** ** The sliced effects of proj1 *)

Module ParaFacts.
Import Go Png Para GoFacts.

Lemma Para_any_schedule color img numThreads sched :
  reads_In_only color ->
  rows_fit (Bounds img) ->
  1 <= numThreads <= int_max ->
  schedule_of (Bounds img) numThreads sched ->
  Para color img numThreads sched =
    inl (Done (run_pixels color
                 (band_pixels (Bounds img) (Y (Min (Bounds img))) (Y (Max (Bounds img))))
                 img)).
Proof.
  intros Hcol Hrows Hn Hsched. unfold Para. unfold schedule_of in Hsched.
  rewrite (PngFacts.sliceHeight_of_fit (Bounds img) numThreads Hrows Hn) in *.
  destruct (Z.ltb_spec numThreads 0); [lia|].
  unfold goroutines at 1. rewrite length_fmap.
  pose proof (PngFacts.slices_length (Bounds img) numThreads Hn) as Hlen.
  unfold wg_Wait_returns. rewrite Hlen, Z.sub_diag. cbn [Z.eqb].
  do 2 f_equal. apply PngFacts.run_pixels_ext; [done|].
  intros k. rewrite (PngFacts.interleaving_elem_of _ _ Hsched).
  by apply PngFacts.goroutines_pixels.
Qed.

(** X17. The sliced effects of proj1, which wait on a [sync.WaitGroup]: for
    every worker count from 1 on and under every schedule of the band
    goroutines they return the image the effect without slices leaves. With
    a worker count of zero they panic on the division, and with a negative
    one on [wg.Add]: they never wait for ever, as the barrier version does. *)
Theorem para_refines_sequential (img : Image) (kernel : list float) (numThreads : Z) :
  rows_fit (Bounds img) ->
  Rect (Out img) = Bounds img ->
  1 <= numThreads <= int_max ->
  (forall sched, schedule_of (Bounds img) numThreads sched ->
     Para (convolution_color kernel) img numThreads sched
       = inl (Done (convolution img kernel)) /\
     Para Grayscale_color img numThreads sched = inl (Done (Grayscale img))) /\
  ParaSharpen img numThreads = inl (Done (Sharpen img)) /\
  ParaEdgeDetection img numThreads = inl (Done (EdgeDetection img)) /\
  ParaBlur img numThreads = inl (Done (Blur img)) /\
  ParaGrayscale img numThreads = inl (Done (Grayscale img)) /\
  (forall color sched,
     Para color img 0 sched = inr "runtime error: integer divide by zero"%string) /\
  (forall color sched n, in_int n -> n < 0 ->
     Para color img n sched = inr "sync: negative WaitGroup counter"%string).
Proof.
  intros Hrows Hrect Hn.
  assert (forall sched, schedule_of (Bounds img) numThreads sched ->
            Para (convolution_color kernel) img numThreads sched
              = inl (Done (convolution img kernel)) /\
            Para Grayscale_color img numThreads sched = inl (Done (Grayscale img))) as Hany.
  { intros sched Hsched. split.
    - by rewrite Para_any_schedule
        by (done || apply PngFacts.convolution_color_reads_In_only).
    - rewrite Para_any_schedule
        by (done || apply PngFacts.Grayscale_color_reads_In_only).
      unfold Grayscale. by rewrite Hrect. }
  assert (forall k, paraConvolution img k numThreads = inl (Done (convolution img k))) as Hk.
  { intros k. unfold paraConvolution.
    by rewrite Para_any_schedule
      by (done || apply PngFacts.convolution_color_reads_In_only
          || apply PngFacts.in_order_schedule). }
  split_and!; [done|apply Hk..| | |].
  - apply Hany, PngFacts.in_order_schedule.
  - done.
  - intros color sched n Hint Hneg. unfold Para, sliceHeight_of, int_quot.
    destruct (Z.eqb_spec n 0); [lia|]. by destruct (Z.ltb_spec n 0); [|lia].
Qed.

Lemma para_refines_sequential_witness :
  (forall sched, schedule_of (Bounds example_image) 2 sched ->
     Para (convolution_color Blur_kernel) example_image 2 sched
       = inl (Done (convolution example_image Blur_kernel)) /\
     Para Grayscale_color example_image 2 sched = inl (Done (Grayscale example_image))) /\
  ParaSharpen example_image 2 = inl (Done (Sharpen example_image)) /\
  ParaEdgeDetection example_image 2 = inl (Done (EdgeDetection example_image)) /\
  ParaBlur example_image 2 = inl (Done (Blur example_image)) /\
  ParaGrayscale example_image 2 = inl (Done (Grayscale example_image)) /\
  (forall color sched,
     Para color example_image 0 sched
       = inr "runtime error: integer divide by zero"%string) /\
  (forall color sched n, in_int n -> n < 0 ->
     Para color example_image n sched = inr "sync: negative WaitGroup counter"%string).
Proof.
  apply (para_refines_sequential example_image Blur_kernel 2).
  - unfold rows_fit, in_int, int_min, int_max. simpl. lia.
  - reflexivity.
  - unfold int_max. lia.
Defined.

End ParaFacts.

(** ** The scheduler of proj1 that slices every image *)

Module ParSlicesFacts.

Import Go Scheduler ParSlices.

Lemma paraConvolution_convolution img kernel numThreads :
  Png.rows_fit (Png.Bounds img) -> 1 <= numThreads <= int_max ->
  Para.paraConvolution img kernel numThreads = inl (Done (Png.convolution img kernel)).
Proof.
  intros Hrows Hn. unfold Para.paraConvolution.
  by rewrite ParaFacts.Para_any_schedule
    by (done || apply PngFacts.convolution_color_reads_In_only
        || apply PngFacts.in_order_schedule).
Qed.

Lemma ParaGrayscale_Grayscale img numThreads :
  Png.rows_fit (Png.Bounds img) -> Png.Rect (Png.Out img) = Png.Bounds img ->
  1 <= numThreads <= int_max ->
  Para.ParaGrayscale img numThreads = inl (Done (Png.Grayscale img)).
Proof.
  intros Hrows Hrect Hn. unfold Para.ParaGrayscale.
  rewrite ParaFacts.Para_any_schedule
    by (done || apply PngFacts.Grayscale_color_reads_In_only
        || apply PngFacts.in_order_schedule).
  unfold Png.Grayscale. by rewrite Hrect.
Qed.

(** One effect with slices against the same effect without slices. *)
Lemma apply_effect_waited img effect threads :
  Png.rows_fit (Png.Bounds img) -> Png.Rect (Png.Out img) = Png.Bounds img ->
  1 <= threads <= int_max ->
  ParSlices.apply_effect img effect threads = waited (Sequential.apply_effect img effect).
Proof.
  intros Hrows Hrect Hn. unfold ParSlices.apply_effect, Sequential.apply_effect.
  repeat case_decide; cbn [waited];
    [by apply paraConvolution_convolution..| |done].
  by apply ParaGrayscale_Grayscale.
Qed.

Lemma applyEffectsSliced_waited img effects threads :
  Png.rows_fit (Png.Bounds img) -> Png.same_rect img ->
  1 <= threads <= int_max ->
  ParSlices.applyEffectsSliced img effects threads
    = waited (Sequential.applyEffects img effects).
Proof.
  intros Hrows Hrect Hn. revert img Hrows Hrect.
  induction effects as [|effect rest IH]; intros img Hrows [HIn HOut]; [done|].
  cbn [ParSlices.applyEffectsSliced Sequential.applyEffects].
  rewrite apply_effect_waited by done.
  destruct (Sequential.apply_effect img effect) as [img'|msg] eqn:Heff; [|done].
  cbn [waited].
  destruct (SequentialFacts.apply_effect_frame _ _ _ Heff) as (HIn' & HB & _ & HOut').
  apply IH.
  - destruct rest; cbn [Png.SwapBuffers Png.Bounds]; by rewrite HB.
  - destruct rest; unfold Png.same_rect; cbn [Png.SwapBuffers Png.In Png.Out Png.Bounds];
      rewrite ?HIn', ?HOut', HB; done.
Qed.

Lemma processImageSlice_waited inOrig task threads :
  Png.rows_fit (Png.d_Bounds inOrig) -> 1 <= threads <= int_max ->
  processImageSlice inOrig task threads
    = waited (Sequential.processImageTask inOrig task).
Proof.
  intros Hrows Hn. unfold processImageSlice, Sequential.processImageTask.
  destruct (0 <? length (Effects task))%nat; [|done].
  rewrite applyEffectsSliced_waited; [|done|apply PngFacts.Load_same_rect|done].
  by destruct (Sequential.applyEffects _ _).
Qed.

Lemma RunParallelSlices_waited inOrig tasks threads :
  Forall (fun task => Png.rows_fit (Png.d_Bounds (inOrig task))) tasks ->
  1 <= threads <= int_max ->
  RunParallelSlices inOrig tasks threads = waited (Sequential.RunSequential inOrig tasks).
Proof.
  intros Hrows Hn. induction Hrows as [|task tasks Htask _ IH]; [done|].
  cbn [RunParallelSlices Sequential.RunSequential].
  rewrite IH, processImageSlice_waited by done.
  destruct (Sequential.processImageTask _ _); [|done].
  cbn [waited]. by destruct (Sequential.RunSequential _ _).
Qed.

(** With no worker the first effect divides by zero, and with a negative
    count [wg.Add] panics: the first task with an effect of the set stops the
    program. *)
Lemma apply_effect_no_worker img effect n :
  known_effect effect -> in_int n -> n <= 0 ->
  ParSlices.apply_effect img effect n =
    inr (if decide (n = 0) then "runtime error: integer divide by zero"
         else "sync: negative WaitGroup counter")%string.
Proof.
  intros Hk Hint Hn.
  assert (forall color sched, Para.Para color img n sched =
            inr (if decide (n = 0) then "runtime error: integer divide by zero"
                 else "sync: negative WaitGroup counter")%string) as Hpara.
  { intros color sched. unfold Para.Para, Png.sliceHeight_of, int_quot.
    case_decide as H0.
    - subst n. done.
    - destruct (Z.eqb_spec n 0); [lia|]. by destruct (Z.ltb_spec n 0); [|lia]. }
  unfold ParSlices.apply_effect, Para.ParaSharpen, Para.ParaEdgeDetection, Para.ParaBlur,
    Para.ParaGrayscale, Para.paraConvolution.
  unfold known_effect in Hk. rewrite !elem_of_cons, elem_of_nil in Hk.
  destruct Hk as [->|[->|[->|[->|[]]]]]; repeat case_decide; try done; apply Hpara.
Qed.

(** X18. The program of proj1 that slices every image ends as the sequential
    program does, for every thread count from 1 on: [processImageSlice]
    hands the encoder the buffer [processImageTask] hands it, and
    [RunParallelSlices] the buffers [RunSequential] does, or both stop at
    the first effect that is not of the set, the sliced code with the
    message [unknown effect]. With a thread count of zero the first task
    whose first effect is of the set panics on the division, with a negative
    count on [wg.Add]; tasks without effects are saved as they were read
    whatever the count. *)
Theorem parallel_slices_refine_sequential
    (inOrig : ImageTask -> Png.Decoded) (tasks : list ImageTask) (numThreads : Z) :
  Forall (fun task => Png.rows_fit (Png.d_Bounds (inOrig task))) tasks ->
  1 <= numThreads <= int_max ->
  (forall task, task ∈ tasks ->
     processImageSlice (inOrig task) task numThreads
       = waited (Sequential.processImageTask (inOrig task) task)) /\
  RunParallelSlices inOrig tasks numThreads
    = waited (Sequential.RunSequential inOrig tasks) /\
  (forall task rest n, starts_with_known_effect task -> in_int n -> n <= 0 ->
     RunParallelSlices inOrig (task :: rest) n =
       inr (if decide (n = 0) then "runtime error: integer divide by zero"
            else "sync: negative WaitGroup counter")%string) /\
  (forall copies n, Forall (fun task => Effects task = []) copies ->
     RunParallelSlices inOrig copies n
       = inl (Done ((fun task => Png.Save (Png.Load (inOrig task))) <$> copies))).
Proof.
  intros Hrows Hn. split_and!.
  - intros task Htask.
    pose proof (proj1 (Forall_forall _ _) Hrows _ Htask).
    by apply processImageSlice_waited.
  - by apply RunParallelSlices_waited.
  - intros task rest n (effect & effects & Heff & Hk) Hint Hn0.
    cbn [RunParallelSlices]. unfold processImageSlice. rewrite Heff.
    cbn [length Nat.ltb Nat.leb ParSlices.applyEffectsSliced].
    by rewrite apply_effect_no_worker by done.
  - intros copies n Hnone. induction Hnone as [|task rest Htask _ IH]; [done|].
    cbn [RunParallelSlices fmap list_fmap]. unfold processImageSlice at 1.
    rewrite Htask. cbn [length Nat.ltb Nat.leb]. by rewrite IH.
Qed.

Lemma parallel_slices_refine_sequential_witness :
  let tasks := [example_task; example_copy_task] in
  (forall task, task ∈ tasks ->
     processImageSlice (example_inOrig task) task 2
       = waited (Sequential.processImageTask (example_inOrig task) task)) /\
  RunParallelSlices example_inOrig tasks 2
    = waited (Sequential.RunSequential example_inOrig tasks) /\
  (forall task rest n, starts_with_known_effect task -> in_int n -> n <= 0 ->
     RunParallelSlices example_inOrig (task :: rest) n =
       inr (if decide (n = 0) then "runtime error: integer divide by zero"
            else "sync: negative WaitGroup counter")%string) /\
  (forall copies n, Forall (fun task => Effects task = []) copies ->
     RunParallelSlices example_inOrig copies n
       = inl (Done ((fun task => Png.Save (Png.Load (example_inOrig task))) <$> copies))).
Proof.
  apply (parallel_slices_refine_sequential example_inOrig
           [example_task; example_copy_task] 2).
  - repeat constructor; unfold in_int, int_min, int_max; simpl; lia.
  - unfold int_max. lia.
Defined.

End ParSlicesFacts.
